(** * oatty schema utilities: date-field detector and payload property counter

    A shallow embedding of [schemas/extract_date_fields.py] and
    [schemas/top_properties.py], with the properties of their specification
    stated and proved over it.

    Conventions of the embedding.
    - A Python [str] is a Rocq [string]; a character is a code point below
      256, so the model covers the strings whose characters all lie in that
      range.
    - A parsed JSON document is a tree: [json.load] builds a fresh container
      for every object and array of the text. The detector looks at the
      content of the document only; the counter also looks at the identity
      of the containers, which the model of [json.load] gives out.
    - Python's call stack is taken to be unbounded. *)

From Stdlib Require Import Ascii String SpecFloat ZArith.
From stdpp Require Import gmap strings list sorting pretty.

Set Warnings "-register-all".
#[local] Open Scope string_scope.

(** ** Python string primitives used by the two programs *)

Module PyStr.

Definition LF : ascii := "010"%char.
Definition DQUOTE : ascii := "034"%char.

(** [c in "0123456789"]; also what [\d] matches below code point 256. *)
Definition is_digit (c : ascii) : bool :=
  let n := nat_of_ascii c in (48 <=? n)%nat && (n <=? 57)%nat.

Definition digit_val (c : ascii) : Z := Z.of_nat (nat_of_ascii c) - 48.

(** [s.startswith(c)] for a one-character prefix. *)
Definition startswith (c : ascii) (s : string) : bool :=
  match s with
  | String c' _ => Ascii.eqb c' c
  | EmptyString => false
  end.

(** [s[1:]] *)
Definition drop1 (s : string) : string :=
  match s with
  | String _ t => t
  | EmptyString => EmptyString
  end.

(** [s.split(sep)] for a one-character separator: never the empty list. *)
Fixpoint split (sep : ascii) (s : string) : list string :=
  match s with
  | EmptyString => [EmptyString]
  | String c t =>
      if Ascii.eqb c sep then EmptyString :: split sep t
      else match split sep t with
           | p :: ps => String c p :: ps
           | [] => [String c EmptyString]
           end
  end.

(** [s.replace(old, new)] for a two-character [old = c1 c2]: occurrences are
    replaced from left to right and do not overlap. *)
Fixpoint replace2 (c1 c2 : ascii) (new : string) (s : string) : string :=
  match s with
  | EmptyString => EmptyString
  | String a t =>
      match t with
      | String b u =>
          if Ascii.eqb a c1 && Ascii.eqb b c2 then new ++ replace2 c1 c2 new u
          else String a (replace2 c1 c2 new t)
      | EmptyString => String a EmptyString
      end
  end.

(** [c.lower()] below code point 256: A-Z, and the accented capitals
    0xC0-0xDE apart from the multiplication sign 0xD7. *)
Definition lower_char (c : ascii) : ascii :=
  let n := nat_of_ascii c in
  if ((65 <=? n) && (n <=? 90)
      || (192 <=? n) && (n <=? 222) && negb (n =? 215))%nat
  then ascii_of_nat (n + 32) else c.

Fixpoint lower (s : string) : string :=
  match s with
  | EmptyString => EmptyString
  | String c t => String (lower_char c) (lower t)
  end.

(** White space skipped by [int(str)] around the number. *)
Definition is_int_space (c : ascii) : bool :=
  let n := nat_of_ascii c in
  ((9 <=? n) && (n <=? 13) || (n =? 32) || (n =? 133) || (n =? 160))%nat.

Fixpoint lstrip (s : string) : string :=
  match s with
  | String c t => if is_int_space c then lstrip t else s
  | EmptyString => EmptyString
  end.

(** Trailing white space removed, as a right-to-left pass. *)
Fixpoint rstrip (s : string) : string :=
  match s with
  | EmptyString => EmptyString
  | String c t =>
      match rstrip t with
      | EmptyString => if is_int_space c then EmptyString else String c EmptyString
      | t' => String c t'
      end
  end.

(** Digits with single underscores between them: [acc] is the value read so
    far, [n] the number of digits read so far. The first character must be a
    digit, and an underscore must be followed by a digit. *)
Fixpoint digits_from (s : string) (acc : Z) (n : nat) : option (Z * nat) :=
  match s with
  | EmptyString => Some (acc, n)
  | String c t =>
      if is_digit c then digits_from t (10 * acc + digit_val c) (S n)
      else if Ascii.eqb c "_" then
        match t with
        | String d _ => if is_digit d then digits_from t acc n else None
        | EmptyString => None
        end
      else None
  end.

(** CPython's default limit on the number of digits [int(str)] converts. *)
Definition int_max_str_digits : nat := 4300.

Definition unsigned_int (s : string) : option Z :=
  match s with
  | String c _ =>
      if is_digit c then
        match digits_from s 0 0 with
        | Some (z, n) => if (n <=? int_max_str_digits)%nat then Some z else None
        | None => None
        end
      else None
  | EmptyString => None
  end.

(** [int(s)] for a string [s]: [None] stands for [ValueError]. *)
Definition py_int (s : string) : option Z :=
  match rstrip (lstrip s) with
  | String "-" t => Z.opp <$> unsigned_int t
  | String "+" t => unsigned_int t
  | t => unsigned_int t
  end.

End PyStr.

(** ** A backtracking matcher for the fragment of [re] the detector uses *)

Module Re.
Import PyStr.

Inductive regex : Type :=
| Eps                           (* the empty pattern *)
| Bol                           (* ^  : start of the subject *)
| Eol                           (* $  : end, or before a final line feed *)
| Lit (c : ascii)               (* an ordinary character *)
| Digit                         (* \d *)
| OneOf (cs : list ascii)       (* [...] *)
| Cat (r1 r2 : regex)
| Alt (r1 r2 : regex)           (* r1|r2 *)
| Opt (r : regex)               (* r? *)
| Times (n : nat) (r : regex).  (* r{n} *)

(** [Cat] over a list, and a run of literal characters. *)
Definition cat_all (rs : list regex) : regex := foldr Cat Eps rs.

Fixpoint lits (s : string) : regex :=
  match s with
  | EmptyString => Eps
  | String c t => Cat (Lit c) (lits t)
  end.

Definition one_char (p : ascii → bool) (pos : nat) (s : string)
    (k : nat → string → bool) : bool :=
  match s with
  | String c t => p c && k (S pos) t
  | EmptyString => false
  end.

(** [run r pos s k]: some way of matching [r] at offset [pos], where [s] is
    what is left of the subject, leaves a rest that [k] accepts. *)
Fixpoint run (r : regex) (pos : nat) (s : string) (k : nat → string → bool) : bool :=
  match r with
  | Eps => k pos s
  | Bol => (pos =? 0)%nat && k pos s
  | Eol =>
      match s with
      | EmptyString => k pos s
      | String c EmptyString => Ascii.eqb c LF && k pos s
      | _ => false
      end
  | Lit c => one_char (Ascii.eqb c) pos s k
  | Digit => one_char is_digit pos s k
  | OneOf cs => one_char (fun c => existsb (Ascii.eqb c) cs) pos s k
  | Cat r1 r2 => run r1 pos s (fun pos' s' => run r2 pos' s' k)
  | Alt r1 r2 => run r1 pos s k || run r2 pos s k
  | Opt r1 => run r1 pos s k || k pos s
  | Times n r1 =>
      (fix rep (n : nat) (pos : nat) (s : string) : bool :=
         match n with
         | O => k pos s
         | S n' => run r1 pos s (fun pos' s' => rep n' pos' s')
         end) n pos s
  end.

(** [bool(r.match(s))]: a match must start at offset 0 and may end
    anywhere. *)
Definition matches (r : regex) (s : string) : bool := run r 0 s (fun _ _ => true).

(** The whole of [s] is matched by [r]. *)
Definition fullmatch (r : regex) (s : string) : bool :=
  run r 0 s (fun _ s' => match s' with EmptyString => true | _ => false end).

End Re.

(** ** The functions of [os.path] the detector uses, as on a POSIX system *)

Module PosixPath.
Import PyStr.

(** [s.rfind(sep)] for a one-character [sep]: the last position of [sep] in
    [s], or -1. *)
Fixpoint rfind (sep : ascii) (s : string) : Z :=
  match s with
  | EmptyString => (-1)%Z
  | String c t =>
      let r := rfind sep t in
      if (0 <=? r)%Z then (r + 1)%Z else if Ascii.eqb c sep then 0%Z else (-1)%Z
  end.

(** [sep * n] *)
Fixpoint times (sep : ascii) (n : nat) : string :=
  match n with
  | O => EmptyString
  | S n' => String sep (times sep n')
  end.

(** [s.rstrip(sep)] for a one-character [sep]. *)
Fixpoint rstrip_char (sep : ascii) (s : string) : string :=
  match s with
  | EmptyString => EmptyString
  | String c t =>
      match rstrip_char sep t with
      | EmptyString => if Ascii.eqb c sep then EmptyString else String c EmptyString
      | t' => String c t'
      end
  end.

(** [s.endswith(sep)] for a one-character [sep]. *)
Fixpoint endswith (sep : ascii) (s : string) : bool :=
  match s with
  | EmptyString => false
  | String c EmptyString => Ascii.eqb c sep
  | String _ t => endswith sep t
  end.

(** [os.path.dirname(p)] *)
Definition dirname (p : string) : string :=
  let i := (rfind "/" p + 1)%Z in
  let head := substring 0 (Z.to_nat i) p in
  if negb (String.eqb head "") && negb (String.eqb head (times "/" (String.length head)))
  then rstrip_char "/" head
  else head.

(** [os.path.join(a, b)] *)
Definition join (a b : string) : string :=
  if startswith "/" b then b
  else if String.eqb a "" || endswith "/" a then a ++ b
  else a ++ String "/" b.

End PosixPath.

(** ** schemas/extract_date_fields.py *)

Module ExtractDateFields.
Import PyStr Re.

(** What [json.load] returns. The detector never looks at the identity of a
    container, so a document is its content; an object keeps its entries in
    the order of the text. *)
Inductive json : Type :=
| JNull
| JBool (b : bool)
| JInt (z : Z)
| JFloat (f : spec_float)
| JStr (s : string)
| JList (xs : list json)
| JDict (kvs : list (string * json)).

(** [node.get(key)] *)
Fixpoint get (key : string) (kvs : list (string * json)) : option json :=
  match kvs with
  | [] => None
  | (k, v) :: t => if String.eqb k key then Some v else get key t
  end.

(** [f(node.get(key))] when the key is present and [d] when it is not,
    written as a scan of the entries so that [f] may call a function that is
    being defined by recursion on the document. *)
Definition with_key {A : Type} (key : string) (f : json → A) (d : A)
    : list (string * json) → A :=
  fix go kvs :=
    match kvs with
    | [] => d
    | (k, v) :: t => if String.eqb k key then f v else go t
    end.

(** [bool(x)] *)
Definition truthy (x : json) : bool :=
  match x with
  | JNull => false
  | JBool b => b
  | JInt z => negb (z =? 0)%Z
  | JFloat (S754_zero _) => false
  | JFloat _ => true
  | JStr s => negb (String.eqb s "")
  | JList xs => negb (Nat.eqb (length xs) 0)
  | JDict kvs => negb (Nat.eqb (length kvs) 0)
  end.

(** The pattern handed to [re.compile]. Its literal runs over three source
    lines, so the text between the quotes holds a line feed and four spaces
    in front of [T] and a line feed in front of the closing parenthesis of
    the time group; no flag makes the engine skip them. *)
Definition ISO_DATE_RE : regex :=
  cat_all
    [ Bol; Times 4 Digit; OneOf ["-"; "/"]%char; Times 2 Digit;
      OneOf ["-"; "/"]%char; Times 2 Digit;
      Opt (cat_all
             [ Lit LF; lits "    T"; Times 2 Digit; Lit ":"; Times 2 Digit;
               Opt (cat_all [Lit ":"; Times 2 Digit]);
               Opt (Alt (Lit "Z")
                        (cat_all [ OneOf ["+"; "-"]%char; Times 2 Digit;
                                   Opt (Lit ":"); Times 2 Digit ]));
               Lit LF ]);
      Eol ].

Definition looks_like_iso_date (s : string) : bool := matches ISO_DATE_RE s.

(** The pattern of the specification:
    [\d{4}[-/]\d{2}[-/]\d{2}(T\d{2}:\d{2}(:\d{2})?(Z|[+-]\d{2}:?\d{2})?)?],
    to be matched by the whole string. *)
Definition iso_date_pattern_spec : regex :=
  cat_all
    [ Times 4 Digit; OneOf ["-"; "/"]%char; Times 2 Digit;
      OneOf ["-"; "/"]%char; Times 2 Digit;
      Opt (cat_all
             [ Lit "T"; Times 2 Digit; Lit ":"; Times 2 Digit;
               Opt (cat_all [Lit ":"; Times 2 Digit]);
               Opt (Alt (Lit "Z")
                        (cat_all [ OneOf ["+"; "-"]%char; Times 2 Digit;
                                   Opt (Lit ":"); Times 2 Digit ])) ]) ].

Definition fully_matches_spec (s : string) : bool := fullmatch iso_date_pattern_spec s.

Definition combinator_keys : list string := ["anyOf"; "oneOf"; "allOf"].

Fixpoint has_date_indicator (node : json) : bool :=
  match node with
  | JDict kvs =>
      if match get "format" kvs with
         | Some (JStr fmt) => String.eqb fmt "date-time" || String.eqb fmt "date"
         | _ => false
         end
      then true
      else if match get "example" kvs with
              | Some (JStr example) => looks_like_iso_date example
              | _ => false
              end
      then true
      else if existsb
                (fun key =>
                   with_key key
                     (fun arr => match arr with
                                 | JList xs => existsb has_date_indicator xs
                                 | _ => false
                                 end)
                     false kvs)
                combinator_keys
      then true
      else with_key "items" (fun items => truthy items && has_date_indicator items) false kvs
  | _ => false
  end.

Definition passthrough_keys : list string :=
  [ "items"; "anyOf"; "oneOf"; "allOf"; "not"; "additionalProperties";
    "patternProperties"; "targetSchema"; "schema" ].

(** [collect(node, out)]: [out] is updated in place by the source and
    threaded through here. *)
Fixpoint collect (node : json) (out : gset string) : gset string :=
  match node with
  | JDict kvs =>
      let named (m : json) (out : gset string) : gset string :=
        match m with
        | JDict entries =>
            foldl (fun out kv =>
                     collect kv.2
                       (if has_date_indicator kv.2 then {[ lower kv.1 ]} ∪ out else out))
                  out entries
        | _ => out
        end in
      let out := with_key "properties" named (fun out => out) kvs out in
      let out := with_key "definitions" named (fun out => out) kvs out in
      foldl (fun out key =>
               with_key key
                 (fun val out => match val with
                                 | JNull => out
                                 | _ => collect val out
                                 end)
                 (fun out => out) kvs out)
            out passthrough_keys
  | JList xs => foldl (fun out x => collect x out) out xs
  | _ => out
  end.

(** The order of [str]: by code point, a proper prefix first. *)
Definition str_le (s1 s2 : string) : Prop := String.leb s1 s2 = true.

#[export] Instance str_le_dec : RelDecision str_le.
Proof. intros s1 s2. unfold str_le. apply _. Defined.

(** [sorted(xs)] for a list of strings. *)
Definition sorted (xs : list string) : list string := merge_sort str_le xs.

(** [json.dumps] of one string, with the default [ensure_ascii]. *)
Definition hex_digit (n : nat) : ascii :=
  if (n <? 10)%nat then ascii_of_nat (48 + n) else ascii_of_nat (87 + n).

Definition escape_char (c : ascii) : string :=
  let n := nat_of_ascii c in
  if Ascii.eqb c DQUOTE then String "\" (String DQUOTE EmptyString)
  else if Ascii.eqb c "\" then "\\"
  else if (n =? 10)%nat then "\n"
  else if (n =? 13)%nat then "\r"
  else if (n =? 9)%nat then "\t"
  else if (n =? 8)%nat then "\b"
  else if (n =? 12)%nat then "\f"
  else if ((32 <=? n) && (n <=? 126))%nat then String c EmptyString
  else "\u00" ++ String (hex_digit (n / 16)) (String (hex_digit (n mod 16)) EmptyString).

Fixpoint escape (s : string) : string :=
  match s with
  | EmptyString => EmptyString
  | String c t => escape_char c ++ escape t
  end.

Definition dumps_str (s : string) : string :=
  String DQUOTE (escape s ++ String DQUOTE EmptyString).

(** [json.dumps(result, indent=2)] for a list of strings. *)
Definition dumps_indent2 (xs : list string) : string :=
  match xs with
  | [] => "[]"
  | x :: rest =>
      "[" ++ String LF "  " ++ dumps_str x
      ++ foldr (fun y acc => "," ++ String LF "  " ++ dumps_str y ++ acc) "" rest
      ++ String LF "]"
  end.

(** What a run leaves behind. *)
Record run_result : Type := RunResult {
  sidecar_content : string;   (* date_fields.json *)
  stdout : string;
  exit_status : Z
}.

Section Main.
(** The order in which a [set] of strings is iterated depends on the
    hashes of its elements, which change from one process to the next:
    any enumeration of the elements is possible. *)
Variable set_iter : gset string → list string.

Definition detect (data : json) : list string :=
  let found := collect data ∅ in
  sorted (set_iter found).

(** [main], from the parsed document on. *)
Definition main (data : json) : run_result :=
  let result := detect data in
  {| sidecar_content := dumps_indent2 result;
     stdout := dumps_indent2 result ++ String LF EmptyString;
     exit_status := 0 |}.
End Main.

(** [set_iter] enumerates the elements of the set, each once. *)
Definition enumerates (set_iter : gset string → list string) : Prop :=
  ∀ X, set_iter X ≡ₚ elements X.

(** The path of the schema: the first argument of the command line when
    there is one, and [heroku-schema.json] in the directory [here] of the
    script when there is none. *)
Definition schema_path (argv : list string) (here : string) : string :=
  match argv with
  | _ :: arg :: _ => arg
  | _ => PosixPath.join here "heroku-schema.json"
  end.

(** The path of the file the result is written to. *)
Definition out_path (schema_path : string) : string :=
  PosixPath.join (PosixPath.dirname schema_path) "date_fields.json".

(** *** Specification-side notions for the detector *)

(** The keys whose maps name fields. *)
Definition name_maps : list string := ["properties"; "definitions"].

(** The nodes [collect] moves to from a node: the values of a [properties] or
    [definitions] map, the value under a pass-through key unless it is
    [None], and the elements of a list. *)
Inductive child : json → json → Prop :=
| child_named kvs m entries k v :
    m ∈ name_maps → get m kvs = Some (JDict entries) → (k, v) ∈ entries →
    child (JDict kvs) v
| child_passthrough kvs key val :
    key ∈ passthrough_keys → get key kvs = Some val → val ≠ JNull →
    child (JDict kvs) val
| child_item xs x :
    x ∈ xs → child (JList xs) x.

(** [name] is the lowercased key of an entry, in a [properties] or
    [definitions] map of a node the descent from [root] comes to, whose value
    has the date indicator. *)
Definition date_field (root : json) (name : string) : Prop :=
  ∃ kvs m entries k v,
    rtc child root (JDict kvs) ∧ m ∈ name_maps ∧
    get m kvs = Some (JDict entries) ∧ (k, v) ∈ entries ∧
    has_date_indicator v = true ∧ name = lower k.

(** The combinator check as the specification words it: the first of
    [anyOf], [oneOf], [allOf] that holds a list decides, and the keys after
    it are not looked at. *)
Definition first_list_wins (f : json → bool) (kvs : list (string * json)) : bool :=
  match get "anyOf" kvs with
  | Some (JList xs) => existsb f xs
  | _ =>
      match get "oneOf" kvs with
      | Some (JList xs) => existsb f xs
      | _ =>
          match get "allOf" kvs with
          | Some (JList xs) => existsb f xs
          | _ => false
          end
      end
  end.

(** The checks of [has_date_indicator] on the entries of an object, one by
    one. *)
Definition format_hit (kvs : list (string * json)) : bool :=
  match get "format" kvs with
  | Some (JStr fmt) => String.eqb fmt "date-time" || String.eqb fmt "date"
  | _ => false
  end.

Definition example_hit (kvs : list (string * json)) : bool :=
  match get "example" kvs with
  | Some (JStr example) => looks_like_iso_date example
  | _ => false
  end.

Definition list_hit (key : string) (kvs : list (string * json)) : bool :=
  match get key kvs with
  | Some (JList xs) => existsb has_date_indicator xs
  | _ => false
  end.

Definition items_hit (kvs : list (string * json)) : bool :=
  match get "items" kvs with
  | Some items => has_date_indicator items
  | None => false
  end.



(** *** Notions of the proofs *)

(** Number of constructors of a document, for induction on documents. *)
Fixpoint size (j : json) : nat :=
  match j with
  | JList xs => S (foldr (fun x n => size x + n) 0 xs)
  | JDict kvs => S (foldr (fun kv n => size kv.2 + n) 0 kvs)
  | _ => 1
  end.

(** The loop of [collect] over the entries of a [properties] or
    [definitions] map. *)
Definition add_named (entries : list (string * json)) (out : gset string) : gset string :=
  foldl (fun out kv =>
           collect kv.2 (if has_date_indicator kv.2 then {[ lower kv.1 ]} ∪ out else out))
        out entries.

(** The loop over the entries of the map under [m], when it is an object. *)
Definition named_step (m : string) (kvs : list (string * json)) (out : gset string)
    : gset string :=
  with_key m
    (fun m out => match m with JDict entries => add_named entries out | _ => out end)
    (fun out => out) kvs out.

(** The descent under one pass-through key. *)
Definition pass_step (kvs : list (string * json)) (out : gset string) (key : string)
    : gset string :=
  with_key key
    (fun val out => match val with JNull => out | _ => collect val out end)
    (fun out => out) kvs out.

(** What the descent collects below a node, as a statement about one
    node. *)
Definition collect_ok (node : json) : Prop :=
  ∀ out x, x ∈ collect node out ↔ x ∈ out ∨ date_field node x.

(** The value of a hexadecimal digit as [json.dumps] writes it. *)
Definition hex_value (c : ascii) : option nat :=
  let n := nat_of_ascii c in
  if ((48 <=? n) && (n <=? 57))%nat then Some (n - 48)%nat
  else if ((97 <=? n) && (n <=? 102))%nat then Some (n - 87)%nat
  else None.

(** The character the front of an escaped text stands for, and the rest of
    the text; nothing when the text is empty, starts with the closing quote
    or with no escape that [json.dumps] writes. *)
Definition unescape_char (s : string) : option (ascii * string) :=
  match s with
  | EmptyString => None
  | String c t =>
      if Ascii.eqb c DQUOTE then None
      else if Ascii.eqb c "\" then
        match t with
        | String e u =>
            if Ascii.eqb e DQUOTE then Some (DQUOTE, u)
            else if Ascii.eqb e "\" then Some ("\"%char, u)
            else if Ascii.eqb e "n" then Some (ascii_of_nat 10, u)
            else if Ascii.eqb e "r" then Some (ascii_of_nat 13, u)
            else if Ascii.eqb e "t" then Some (ascii_of_nat 9, u)
            else if Ascii.eqb e "b" then Some (ascii_of_nat 8, u)
            else if Ascii.eqb e "f" then Some (ascii_of_nat 12, u)
            else if Ascii.eqb e "u" then
              match u with
              | String "0" (String "0" (String h (String l v))) =>
                  match hex_value h, hex_value l with
                  | Some x, Some y => Some (ascii_of_nat (16 * x + y), v)
                  | _, _ => None
                  end
              | _ => None
              end
            else None
        | EmptyString => None
        end
      else Some (c, t)
  end.

(** What [json.dumps] writes after the first item. *)
Definition dumps_rest (xs : list string) : string :=
  foldr (fun y acc => "," +:+ String LF "  " +:+ dumps_str y +:+ acc) "" xs +:+ String LF "]".

(** What [dirname] returns: nothing, slashes only, or a path that does not
    end in a slash. *)
Definition trimmed (h : string) : Prop :=
  h = "" ∨ (h ≠ "" ∧ h = PosixPath.times "/" (String.length h))
  ∨ (h ≠ "" ∧ PosixPath.endswith "/" h = false).

(** *** Example documents *)

(** The nodes of the specification's examples. *)
Definition format_is_date_time : json := JDict [("format", JStr "date-time")].
Definition format_is_uri : json := JDict [("format", JStr "uri")].
Definition any_of_date_or_null : json :=
  JDict [("anyOf", JList [JDict [("format", JStr "date")]; JDict [("type", JStr "null")]])].

(** An object whose [anyOf] list has no date and whose [oneOf] list has
    one. *)
Definition null_then_date : list (string * json) :=
  [ ("anyOf", JList [JDict [("type", JStr "null")]]);
    ("oneOf", JList [JDict [("format", JStr "date")]]) ].

(** An object with the properties [CreatedAt], a date-time, and [name], a
    string. *)
Definition created_at_example : json :=
  JDict [("properties",
          JDict [ ("CreatedAt", JDict [("format", JStr "date-time")]);
                  ("name", JDict [("type", JStr "string")]) ])].

End ExtractDateFields.


(** ** schemas/top_properties.py *)

Module TopProperties.
Import PyStr.

(** What [json.load] returns, with the identity of each container: the walk
    keys its visited set on [id(node)]. Scalars are never tested for
    identity. *)
Inductive value : Type :=
| VNull
| VBool (b : bool)
| VInt (z : Z)
| VFloat (f : spec_float)
| VStr (s : string)
| VList (oid : nat) (items : list value)
| VDict (oid : nat) (entries : list (string * value)).

(** [node.get(key)]; also [node[key]] once [key in node] is known. *)
Fixpoint get (key : string) (kvs : list (string * value)) : option value :=
  match kvs with
  | [] => None
  | (k, v) :: t => if String.eqb k key then Some v else get key t
  end.

(** [json.load]: every object and array of the text becomes a container of
    its own. [next] is the first identity not yet given out; the identities
    are given out in the order of the text. *)
Fixpoint load_from (next : nat) (j : ExtractDateFields.json) : value * nat :=
  match j with
  | ExtractDateFields.JNull => (VNull, next)
  | ExtractDateFields.JBool b => (VBool b, next)
  | ExtractDateFields.JInt z => (VInt z, next)
  | ExtractDateFields.JFloat f => (VFloat f, next)
  | ExtractDateFields.JStr s => (VStr s, next)
  | ExtractDateFields.JList xs =>
      let r :=
        (fix go (next : nat) (xs : list ExtractDateFields.json) : list value * nat :=
           match xs with
           | [] => ([], next)
           | x :: t =>
               let r1 := load_from next x in
               let r2 := go r1.2 t in
               (r1.1 :: r2.1, r2.2)
           end) (S next) xs in
      (VList next r.1, r.2)
  | ExtractDateFields.JDict kvs =>
      let r :=
        (fix go (next : nat) (kvs : list (string * ExtractDateFields.json))
           : list (string * value) * nat :=
           match kvs with
           | [] => ([], next)
           | kv :: t =>
               let r1 := load_from next kv.2 in
               let r2 := go r1.2 t in
               ((kv.1, r1.1) :: r2.1, r2.2)
           end) (S next) kvs in
      (VDict next r.1, r.2)
  end.

Definition load (j : ExtractDateFields.json) : value := (load_from 0 j).1.

(** [id(node)] of a container. *)
Definition oid_of (v : value) : option nat :=
  match v with
  | VList oid _ | VDict oid _ => Some oid
  | _ => None
  end.

(** [isinstance(v, (dict, list))] *)
Definition is_container (v : value) : bool :=
  match v with
  | VList _ _ | VDict _ _ => true
  | _ => false
  end.

Inductive error : Type :=
| ValueError_non_local (pointer : string)      (* Unsupported $ref (non-local) *)
| KeyError_index_not_integer (raw : string)    (* List index not integer in pointer *)
| KeyError_token_not_found (token : string)    (* Pointer token not found *)
| KeyError_non_container (raw : string)        (* Cannot dereference token on non-container *)
| IndexError_out_of_range                      (* cur[idx] outside the list *)
| AttributeError_get.                          (* doc.get on a document that is no dict *)

Inductive result (A : Type) : Type :=
| Ok (a : A)
| Raise (e : error).
Arguments Ok {A} a.
Arguments Raise {A} e.

(** [raw.replace('~1', '/').replace('~0', '~')] *)
Definition unescape (raw : string) : string :=
  replace2 "~" "0" "~" (replace2 "~" "1" "/" raw).

(** [cur[idx]] on a list: a negative index counts from the end. *)
Definition list_index (items : list value) (idx : Z) : option value :=
  let n := Z.of_nat (length items) in
  let i := if (idx <? 0)%Z then (idx + n)%Z else idx in
  if ((0 <=? i) && (i <? n))%Z then items !! Z.to_nat i else None.

(** One turn of the loop over [parts]. *)
Definition deref (cur : value) (raw : string) : result value :=
  let token := unescape raw in
  match cur with
  | VList _ items =>
      match py_int token with
      | None => Raise (KeyError_index_not_integer raw)
      | Some idx =>
          match list_index items idx with
          | Some v => Ok v
          | None => Raise IndexError_out_of_range
          end
      end
  | VDict _ entries =>
      match get token entries with
      | None => Raise (KeyError_token_not_found token)
      | Some v => Ok v
      end
  | _ => Raise (KeyError_non_container raw)
  end.

Fixpoint deref_all (cur : value) (parts : list string) : result value :=
  match parts with
  | [] => Ok cur
  | raw :: rest =>
      match deref cur raw with
      | Ok next => deref_all next rest
      | Raise e => Raise e
      end
  end.

Definition json_pointer_get (doc : value) (pointer : string) : result value :=
  let pointer := if startswith "#" pointer then drop1 pointer else pointer in
  if String.eqb pointer "" then Ok doc
  else if negb (startswith "/" pointer) then Raise (ValueError_non_local pointer)
  else deref_all doc (tail (split "/" pointer)).

(** *** The counting walk

    [visited] is the set of identities of one payload's walk, kept as the
    list of the identities added, latest first; [counts] is the [Counter]
    shared by all walks. Both are updated in place by the source and threaded
    through here. An exception leaves the updates made before it in place. *)

Record state : Type := State {
  visited : list nat;
  counts : gmap string nat
}.

Inductive outcome (S : Type) : Type :=
| Done (st : S)
| Raised (e : error) (st : S)
| OutOfFuel.
Arguments Done {S} st.
Arguments Raised {S} e st.
Arguments OutOfFuel {S}.

Definition action (S : Type) : Type := S → outcome S.

Definition skip {S : Type} : action S := Done.

Definition seq {S : Type} (a b : action S) : action S :=
  fun st => match a st with
            | Done st' => b st'
            | o => o
            end.

(** [for x in xs: body(x)] *)
Definition for_each {S X : Type} (xs : list X) (body : X → action S) : action S :=
  foldr (fun x rest => seq (body x) rest) skip xs.

(** [try: a except Exception: pass] *)
Definition try_pass {S : Type} (a : action S) : action S :=
  fun st => match a st with
            | Raised _ st' => Done st'
            | o => o
            end.

Definition raise {S : Type} (e : error) : action S := Raised e.

(** [visited.add(node_id)] *)
Definition mark (oid : nat) : action state :=
  fun st => Done {| visited := oid :: visited st; counts := counts st |}.

(** [counts[prop_name] += 1] on a [Counter], where an absent name counts 0. *)
Definition incr (name : string) (c : gmap string nat) : gmap string nat :=
  <[name := S (c !!! name)]> c.

Definition count (name : string) : action state :=
  fun st => Done {| visited := visited st; counts := incr name (counts st) |}.

Definition schema_keys : list string :=
  [ "items"; "additionalItems"; "additionalProperties"; "propertyNames";
    "definitions"; "dependencies"; "allOf"; "anyOf"; "oneOf"; "not";
    "if"; "then"; "else"; "contains" ].

Definition str_in (s : string) (l : list string) : bool := existsb (String.eqb s) l.

(** [walk(node, visited)], the closure inside
    [count_properties_in_target_payloads]; [fuel] bounds the depth of the
    recursion, which the source leaves to the visited set. *)
Fixpoint walk (fuel : nat) (doc : value) (node : value) : action state :=
  match fuel with
  | O => fun _ => OutOfFuel
  | S fuel =>
      match node with
      | VDict node_id entries =>
          fun st =>
            if bool_decide (node_id ∈ visited st) then Done st
            else
              seq (mark node_id)
             (seq (match get "$ref" entries with
                   | Some (VStr ref) =>
                       if startswith "#" ref || startswith "/" ref then
                         try_pass
                           (match json_pointer_get doc ref with
                            | Ok target => walk fuel doc target
                            | Raise e => raise e
                            end)
                       else skip
                   | _ => skip
                   end)
             (seq (match get "properties" entries with
                   | Some (VDict _ props) =>
                       for_each props
                         (fun kv => seq (count kv.1) (walk fuel doc kv.2))
                   | _ => skip
                   end)
                  (for_each entries
                     (fun kv =>
                        let key := kv.1 in
                        let value := kv.2 in
                        if String.eqb key "properties" then skip
                        else if String.eqb key "patternProperties" then
                          match value with
                          | VDict _ subs => for_each subs (fun kv' => walk fuel doc kv'.2)
                          | _ => skip
                          end
                        else if str_in key schema_keys then walk fuel doc value
                        else if is_container value then walk fuel doc value
                        else skip)))) st
      | VList node_id items =>
          fun st =>
            if bool_decide (node_id ∈ visited st) then Done st
            else seq (mark node_id) (for_each items (walk fuel doc)) st
      | _ => skip
      end
  end.

(** The [targetSchema] values under [definitions.<name>.links[]]. *)
Definition link_payload (link : value) : list value :=
  match link with
  | VDict _ l =>
      match get "targetSchema" l with
      | Some ts => if is_container ts then [ts] else []
      | None => []
      end
  | _ => []
  end.

Definition def_payloads (_def : value) : list value :=
  match _def with
  | VDict _ d =>
      match get "links" d with
      | Some (VList _ links) => flat_map link_payload links
      | _ => []
      end
  | _ => []
  end.

Definition payload_schemas (top : list (string * value)) : list value :=
  match get "definitions" top with
  | Some (VDict _ definitions) => flat_map (fun kv => def_payloads kv.2) definitions
  | _ => []
  end.

(** [walk(payload, set())]: a walk of its own visited set, on the shared
    counts. *)
Definition walk_payload (fuel : nat) (doc : value) (payload : value)
    : action (gmap string nat) :=
  fun c =>
    match walk fuel doc payload {| visited := []; counts := c |} with
    | Done st => Done (counts st)
    | Raised e st => Raised e (counts st)
    | OutOfFuel => OutOfFuel
    end.

Definition count_properties_in_target_payloads (fuel : nat) (doc : value)
    : outcome (gmap string nat) :=
  match doc with
  | VDict _ top => for_each (payload_schemas top) (walk_payload fuel doc) ∅
  | _ => Raised AttributeError_get ∅
  end.

(** The identities of the containers of a value, the value's own first. *)
Fixpoint oids (v : value) : list nat :=
  match v with
  | VList oid items => oid :: flat_map oids items
  | VDict oid entries => oid :: flat_map (fun kv => oids kv.2) entries
  | _ => []
  end.

(** Fuel that is enough for any walk inside [doc]. *)
Definition enough_fuel (doc : value) : nat := S (length (oids doc)).

(** *** The report

    [main] prints the fifty most common names. [Counter.most_common] lists
    names of equal count in the order in which the [Counter] holds them, the
    order in which they were first counted; so the walk is given once more,
    over a [Counter] that keeps its names in that order. *)

Module Ordered.

(** A [Counter], as the list of its items in the order of insertion. *)
Definition counter : Type := list (string * nat).

(** [counts[prop_name] += 1]: a name already there keeps its place, a new
    one goes to the end. *)
Fixpoint incr (name : string) (c : counter) : counter :=
  match c with
  | [] => [(name, 1%nat)]
  | (k, n) :: t =>
      if String.eqb k name then (k, S n) :: t else (k, n) :: incr name t
  end.

Record state : Type := State {
  visited : list nat;
  counts : counter
}.

Definition mark (oid : nat) : action state :=
  fun st => Done {| visited := oid :: visited st; counts := counts st |}.

Definition count (name : string) : action state :=
  fun st => Done {| visited := visited st; counts := incr name (counts st) |}.

Fixpoint walk (fuel : nat) (doc : value) (node : value) : action state :=
  match fuel with
  | O => fun _ => OutOfFuel
  | S fuel =>
      match node with
      | VDict node_id entries =>
          fun st =>
            if bool_decide (node_id ∈ visited st) then Done st
            else
              seq (mark node_id)
             (seq (match get "$ref" entries with
                   | Some (VStr ref) =>
                       if startswith "#" ref || startswith "/" ref then
                         try_pass
                           (match json_pointer_get doc ref with
                            | Ok target => walk fuel doc target
                            | Raise e => raise e
                            end)
                       else skip
                   | _ => skip
                   end)
             (seq (match get "properties" entries with
                   | Some (VDict _ props) =>
                       for_each props
                         (fun kv => seq (count kv.1) (walk fuel doc kv.2))
                   | _ => skip
                   end)
                  (for_each entries
                     (fun kv =>
                        let key := kv.1 in
                        let value := kv.2 in
                        if String.eqb key "properties" then skip
                        else if String.eqb key "patternProperties" then
                          match value with
                          | VDict _ subs => for_each subs (fun kv' => walk fuel doc kv'.2)
                          | _ => skip
                          end
                        else if str_in key schema_keys then walk fuel doc value
                        else if is_container value then walk fuel doc value
                        else skip)))) st
      | VList node_id items =>
          fun st =>
            if bool_decide (node_id ∈ visited st) then Done st
            else seq (mark node_id) (for_each items (walk fuel doc)) st
      | _ => skip
      end
  end.

Definition walk_payload (fuel : nat) (doc : value) (payload : value)
    : action counter :=
  fun c =>
    match walk fuel doc payload {| visited := []; counts := c |} with
    | Done st => Done (counts st)
    | Raised e st => Raised e (counts st)
    | OutOfFuel => OutOfFuel
    end.

Definition count_properties_in_target_payloads (fuel : nat) (doc : value)
    : outcome counter :=
  match doc with
  | VDict _ top => for_each (payload_schemas top) (walk_payload fuel doc) []
  | _ => Raised AttributeError_get []
  end.

End Ordered.

(** [sorted(items, key=itemgetter(1), reverse=True)]: the larger count
    first, items of equal count in the order they had. *)
Fixpoint insert_by_count (kv : string * nat) (l : Ordered.counter) : Ordered.counter :=
  match l with
  | [] => [kv]
  | kv' :: t =>
      if (kv.2 <? kv'.2)%nat then kv' :: insert_by_count kv t else kv :: l
  end.

Definition sorted_by_count (c : Ordered.counter) : Ordered.counter :=
  foldr insert_by_count [] c.

(** [counts.most_common(n)] *)
Definition most_common (n : nat) (c : Ordered.counter) : Ordered.counter :=
  take n (sorted_by_count c).

Definition TAB : ascii := "009"%char.

(** What [print] writes for one item: name, tab, count and a line feed. *)
Definition line (item : string * nat) : string :=
  item.1 ++ String TAB (pretty item.2 ++ String LF EmptyString).

Definition print_all (items : Ordered.counter) : string :=
  foldr (fun item out => line item ++ out) "" items.

(** [main], from the parsed document on: what it writes to standard
    output. *)
Definition main (fuel : nat) (doc : value) : outcome string :=
  match Ordered.count_properties_in_target_payloads fuel doc with
  | Done counts => Done (print_all (most_common 50 counts))
  | Raised e _ => Raised e ""
  | OutOfFuel => OutOfFuel
  end.

(** *** Specification-side notions for the counter *)

#[local] Open Scope nat_scope.
#[local] Open Scope list_scope.
#[local] Open Scope stdpp_scope.

(** The values inside a value, the value itself first. *)
Fixpoint nodes (v : value) : list value :=
  v :: match v with
       | VList _ items => flat_map nodes items
       | VDict _ entries => flat_map (fun kv => nodes kv.2) entries
       | _ => []
       end.

(** The target of a local [$ref] that resolves. *)
Definition ref_targets (doc : value) (entries : list (string * value)) : list value :=
  match get "$ref" entries with
  | Some (VStr ref) =>
      if startswith "#" ref || startswith "/" ref then
        match json_pointer_get doc ref with
        | Ok target => [target]
        | Raise _ => []
        end
      else []
  | _ => []
  end.

(** The entries of the [properties] object, when there is one. *)
Definition properties_of (entries : list (string * value)) : list (string * value) :=
  match get "properties" entries with
  | Some (VDict _ props) => props
  | _ => []
  end.

(** What the loop over the entries selects from one entry. *)
Definition entry_succs (kv : string * value) : list value :=
  if String.eqb kv.1 "properties" then []
  else if String.eqb kv.1 "patternProperties" then
    match kv.2 with
    | VDict _ subs => map snd subs
    | _ => []
    end
  else if str_in kv.1 schema_keys then [kv.2]
  else if is_container kv.2 then [kv.2]
  else [].

(** The values [walk] is called on when it enters a node, in the order of the
    calls. *)
Definition succs (doc : value) (n : value) : list value :=
  match n with
  | VDict _ entries =>
      ref_targets doc entries ++ map snd (properties_of entries)
      ++ flat_map entry_succs entries
  | VList _ items => items
  | _ => []
  end.

(** [m] is reached from [n] by the calls of the walk. *)
Definition reach (doc : value) : value → value → Prop :=
  rtc (fun a b => b ∈ succs doc a).

(** The names counted when a node is entered: the keys of its [properties]
    object. *)
Definition prop_names (n : value) : list string :=
  match n with
  | VDict _ entries => map fst (properties_of entries)
  | _ => []
  end.

(** How often [name] occurs in a list of names. *)
Fixpoint occurrences (name : string) (l : list string) : nat :=
  match l with
  | [] => 0
  | s :: t => (if String.eqb s name then 1 else 0) + occurrences name t
  end.

(** How often [name] is counted over the nodes of [entered]. *)
Definition prop_total (name : string) (entered : list value) : nat :=
  foldr (fun m n => occurrences name (prop_names m) + n) 0 entered.

(** What the walk of one payload has entered: the containers reached from
    the payload, each once. *)
Definition entered_from (doc payload : value) (entered : list value) : Prop :=
  NoDup entered
  ∧ ∀ m, m ∈ entered ↔ is_container m = true ∧ reach doc payload m.

(** [c in s] *)
Fixpoint has_char (c : ascii) (s : string) : bool :=
  match s with
  | EmptyString => false
  | String c' t => Ascii.eqb c' c || has_char c t
  end.

(** How RFC 6901 writes a key as a pointer segment. *)
Fixpoint escape_token (s : string) : string :=
  match s with
  | EmptyString => EmptyString
  | String c t =>
      if Ascii.eqb c "~" then String "~" (String "0" (escape_token t))
      else if Ascii.eqb c "/" then String "~" (String "1" (escape_token t))
      else String c (escape_token t)
  end.

(** One step from a container to a value inside it: the key of an entry of
    an object, or the position of an item of a list. *)
Inductive step : Type :=
| Key (k : string)
| Index (i : nat).

(** The value a path of steps leads to. *)
Fixpoint follow (v : value) (path : list step) : option value :=
  match path with
  | [] => Some v
  | s :: rest =>
      match s, v with
      | Key k, VDict _ entries =>
          match get k entries with Some v' => follow v' rest | None => None end
      | Index i, VList _ items =>
          match items !! i with Some v' => follow v' rest | None => None end
      | _, _ => None
      end
  end.

(** How a step is written as a pointer segment: a key escaped as RFC 6901
    has it, a position in decimal. *)
Definition segment (s : step) : string :=
  match s with
  | Key k => escape_token k
  | Index i => pretty i
  end.

(** The pointer of a path: each segment after a slash. *)
Definition pointer_of (path : list step) : string :=
  foldr (fun s p => String "/" (segment s) +:+ p) "" path.

(** Every object of the document has its keys once, as a [dict] has. *)
Definition keys_unique (doc : value) : Prop :=
  ∀ oid entries, VDict oid entries ∈ nodes doc → NoDup entries.*1.

(** No list of the document has more positions than [int] converts. *)
Definition lists_indexable (doc : value) : Prop :=
  ∀ oid items, VList oid items ∈ nodes doc →
    (Z.of_nat (length items) ≤ 10 ^ Z.of_nat int_max_str_digits)%Z.

(** The positions of a path are short enough for [int]. *)
Definition convertible (path : list step) : Prop :=
  Forall (fun s => match s with
                   | Index i => String.length (pretty i) ≤ int_max_str_digits
                   | Key _ => True
                   end) path.

(** [ref] is a local reference, in the eyes of [walk]. *)
Definition is_local (ref : string) : bool := startswith "#" ref || startswith "/" ref.

(** The larger count first. *)
Definition by_count : relation (string * nat) := fun a b => b.2 ≤ a.2.

(** The items with the count [k]. *)
Definition with_count (k : nat) (items : Ordered.counter) : Ordered.counter :=
  List.filter (fun item => item.2 =? k) items.

(** *** Notions of the proofs *)

(** The pointer once a leading [#] is gone. *)
Definition strip_hash (pointer : string) : string :=
  if startswith "#" pointer then drop1 pointer else pointer.

(** The identities of the document not yet in the visited set. *)
Definition unvisited (doc : value) (st : state) : nat :=
  size ((list_to_set (oids doc) : gset nat) ∖ list_to_set (visited st)).

(** [extends doc starts extra st st']: from [st] to [st'] the walk has
    entered the containers [entered], latest first. Their identities were
    new and are now in the visited set, each once; each is inside the
    document and reached from one of [starts]; every container among
    [starts], and every container the walk calls itself on from an entered
    node, is in the visited set of [st']; and a name has been counted once
    for each of its occurrences in [extra] and among the [properties] keys of
    the entered nodes. *)
Definition extends (doc : value) (starts : list value) (extra : list string)
    (st st' : state) (entered : list value) : Prop :=
  visited st' = omap oid_of entered ++ visited st
  ∧ Forall (fun m => is_container m = true ∧ m ∈ nodes doc
                     ∧ ∃ s, s ∈ starts ∧ reach doc s m) entered
  ∧ NoDup (omap oid_of entered)
  ∧ (∀ o, o ∈ omap oid_of entered → o ∉ visited st)
  ∧ (∀ s o, s ∈ starts → oid_of s = Some o → o ∈ visited st')
  ∧ (∀ m k o, m ∈ entered → k ∈ succs doc m → oid_of k = Some o → o ∈ visited st')
  ∧ (∀ name, counts st' !!! name
             = counts st !!! name + occurrences name extra + prop_total name entered).

(** The three parts of the body of [walk] on an object, over the function
    [rec] the body calls itself through. *)
Definition ref_action (rec : value → action state) (doc : value)
    (entries : list (string * value)) : action state :=
  match get "$ref" entries with
  | Some (VStr ref) =>
      if startswith "#" ref || startswith "/" ref then
        try_pass
          (match json_pointer_get doc ref with
           | Ok target => rec target
           | Raise e => raise e
           end)
      else skip
  | _ => skip
  end.

Definition props_action (rec : value → action state)
    (entries : list (string * value)) : action state :=
  match get "properties" entries with
  | Some (VDict _ props) => for_each props (fun kv => seq (count kv.1) (rec kv.2))
  | _ => skip
  end.

Definition entry_action (rec : value → action state) (kv : string * value)
    : action state :=
  if String.eqb kv.1 "properties" then skip
  else if String.eqb kv.1 "patternProperties" then
    match kv.2 with
    | VDict _ subs => for_each subs (fun kv' => rec kv'.2)
    | _ => skip
    end
  else if str_in kv.1 schema_keys then rec kv.2
  else if is_container kv.2 then rec kv.2
  else skip.

Definition dict_body (rec : value → action state) (doc : value)
    (entries : list (string * value)) : action state :=
  seq (ref_action rec doc entries)
      (seq (props_action rec entries) (for_each entries (entry_action rec))).

(** From a state with fewer than [bound] identities left to visit, the
    action ends normally and extends the state. *)
Definition good (doc : value) (bound : nat) (a : action state)
    (starts : list value) (extra : list string) : Prop :=
  ∀ st, unvisited doc st < bound →
        ∃ st' entered, a st = Done st' ∧ extends doc starts extra st st' entered.

(** No exception leaves the action. *)
Definition never_raises {S : Type} (a : action S) : Prop :=
  ∀ st e st', a st ≠ Raised e st'.

(** [a'] does what [a] does wherever [a] does not run out of fuel. *)
Definition refines {S : Type} (a a' : action S) : Prop :=
  ∀ st, a st ≠ OutOfFuel → a' st = a st.

(** The entries with those under [key] taken out. *)
Fixpoint without_key (key : string) (kvs : list (string * value))
    : list (string * value) :=
  match kvs with
  | [] => []
  | (k, v) :: t => if String.eqb k key then without_key key t else (k, v) :: without_key key t
  end.

Fixpoint all_digits (s : string) : bool :=
  match s with
  | EmptyString => true
  | String c t => is_digit c && all_digits t
  end.

(** No name of the table has the count zero. *)
Definition positive (c : gmap string nat) : Prop := ∀ name, c !! name ≠ Some 0.

(** The state an action leaves, unless it runs out of fuel. *)
Definition final {S : Type} (o : outcome S) : option S :=
  match o with
  | Done st | Raised _ st => Some st
  | OutOfFuel => None
  end.

(** From [st] to [st'] nothing was taken from the visited set, no count was
    lowered, and no count of zero came to be. *)
Definition grown (st st' : state) : Prop :=
  (∀ o, o ∈ visited st → o ∈ visited st')
  ∧ (∀ name, counts st !!! name ≤ counts st' !!! name)
  ∧ (positive (counts st) → positive (counts st')).

Definition only_adds (a : action state) : Prop :=
  ∀ st st', final (a st) = Some st' → grown st st'.

(** The table of counts of a [Counter]. *)
Definition table (c : Ordered.counter) : gmap string nat := list_to_map c.

(** The two states hold the same visited set and the same counts, and the
    [Counter] holds each name once. *)
Definition same_state (st : state) (ost : Ordered.state) : Prop :=
  visited st = Ordered.visited ost
  ∧ counts st = table (Ordered.counts ost)
  ∧ NoDup (Ordered.counts ost).*1.

(** The table and its [Counter] hold the same counts, each name once. *)
Definition same_counts (c : gmap string nat) (oc : Ordered.counter) : Prop :=
  c = table oc ∧ NoDup oc.*1.

Definition same_outcome {S T : Type} (R : S → T → Prop) (o : outcome S) (o' : outcome T)
    : Prop :=
  match o, o' with
  | Done st, Done st' => R st st'
  | Raised e st, Raised e' st' => e = e' ∧ R st st'
  | OutOfFuel, OutOfFuel => True
  | _, _ => False
  end.

Definition simulates {S T : Type} (R : S → T → Prop) (a : action S) (b : action T) : Prop :=
  ∀ st st', R st st' → same_outcome R (a st) (b st').

(** *** Example documents *)

(** The document of the specification's example: a list of 10 and 20 under
    b under a. *)
Definition doc_a_b : value :=
  VDict 0 [("a", VDict 1 [("b", VList 2 [VInt 10; VInt 20])])].

(** Two links whose target schemas are objects of their own with the same
    content. *)
Definition two_links_top : list (string * value) :=
  [("definitions",
    VDict 1 [("a",
      VDict 2 [("links",
        VList 3 [ VDict 4 [("targetSchema",
                    VDict 5 [("properties", VDict 6 [("id", VDict 7 [])])])];
                  VDict 8 [("targetSchema",
                    VDict 9 [("properties", VDict 10 [("id", VDict 11 [])])])] ])])])].

Definition two_links_doc : value := VDict 0 two_links_top.

(** The two links of [two_links_doc], as text. *)
Definition two_links_json : ExtractDateFields.json :=
  let target :=
    ExtractDateFields.JDict
      [("properties",
        ExtractDateFields.JDict [("id", ExtractDateFields.JDict [])])] in
  ExtractDateFields.JDict
    [("definitions",
      ExtractDateFields.JDict
        [("a",
          ExtractDateFields.JDict
            [("links",
              ExtractDateFields.JList
                [ ExtractDateFields.JDict [("targetSchema", target)];
                  ExtractDateFields.JDict [("targetSchema", target)] ])])])].

(** Two payloads that refer to one definition with a [properties] object, the
    first of them twice. *)
Definition shared_ref_doc : value :=
  VDict 0 [("definitions",
    VDict 1 [("thing",
      VDict 2 [ ("properties", VDict 3 [("id", VDict 4 [])]);
                ("links",
                 VList 5 [ VDict 6 [("targetSchema",
                             VDict 7 [ ("a", VDict 8 [("$ref", VStr "#/definitions/thing")]);
                                       ("b", VDict 9 [("$ref", VStr "#/definitions/thing")]) ])];
                           VDict 10 [("targetSchema",
                             VDict 11 [("$ref", VStr "#/definitions/thing")])] ]) ])])].

(** A payload whose [self] entry refers, through [$ref], to the definition
    that holds the payload. *)
Definition self_ref_doc : value :=
  VDict 0 [("definitions",
    VDict 1 [("self",
      VDict 2 [("links",
        VList 3 [VDict 4 [("targetSchema",
          VDict 5 [ ("self", VDict 6 [("$ref", VStr "#/definitions/self")]);
                    ("properties", VDict 7 [("id", VDict 8 [])]) ])]])])])].

(** An object whose [$ref] finds nothing, beside a [properties] object. *)
Definition dangling_ref_entries : list (string * value) :=
  [ ("$ref", VStr "#/definitions/missing");
    ("properties", VDict 2 [("id", VDict 3 [])]) ].

(** The same object as the payload of a link. *)
Definition dangling_ref_doc : value :=
  VDict 0 [("definitions",
    VDict 4 [("a",
      VDict 5 [("links",
        VList 6 [VDict 7 [("targetSchema", VDict 1 dangling_ref_entries)]])])])].

(** An object whose keys need escaping, above a list. *)
Definition doc_escaped_keys : value :=
  VDict 0 [("a/b", VDict 1 [("m~n", VList 2 [VStr "x"; VStr "y"])])].

(** An object whose [$ref] is the address of another document, beside a
    [properties] object. *)
Definition remote_ref_entries : list (string * value) :=
  [ ("$ref", VStr "https://example.com/schema.json");
    ("properties", VDict 2 [("id", VDict 3 [])]) ].

End TopProperties.


(** * Properties of the date-field detector *)

Module DateFieldsProofs.
Import PyStr Re ExtractDateFields.

(** ** Reading an entry *)

Lemma with_key_get {A : Type} (key : string) (f : json → A) (d : A) kvs :
  with_key key f d kvs = match get key kvs with Some v => f v | None => d end.
Proof.
  induction kvs as [|[k v] t IH]; simpl; [done|].
  by destruct (String.eqb k key).
Qed.

Lemma get_elem_of key kvs v : get key kvs = Some v → (key, v) ∈ kvs.
Proof.
  induction kvs as [|[k w] t IH]; simpl; [done|].
  destruct (String.eqb k key) eqn:E.
  - apply String.eqb_eq in E as ->. intros [= ->]. left.
  - intros H. right. auto.
Qed.

Lemma existsb_elem_of {A : Type} (f : A → bool) (l : list A) :
  existsb f l = true ↔ ∃ x, x ∈ l ∧ f x = true.
Proof.
  rewrite existsb_exists. by setoid_rewrite list_elem_of_In.
Qed.

(** ** [has_date_indicator], one check at a time *)

Lemma has_date_indicator_dict kvs :
  has_date_indicator (JDict kvs) =
    format_hit kvs || example_hit kvs
    || (list_hit "anyOf" kvs || list_hit "oneOf" kvs || list_hit "allOf" kvs)
    || items_hit kvs.
Proof.
  unfold format_hit, example_hit, list_hit, items_hit. simpl.
  rewrite !with_key_get.
  destruct (match get "format" kvs with Some (JStr _) => _ | _ => _ end); [done|].
  destruct (match get "example" kvs with Some (JStr _) => _ | _ => _ end); [done|].
  simpl. rewrite orb_false_r, orb_assoc.
  destruct (_ || _ || _); [done|]. simpl.
  destruct (get "items" kvs) as [items|]; [|done].
  destruct (has_date_indicator items) eqn:E; [|by rewrite andb_false_r].
  destruct items; try discriminate E. rewrite andb_true_r. simpl.
  destruct kvs0; [discriminate E|done].
Qed.

(** ** The ISO-date test *)

(** On the strings the pattern of the specification matches, the test of
    the source accepts the ten-character ones, which are the bare dates, and
    no other. *)
Lemma looks_like_iso_date_on_spec_matches s :
  fully_matches_spec s = true →
  looks_like_iso_date s = (String.length s =? 10)%nat.
Proof.
  unfold fully_matches_spec, looks_like_iso_date, fullmatch, matches,
    iso_date_pattern_spec, ISO_DATE_RE.
  do 10 (destruct s as [|? s];
         [intros H; cbn -[is_digit Ascii.eqb existsb] in H;
          by rewrite ?andb_false_r in H|]).
  cbn -[is_digit Ascii.eqb Nat.eqb existsb]. intros H.
  repeat match type of H with
         | (?b && _) = true => destruct b; [rewrite andb_true_l in H|discriminate H]
         end.
  rewrite !andb_true_l.
  destruct s as [|c r]; [reflexivity|].
  cbn [one_char] in *. rewrite orb_false_r in H.
  destruct (Ascii.eqb_spec "T" c) as [<-|]; [|discriminate H].
  clear H. cbn -[is_digit]. by destruct r.
Qed.

(** C1. The specification asks [looks_like_iso_date] to accept exactly the
    strings matching the one-line pattern, among them a date followed by a
    time such as 2021-01-05T10:00:00Z or 2021-01-05T10:00. The pattern the
    source compiles carries the line break and the indentation of its
    wrapped literal in front of the time part, so both strings are
    rejected, although the pattern of the specification matches them, and so
    is every string with a time part that the specification accepts; the
    date-only examples behave as specified. *)
Theorem looks_like_iso_date_rejects_time_part :
  looks_like_iso_date "2021-01-05T10:00:00Z" = false
  ∧ looks_like_iso_date "2021-01-05T10:00" = false
  ∧ fully_matches_spec "2021-01-05T10:00:00Z" = true
  ∧ fully_matches_spec "2021-01-05T10:00" = true
  ∧ (∀ s, fully_matches_spec s = true → String.length s ≠ 10 →
          looks_like_iso_date s = false)
  ∧ looks_like_iso_date "2021-01-05" = true
  ∧ looks_like_iso_date "2021-1-05" = false
  ∧ looks_like_iso_date "hello" = false.
Proof.
  repeat apply conj; [reflexivity..| |reflexivity|reflexivity|reflexivity].
  intros s Hs Hlen. rewrite looks_like_iso_date_on_spec_matches by done.
  by apply Nat.eqb_neq.
Qed.

(** ** The date indicator *)

(** C6. [has_date_indicator] is false on every node that is no object; on an
    object it is true exactly when the format is date-time or date, or the
    example is a string that [looks_like_iso_date] accepts, or an element of
    an [anyOf], [oneOf] or [allOf] list has the indicator, or the value
    under [items] has it. *)
Theorem has_date_indicator_spec :
  (∀ node,
     has_date_indicator node = true ↔
     ∃ kvs, node = JDict kvs ∧
       ((∃ fmt, get "format" kvs = Some (JStr fmt) ∧ (fmt = "date-time" ∨ fmt = "date"))
        ∨ (∃ example, get "example" kvs = Some (JStr example)
                      ∧ looks_like_iso_date example = true)
        ∨ (∃ key xs x, key ∈ combinator_keys ∧ get key kvs = Some (JList xs)
                       ∧ x ∈ xs ∧ has_date_indicator x = true)
        ∨ (∃ items, get "items" kvs = Some items ∧ has_date_indicator items = true)))
  ∧ (∀ node, (∀ kvs, node ≠ JDict kvs) → has_date_indicator node = false)
  ∧ has_date_indicator format_is_date_time = true
  ∧ has_date_indicator format_is_uri = false
  ∧ has_date_indicator any_of_date_or_null = true.
Proof.
  split; [|split; [|by vm_compute]].
  - intros node. split.
    + destruct node as [| | | | | |kvs]; try discriminate. intros H.
      exists kvs. split; [done|]. rewrite has_date_indicator_dict in H.
      rewrite !orb_true_iff in H. destruct H as [[[H|H]|[[H|H]|H]]|H].
      * left. unfold format_hit in H.
        destruct (get "format" kvs) as [[]|]; try discriminate.
        eexists. split; [done|].
        apply orb_true_iff in H as [H|H]; apply String.eqb_eq in H; auto.
      * right; left. unfold example_hit in H.
        destruct (get "example" kvs) as [[]|]; try discriminate. eauto.
      * right; right; left. unfold list_hit in H.
        destruct (get "anyOf" kvs) as [[]|] eqn:E; try discriminate.
        apply existsb_elem_of in H as (x & ? & ?).
        exists "anyOf", xs, x. unfold combinator_keys. set_solver.
      * right; right; left. unfold list_hit in H.
        destruct (get "oneOf" kvs) as [[]|] eqn:E; try discriminate.
        apply existsb_elem_of in H as (x & ? & ?).
        exists "oneOf", xs, x. unfold combinator_keys. set_solver.
      * right; right; left. unfold list_hit in H.
        destruct (get "allOf" kvs) as [[]|] eqn:E; try discriminate.
        apply existsb_elem_of in H as (x & ? & ?).
        exists "allOf", xs, x. unfold combinator_keys. set_solver.
      * right; right; right. unfold items_hit in H.
        destruct (get "items" kvs); [eauto|done].
    + intros (kvs & -> & H). rewrite has_date_indicator_dict, !orb_true_iff.
      destruct H as [(fmt & E & H)|[(ex & E & H)|[(key & xs & x & Hk & E & Hx & H)|(items & E & H)]]].
      * left; left; left. unfold format_hit. rewrite E.
        apply orb_true_iff. destruct H as [-> | ->]; [left|right]; done.
      * left; left; right. unfold example_hit. by rewrite E.
      * left; right.
        assert (list_hit key kvs = true) as Hhit.
        { unfold list_hit. rewrite E. apply existsb_elem_of. eauto. }
        unfold combinator_keys in Hk.
        rewrite !elem_of_cons, elem_of_nil in Hk.
        destruct Hk as [->|[->|[->|[]]]]; auto.
      * right. unfold items_hit. by rewrite E.
  - intros node Hnode. destruct node; try done. by destruct (Hnode kvs).
Qed.

(** C7, as stated, fails: here the format and example checks find nothing,
    the first combinator key that holds a list ([anyOf]) has no element with
    the indicator and [items] is absent, so a check that stops at the first
    list answers false; the source goes on to [oneOf] and answers true. *)
Lemma first_list_does_not_decide :
  format_hit null_then_date = false
  ∧ example_hit null_then_date = false
  ∧ list_hit "anyOf" null_then_date = false
  ∧ items_hit null_then_date = false
  ∧ (first_list_wins has_date_indicator null_then_date || items_hit null_then_date) = false
  ∧ has_date_indicator (JDict null_then_date) = true.
Proof. by vm_compute. Qed.

(** C7, amended. For an object with no format or example indicator, the
    three combinator keys are read in the order [anyOf], [oneOf], [allOf],
    and each one that holds a list is consulted: the answer is true as soon
    as one of these lists has an element with the indicator, and it is the
    answer for [items] when none has. *)
Theorem has_date_indicator_every_combinator kvs :
  format_hit kvs = false → example_hit kvs = false →
  has_date_indicator (JDict kvs) =
    if list_hit "anyOf" kvs then true
    else if list_hit "oneOf" kvs then true
    else if list_hit "allOf" kvs then true
    else items_hit kvs.
Proof.
  intros Hf He. rewrite has_date_indicator_dict, Hf, He. simpl.
  by destruct (list_hit "anyOf" kvs), (list_hit "oneOf" kvs), (list_hit "allOf" kvs).
Qed.

Lemma has_date_indicator_every_combinator_witness :
  has_date_indicator (JDict null_then_date) =
    if list_hit "anyOf" null_then_date then true
    else if list_hit "oneOf" null_then_date then true
    else if list_hit "allOf" null_then_date then true
    else items_hit null_then_date.
Proof.
  apply (has_date_indicator_every_combinator null_then_date); reflexivity.
Defined.

(** ** [collect] *)

Lemma size_item xs x : x ∈ xs → size x < size (JList xs).
Proof.
  simpl. induction 1; simpl; lia.
Qed.

Lemma size_entry kvs k v : (k, v) ∈ kvs → size v < size (JDict kvs).
Proof.
  simpl. intros H. remember (k, v) as kv eqn:E.
  induction H as [kv' ?|kv' ? ? ? IH]; simpl.
  - subst kv'. simpl. lia.
  - specialize (IH E). lia.
Qed.

Lemma size_get kvs key v : get key kvs = Some v → size v < size (JDict kvs).
Proof. intros H. eapply size_entry, get_elem_of, H. Qed.

Lemma collect_dict kvs out :
  collect (JDict kvs) out =
    foldl (pass_step kvs)
          (named_step "definitions" kvs (named_step "properties" kvs out))
          passthrough_keys.
Proof. reflexivity. Qed.

Lemma named_step_get m kvs out :
  named_step m kvs out =
    match get m kvs with
    | Some (JDict entries) => add_named entries out
    | _ => out
    end.
Proof.
  unfold named_step. rewrite with_key_get. by destruct (get m kvs) as [[]|].
Qed.

Lemma pass_step_get kvs out key :
  pass_step kvs out key =
    match get key kvs with
    | Some JNull | None => out
    | Some val => collect val out
    end.
Proof.
  unfold pass_step. rewrite with_key_get. by destruct (get key kvs) as [[]|].
Qed.

Lemma exists_elem_of_cons {A : Type} (a : A) (l : list A) (Q : A → Prop) :
  (∃ y, y ∈ a :: l ∧ Q y) ↔ Q a ∨ ∃ y, y ∈ l ∧ Q y.
Proof.
  split.
  - intros (y & [->|Hy]%elem_of_cons & HQ); [by left|right; eauto].
  - intros [HQ|(y & Hy & HQ)];
      [exists a; split; [left|done]|exists y; split; [by right|done]].
Qed.

Lemma exists_elem_of_nil {A : Type} (Q : A → Prop) : (∃ y, y ∈ [] ∧ Q y) ↔ False.
Proof.
  split; [|done]. intros (y & Hy & _). by apply elem_of_nil in Hy.
Qed.

Lemma add_named_spec entries :
  (∀ kv, kv ∈ entries → collect_ok kv.2) →
  ∀ out x,
    x ∈ add_named entries out ↔
    x ∈ out ∨ ∃ kv, kv ∈ entries
                    ∧ ((has_date_indicator kv.2 = true ∧ x = lower kv.1)
                       ∨ date_field kv.2 x).
Proof.
  unfold add_named, collect_ok.
  induction entries as [|[k v] t IH]; intros Hok out x; simpl.
  - rewrite exists_elem_of_nil. tauto.
  - rewrite IH by (intros; eapply Hok; by right).
    rewrite (Hok (k, v)) by left. rewrite exists_elem_of_cons. simpl.
    destruct (has_date_indicator v) eqn:E.
    + rewrite elem_of_union, elem_of_singleton. tauto.
    + intuition congruence.
Qed.

Lemma pass_step_spec kvs key out x :
  (∀ val, get key kvs = Some val → collect_ok val) →
  x ∈ pass_step kvs out key ↔
  x ∈ out ∨ ∃ val, get key kvs = Some val ∧ val ≠ JNull ∧ date_field val x.
Proof.
  intros Hok. rewrite pass_step_get.
  destruct (get key kvs) as [val|] eqn:E.
  - specialize (Hok val eq_refl out x).
    assert ((∃ val', Some val = Some val' ∧ val' ≠ JNull ∧ date_field val' x)
            ↔ val ≠ JNull ∧ date_field val x) as ->.
    { split; [by intros (? & [= <-] & ?)|by exists val]. }
    destruct val; rewrite Hok; intuition congruence.
  - split; [auto|]. by intros [?|(? & ? & _)].
Qed.

Lemma pass_steps_spec kvs keys :
  (∀ key val, key ∈ keys → get key kvs = Some val → collect_ok val) →
  ∀ out x,
    x ∈ foldl (pass_step kvs) out keys ↔
    x ∈ out ∨ ∃ key, key ∈ keys
                     ∧ ∃ val, get key kvs = Some val ∧ val ≠ JNull ∧ date_field val x.
Proof.
  induction keys as [|key t IH]; intros Hok out x; simpl.
  - rewrite exists_elem_of_nil. tauto.
  - rewrite IH by (intros; eapply Hok; [by right|done]).
    rewrite pass_step_spec by (intros; eapply Hok; [by left|done]).
    rewrite exists_elem_of_cons. tauto.
Qed.

Lemma collect_items_spec xs :
  (∀ y, y ∈ xs → collect_ok y) →
  ∀ out x,
    x ∈ foldl (fun out y => collect y out) out xs ↔
    x ∈ out ∨ ∃ y, y ∈ xs ∧ date_field y x.
Proof.
  unfold collect_ok.
  induction xs as [|y t IH]; intros Hok out x; simpl.
  - rewrite exists_elem_of_nil. tauto.
  - rewrite IH by (intros; eapply Hok; by right).
    rewrite (Hok y) by left. rewrite exists_elem_of_cons. tauto.
Qed.

Lemma date_field_unfold root x :
  date_field root x ↔
  (∃ kvs m entries k v,
     root = JDict kvs ∧ m ∈ name_maps ∧ get m kvs = Some (JDict entries)
     ∧ (k, v) ∈ entries ∧ has_date_indicator v = true ∧ x = lower k)
  ∨ ∃ c, child root c ∧ date_field c x.
Proof.
  unfold date_field. split.
  - intros (kvs & m & entries & k & v & Hr & H).
    apply rtc_inv in Hr as [->|(c & Hc & Hr)].
    + left. by exists kvs, m, entries, k, v.
    + right. exists c. split; [done|]. by exists kvs, m, entries, k, v.
  - intros [(kvs & m & entries & k & v & -> & H)|(c & Hc & kvs & m & entries & k & v & Hr & H)].
    + by exists kvs, m, entries, k, v.
    + exists kvs, m, entries, k, v. split; [|done]. by eapply rtc_l.
Qed.

Lemma elem_of_name_maps m : m ∈ name_maps ↔ m = "properties" ∨ m = "definitions".
Proof.
  unfold name_maps. rewrite !elem_of_cons, elem_of_nil. tauto.
Qed.

Lemma child_dict_inv kvs c :
  child (JDict kvs) c ↔
  (∃ m entries k, m ∈ name_maps ∧ get m kvs = Some (JDict entries) ∧ (k, c) ∈ entries)
  ∨ (∃ key, key ∈ passthrough_keys ∧ get key kvs = Some c ∧ c ≠ JNull).
Proof.
  split.
  - inversion 1; subst; [left|right]; eauto 10.
  - intros [(m & entries & k & ? & ? & ?)|(key & ? & ? & ?)].
    + by eapply child_named.
    + by eapply child_passthrough.
Qed.

Lemma child_list_inv xs c : child (JList xs) c ↔ c ∈ xs.
Proof.
  split; [by inversion 1|apply child_item].
Qed.

Lemma date_field_scalar node x :
  (∀ kvs, node ≠ JDict kvs) → (∀ xs, node ≠ JList xs) → ¬ date_field node x.
Proof.
  intros Hd Hl. rewrite date_field_unfold.
  intros [(kvs & ? & ? & ? & ? & -> & _)|(c & Hc & _)]; [by eapply Hd|].
  inversion Hc; subst; [by eapply Hd|by eapply Hd|by eapply Hl].
Qed.

Lemma collect_spec node : collect_ok node.
Proof.
  induction node as [node IH] using (induction_ltof1 _ size). unfold ltof in IH.
  destruct node as [| | | | |xs|kvs];
    try (intros out x; simpl; split; [auto|];
         intros [?|H]; [done|]; by apply date_field_scalar in H).
  - intros out x. simpl.
    rewrite collect_items_spec by (intros; by apply IH, size_item).
    rewrite (date_field_unfold (JList xs)). setoid_rewrite child_list_inv.
    split; [|by intros [?|[(? & ? & ? & ? & ? & [=] & _)|?]]; auto].
    intros [?|?]; auto.
  - intros out x. rewrite collect_dict.
    rewrite pass_steps_spec by (intros; eapply IH, size_get; eauto).
    assert (∀ m out,
              x ∈ named_step m kvs out ↔
              x ∈ out ∨ ∃ entries, get m kvs = Some (JDict entries) ∧
                ∃ kv, kv ∈ entries
                  ∧ ((has_date_indicator kv.2 = true ∧ x = lower kv.1)
                     ∨ date_field kv.2 x))
      as Hnamed.
    { intros m out'. rewrite named_step_get.
      destruct (get m kvs) as [mv|] eqn:Em;
        [|split; [auto|by intros [?|(? & ? & _)]]].
      destruct mv as [| | | | | |entries];
        try (split; [auto|by intros [?|(? & ? & _)]]).
      rewrite add_named_spec.
      - split; [intros [?|?]; eauto|].
        by intros [?|(? & [= <-] & ?)]; [left|right].
      - intros [k v] Hkv. apply IH. simpl.
        etrans; [by eapply size_entry|by eapply size_get]. }
    rewrite !Hnamed. clear Hnamed IH.
    rewrite (date_field_unfold (JDict kvs)). setoid_rewrite child_dict_inv.
    assert ("properties" ∈ name_maps) as Hp by (apply elem_of_name_maps; auto).
    assert ("definitions" ∈ name_maps) as Hd' by (apply elem_of_name_maps; auto).
    split.
    + intros [[[?|(entries & Hm & [k v] & Hkv & H)]|(entries & Hm & [k v] & Hkv & H)]
             |(key & Hkey & val & Hval & Hnn & H)]; [by left| | |]; right.
      * destruct H as [[Hd ->]|H].
        -- left. exists kvs, "properties", entries, k, v. auto 10.
        -- right. exists v. split; [|done]. left.
           exists "properties", entries, k. auto.
      * destruct H as [[Hd ->]|H].
        -- left. exists kvs, "definitions", entries, k, v. auto 10.
        -- right. exists v. split; [|done]. left.
           exists "definitions", entries, k. auto.
      * right. exists val. split; [|done]. right. by exists key.
    + intros [?|[(kvs' & m & entries & k & v & [= <-] & Hm & He & Hkv & Hd & ->)
                |(c & [(m & entries & k & Hm & He & Hkv)|(key & Hkey & Hval & Hnn)] & H)]];
        [by left; left; left| | |].
      * apply elem_of_name_maps in Hm as [->| ->].
        -- left; left; right. exists entries. split; [done|].
           exists (k, v). auto.
        -- left; right. exists entries. split; [done|]. exists (k, v). auto.
      * apply elem_of_name_maps in Hm as [->| ->].
        -- left; left; right. exists entries. split; [done|].
           exists (k, c). auto.
        -- left; right. exists entries. split; [done|]. exists (k, c). auto.
      * right. exists key. split; [done|]. by exists c.
Qed.

(** ** The order of strings, and [sorted] *)

Lemma compare_not_gt_trans s1 s2 s3 :
  String.compare s1 s2 ≠ Gt → String.compare s2 s3 ≠ Gt → String.compare s1 s3 ≠ Gt.
Proof.
  revert s2 s3. induction s1 as [|a s1 IH]; intros [|b s2] [|c s3]; simpl; try done.
  unfold Ascii.compare.
  destruct (N.compare_spec (N_of_ascii a) (N_of_ascii b)) as [Hab|Hab|Hab];
    destruct (N.compare_spec (N_of_ascii b) (N_of_ascii c)) as [Hbc|Hbc|Hbc];
    destruct (N.compare_spec (N_of_ascii a) (N_of_ascii c)) as [Hac|Hac|Hac];
    try lia; try done; apply IH.
Qed.

Lemma str_le_compare s1 s2 : str_le s1 s2 ↔ String.compare s1 s2 ≠ Gt.
Proof.
  unfold str_le, String.leb. by destruct (String.compare s1 s2).
Qed.

#[export] Instance str_le_trans : Transitive str_le.
Proof.
  intros s1 s2 s3. rewrite !str_le_compare. apply compare_not_gt_trans.
Qed.

#[export] Instance str_le_total : Total str_le.
Proof. intros s1 s2. apply String.leb_total. Qed.

#[export] Instance str_le_antisymm : AntiSymm (=) str_le.
Proof. intros s1 s2. apply String.leb_antisym. Qed.

Lemma sorted_perm xs : sorted xs ≡ₚ xs.
Proof. apply merge_sort_Permutation. Qed.

Lemma sorted_sorted xs : StronglySorted str_le (sorted xs).
Proof. apply StronglySorted_merge_sort; apply _. Qed.

(** The result of [sorted] depends on the elements only, not on the order
    they come in. *)
Lemma sorted_unique xs ys : xs ≡ₚ ys → sorted xs = sorted ys.
Proof.
  intros H. apply (StronglySorted_unique str_le); try apply sorted_sorted.
  by rewrite !sorted_perm.
Qed.

Lemma lower_char_idemp c : lower_char (lower_char c) = lower_char c.
Proof. destruct c as [[] [] [] [] [] [] [] []]; reflexivity. Qed.

Lemma lower_idemp s : lower (lower s) = lower s.
Proof.
  induction s as [|c s IH]; simpl; [done|]. by rewrite lower_char_idemp, IH.
Qed.

Lemma date_field_lower root x : date_field root x → lower x = x.
Proof.
  intros (? & ? & ? & k & ? & _ & _ & _ & _ & _ & ->). apply lower_idemp.
Qed.

(** ** The detector as a whole *)

Lemma enumerates_elements : enumerates elements.
Proof. by intros X. Qed.

Lemma enumerates_reverse : enumerates (fun X => reverse (elements X)).
Proof. intros X. apply reverse_Permutation. Qed.

Lemma elem_of_detect set_iter data x :
  enumerates set_iter → x ∈ detect set_iter data ↔ date_field data x.
Proof.
  intros Hit. unfold detect. rewrite sorted_perm, (Hit _), elem_of_elements.
  rewrite (collect_spec data ∅ x). set_solver.
Qed.

(** C8. [collect] adds to the output set exactly the lowercased keys of the
    entries, in the [properties] and [definitions] maps of the nodes its
    descent comes to, whose values have the date indicator; the descent
    enters every value of these maps and passes through [items], [anyOf],
    [oneOf], [allOf], [not], [additionalProperties], [patternProperties],
    [targetSchema] and [schema]. The detector's output is this set sorted in
    ascending order, without repetition, every element lowercase. On the
    example with [CreatedAt] and [name] it is exactly [createdat]. *)
Theorem collect_and_detect_spec set_iter :
  enumerates set_iter →
  (∀ node out x, x ∈ collect node out ↔ x ∈ out ∨ date_field node x)
  ∧ (∀ data,
       (∀ x, x ∈ detect set_iter data ↔ date_field data x)
       ∧ StronglySorted str_le (detect set_iter data)
       ∧ NoDup (detect set_iter data)
       ∧ Forall (fun x => lower x = x) (detect set_iter data))
  ∧ collect created_at_example ∅ = {[ "createdat" ]}
  ∧ detect set_iter created_at_example = ["createdat"].
Proof.
  intros Hit. split; [apply collect_spec|]. split; [|split].
  - intros data. split; [|split; [|split]].
    + intros x. by apply elem_of_detect.
    + apply sorted_sorted.
    + unfold detect. rewrite sorted_perm, (Hit _). apply NoDup_elements.
    + apply Forall_forall. intros x Hx%elem_of_detect; [|done].
      by eapply date_field_lower.
  - vm_compute. reflexivity.
  - unfold detect.
    assert (collect created_at_example ∅ = {[ "createdat" ]}) as ->
      by (vm_compute; reflexivity).
    assert (set_iter {[ "createdat" ]} = ["createdat"]) as ->; [|done].
    apply Permutation_singleton_r. by rewrite (Hit _), elements_singleton.
Qed.

Lemma collect_and_detect_spec_witness :
  enumerates elements ∧ detect elements created_at_example = ["createdat"].
Proof.
  split; [apply enumerates_elements|].
  apply (collect_and_detect_spec elements enumerates_elements).
Defined.

(** C9. The detector is deterministic: whatever order the set of found
    names is iterated in, a run on a given document leaves the same sidecar
    content, the same standard output and the same exit status, so two runs
    on an unchanged document agree byte for byte. *)
Theorem main_deterministic set_iter1 set_iter2 data :
  enumerates set_iter1 → enumerates set_iter2 →
  main set_iter1 data = main set_iter2 data.
Proof.
  intros H1 H2. unfold main, detect.
  by rewrite (sorted_unique (set_iter1 _) (set_iter2 _)) by by rewrite (H1 _), (H2 _).
Qed.

Lemma main_deterministic_witness :
  main elements created_at_example
  = main (fun X => reverse (elements X)) created_at_example.
Proof.
  apply (main_deterministic elements (fun X => reverse (elements X)) created_at_example
           enumerates_elements enumerates_reverse).
Defined.

(** ** Strings *)

Lemma append_cons c s t : String c s +:+ t = String c (s +:+ t).
Proof. done. Qed.

Lemma append_empty_l t : "" +:+ t = t.
Proof. done. Qed.

Lemma append_empty_r (s : string) : s +:+ "" = s.
Proof.
  induction s as [|c s IH]; [done|].
  change (String c (s +:+ "") = String c s). by rewrite IH.
Qed.

Lemma length_append a b : String.length (a +:+ b) = String.length a + String.length b.
Proof.
  induction a as [|c a IH]; [done|]. rewrite append_cons. simpl. by rewrite IH.
Qed.

Lemma append_assoc a b c : (a +:+ b) +:+ c = a +:+ (b +:+ c).
Proof.
  induction a as [|x a IH]; [done|]. rewrite !append_cons. by rewrite IH.
Qed.

(** ** The ISO-date test, as far as it goes *)







(** ** [collect] only adds *)

Lemma elem_of_collect node out x :
  x ∈ collect node out ↔ x ∈ out ∨ date_field node x.
Proof. apply collect_spec. Qed.

(** X2. [collect] only adds names, and the names it adds for a node do not
    depend on the set it is given: the result is the union of that set and
    of what the node yields on the empty set. So two calls may be swapped, a
    call made twice adds nothing the second time, and a list taken in two
    parts yields what the whole list yields. *)
Theorem collect_adds_the_same_to_any_set :
  (∀ node out, collect node out = out ∪ collect node ∅)
  ∧ (∀ node node' out,
       collect node' (collect node out) = collect node (collect node' out))
  ∧ (∀ node out, collect node (collect node out) = collect node out)
  ∧ (∀ xs ys out,
       collect (JList (xs ++ ys)) out = collect (JList ys) (collect (JList xs) out)).
Proof.
  repeat apply conj.
  - intros node out. apply set_eq. intros x.
    rewrite elem_of_union, !elem_of_collect. set_solver.
  - intros node node' out. apply set_eq. intros x.
    rewrite !elem_of_collect. tauto.
  - intros node out. apply set_eq. intros x.
    rewrite !elem_of_collect. tauto.
  - intros xs ys out. simpl. by rewrite foldl_app.
Qed.

(** ** What is written *)

Lemma unescape_escape_char c u : unescape_char (escape_char c +:+ u) = Some (c, u).
Proof. by destruct c as [[] [] [] [] [] [] [] []]. Qed.

Lemma escape_inj s s' u v :
  escape s +:+ String DQUOTE u = escape s' +:+ String DQUOTE v → s = s' ∧ u = v.
Proof.
  revert s'. induction s as [|c s IH]; intros [|c' s']; cbn [escape].
  - rewrite !append_empty_l. by intros [= ->].
  - rewrite append_empty_l, append_assoc. intros H.
    apply (f_equal unescape_char) in H. by rewrite unescape_escape_char in H.
  - rewrite append_empty_l, append_assoc. intros H.
    apply (f_equal unescape_char) in H. by rewrite unescape_escape_char in H.
  - rewrite !append_assoc. intros H.
    apply (f_equal unescape_char) in H. rewrite !unescape_escape_char in H.
    injection H as -> H. by destruct (IH _ H) as [-> ->].
Qed.

Lemma dumps_str_inj x y u v : dumps_str x +:+ u = dumps_str y +:+ v → x = y ∧ u = v.
Proof.
  unfold dumps_str. rewrite !append_cons, !append_assoc, !append_cons, !append_empty_l.
  intros H. apply (f_equal drop1) in H. cbn [drop1] in H. by apply escape_inj.
Qed.

Lemma dumps_rest_nil : dumps_rest [] = String LF "]".
Proof. done. Qed.

Lemma dumps_rest_cons x xs :
  dumps_rest (x :: xs) = String "," (String LF (String " " (String " " (dumps_str x +:+ dumps_rest xs)))).
Proof.
  unfold dumps_rest. cbn [foldr]. by rewrite !append_assoc.
Qed.

Lemma dumps_rest_inj xs ys : dumps_rest xs = dumps_rest ys → xs = ys.
Proof.
  revert ys. induction xs as [|x xs IH]; intros [|y ys];
    rewrite ?dumps_rest_nil, ?dumps_rest_cons; try done.
  intros H. do 4 (apply (f_equal drop1) in H; cbn [drop1] in H).
  apply dumps_str_inj in H as [-> H]. f_equal. by apply IH.
Qed.

Lemma dumps_indent2_cons x xs :
  dumps_indent2 (x :: xs)
  = String "[" (String LF (String " " (String " " (dumps_str x +:+ dumps_rest xs)))).
Proof. done. Qed.

Lemma dumps_indent2_inj xs ys : dumps_indent2 xs = dumps_indent2 ys → xs = ys.
Proof.
  destruct xs as [|x xs], ys as [|y ys]; try done.
  rewrite !dumps_indent2_cons.
  intros H. do 4 (apply (f_equal drop1) in H; cbn [drop1] in H).
  apply dumps_str_inj in H as [-> H]. f_equal. by apply dumps_rest_inj.
Qed.

(** X3. Two lists of names that [json.dumps] writes as the same text are the
    same list. So two runs whose result files hold the same text, or that
    print the same text, have detected the same names in the same order. *)
Theorem written_text_determines_the_names :
  (∀ xs ys, dumps_indent2 xs = dumps_indent2 ys → xs = ys)
  ∧ (∀ set_iter set_iter' data data',
       sidecar_content (main set_iter data) = sidecar_content (main set_iter' data')
       ∨ stdout (main set_iter data) = stdout (main set_iter' data') →
       detect set_iter data = detect set_iter' data').
Proof.
  split; [apply dumps_indent2_inj|].
  intros set_iter set_iter' data data' [H|H]; simpl in H.
  - by apply dumps_indent2_inj.
  - apply dumps_indent2_inj.
    revert H. generalize (dumps_indent2 (detect set_iter data)).
    generalize (dumps_indent2 (detect set_iter' data')).
    intros b a. revert b. induction a as [|c a IH]; intros [|d b]; try done.
    + rewrite append_cons, append_empty_l. intros [= _ H]. by destruct b.
    + rewrite append_cons, append_empty_l. intros [= _ H]. by destruct a.
    + rewrite !append_cons. intros [= -> H]. f_equal. by apply IH.
Qed.

(** ** Where the result is written *)

Section paths.
Import PosixPath.

Lemma rfind_bounds sep s : (-1 ≤ rfind sep s < Z.of_nat (String.length s))%Z.
Proof.
  induction s as [|c t IH]; simpl; [lia|].
  destruct (Z.leb_spec 0 (rfind sep t)); [lia|].
  destruct (Ascii.eqb c sep); lia.
Qed.

Lemma rfind_app_none sep a b :
  rfind sep b = (-1)%Z → rfind sep (a +:+ b) = rfind sep a.
Proof.
  intros Hb. induction a as [|c a IH]; [done|].
  rewrite append_cons. simpl. by rewrite IH.
Qed.

Lemma rfind_app_sep sep a b :
  rfind sep b = (-1)%Z → rfind sep (a +:+ String sep b) = Z.of_nat (String.length a).
Proof.
  intros Hb. induction a as [|c a IH].
  - rewrite append_empty_l. simpl. by rewrite Hb, Ascii.eqb_refl.
  - rewrite append_cons. simpl. rewrite IH.
    destruct (Z.leb_spec 0 (Z.of_nat (String.length a))); lia.
Qed.

Lemma substring_whole_prefix a b : substring 0 (String.length a) (a +:+ b) = a.
Proof.
  induction a as [|c a IH]; [by destruct b|].
  rewrite append_cons. simpl. by rewrite IH.
Qed.

Lemma times_length sep n : String.length (times sep n) = n.
Proof. induction n as [|n IH]; simpl; congruence. Qed.

Lemma rfind_times sep n : rfind sep (times sep n) = (Z.of_nat n - 1)%Z.
Proof.
  induction n as [|n IH]; [done|]. simpl. rewrite IH, Ascii.eqb_refl.
  destruct (Z.leb_spec 0 (Z.of_nat n - 1)); lia.
Qed.

Lemma endswith_times sep n : n ≠ 0 → endswith sep (times sep n) = true.
Proof.
  induction n as [|n IH]; [done|]. intros _. simpl.
  destruct n as [|n]; [apply Ascii.eqb_refl|]. by apply IH.
Qed.

Lemma rstrip_char_empty sep s :
  rstrip_char sep s = "" → s = times sep (String.length s).
Proof.
  induction s as [|c s IH]; simpl; [done|].
  destruct (rstrip_char sep s) eqn:E; [|done].
  destruct (Ascii.eqb_spec c sep) as [->|]; [|done]. intros _. by rewrite <- IH.
Qed.

Lemma rstrip_char_ends sep s :
  rstrip_char sep s ≠ "" → endswith sep (rstrip_char sep s) = false.
Proof.
  induction s as [|c s IH]; simpl; [done|].
  destruct (rstrip_char sep s) as [|d r] eqn:E.
  - destruct (Ascii.eqb_spec c sep) as [->|Hne]; [done|]. intros _. simpl.
    by apply Ascii.eqb_neq.
  - intros _. change (endswith sep (String d r) = false). by apply IH.
Qed.

Lemma rstrip_char_snoc sep s :
  s ≠ "" → endswith sep s = false → rstrip_char sep (s +:+ String sep "") = s.
Proof.
  induction s as [|c s IH]; [done|]. intros _ Hend.
  rewrite append_cons. simpl. destruct s as [|d s].
  - rewrite append_empty_l. simpl. rewrite Ascii.eqb_refl. simpl in Hend.
    by rewrite Hend.
  - rewrite IH; [done|done|]. exact Hend.
Qed.

Lemma times_prefix sep a b n : a +:+ b = times sep n → a = times sep (String.length a).
Proof.
  revert n. induction a as [|c a IH]; intros n; [done|].
  rewrite append_cons. destruct n as [|n]; [done|].
  cbn [times String.length]. intros [= -> H]. f_equal. by eapply IH.
Qed.

Lemma not_times_snoc sep s :
  s ≠ "" → endswith sep s = false →
  s +:+ String sep "" ≠ times sep (String.length (s +:+ String sep "")).
Proof.
  intros Hne Hend H. apply times_prefix in H.
  rewrite H, endswith_times in Hend; [done|]. by destruct s.
Qed.

Lemma dirname_trimmed p : trimmed (dirname p).
Proof.
  unfold dirname. generalize (substring 0 (Z.to_nat (rfind "/" p + 1)) p). intros head.
  destruct (String.eqb_spec head "") as [->|Hne]; [by left|].
  destruct (String.eqb_spec head (times "/" (String.length head))) as [Heq|Hns];
    cbn [negb andb].
  - right. left. by split.
  - assert (rstrip_char "/" head ≠ "") as Hs.
    { intros H. by apply rstrip_char_empty in H. }
    right. right. split; [done|]. by apply rstrip_char_ends.
Qed.

Lemma dirname_join h name :
  trimmed h → name ≠ "" → rfind "/" name = (-1)%Z →
  dirname (join h name) = h.
Proof.
  intros Hh Hname Hrfind.
  assert (startswith "/" name = false) as Hstart.
  { destruct name as [|c name]; [done|]. simpl in *.
    destruct (Z.leb_spec 0 (rfind "/" name)); [lia|].
    by destruct (Ascii.eqb c "/"). }
  unfold join. rewrite Hstart.
  destruct Hh as [->|[[Hne Hh]|[Hne Hend]]].
  - change (dirname name = ""). unfold dirname. rewrite Hrfind.
    change (Z.to_nat (-1 + 1)) with 0. by destruct name.
  - assert (String.length h ≠ 0) as Hlen by (by destruct h).
    remember (String.length h) as n eqn:Hn. clear Hn. subst h.
    rewrite endswith_times, orb_true_r by done.
    unfold dirname. rewrite rfind_app_none, rfind_times by done.
    replace (Z.to_nat (Z.of_nat n - 1 + 1)) with (String.length (times "/" n))
      by (rewrite times_length; lia).
    rewrite substring_whole_prefix.
    destruct (String.eqb_spec (times "/" n) ""); [done|].
    rewrite times_length, String.eqb_refl. done.
  - rewrite Hend, orb_false_r.
    destruct (String.eqb_spec h ""); [done|].
    unfold dirname. rewrite rfind_app_sep by done.
    replace (Z.to_nat (Z.of_nat (String.length h) + 1))
      with (String.length (h +:+ String "/" "")) by (rewrite length_append; simpl; lia).
    replace (h +:+ String "/" name) with ((h +:+ String "/" "") +:+ name)
      by (by rewrite append_assoc).
    rewrite substring_whole_prefix.
    assert (h +:+ String "/" "" ≠ "") as Hne' by (by destruct h).
    destruct (String.eqb_spec (h +:+ String "/" "") ""); [done|].
    destruct (String.eqb_spec (h +:+ String "/" "")
                (times "/" (String.length (h +:+ String "/" "")))) as [Heq|_].
    + by apply not_times_snoc in Heq.
    + cbn [negb andb]. by apply rstrip_char_snoc.
Qed.

(** X4. The result goes to the file [date_fields.json] in the directory of
    the schema: the directory of the path written to is the directory of the
    schema path, and the path is that directory and the file name, with a
    slash between them where one is needed. The schema path is the first
    argument of the command line when there is one; with none it is
    [heroku-schema.json] in the directory of the script, and the result is
    then written to that directory. *)
Theorem result_is_written_beside_the_schema :
  (∀ path, dirname (out_path path) = dirname path)
  ∧ (∀ path, out_path path = dirname path +:+ "date_fields.json"
             ∨ out_path path = dirname path +:+ "/date_fields.json")
  ∧ (∀ prog arg rest here, schema_path (prog :: arg :: rest) here = arg)
  ∧ (∀ prog script,
       dirname (schema_path [prog] (dirname script)) = dirname script
       ∧ out_path (schema_path [prog] (dirname script))
         = join (dirname script) "date_fields.json").
Proof.
  repeat apply conj.
  - intros path. by apply dirname_join; [apply dirname_trimmed|..].
  - intros path. unfold out_path, join. simpl startswith. cbv iota.
    destruct (_ || _); [by left|by right].
  - done.
  - intros prog script.
    assert (dirname (schema_path [prog] (dirname script)) = dirname script) as H.
    { by apply dirname_join; [apply dirname_trimmed|..]. }
    split; [done|]. unfold out_path. by rewrite H.
Qed.

End paths.

End DateFieldsProofs.


(** * Properties of the payload property counter *)

Module TopPropertiesProofs.
Import PyStr TopProperties.
#[local] Open Scope nat_scope.
#[local] Open Scope list_scope.
#[local] Open Scope stdpp_scope.

(** ** Strings *)

Lemma split_nonempty sep s : split sep s ≠ [].
Proof.
  destruct s as [|c t]; simpl; [done|].
  destruct (Ascii.eqb c sep); [done|]. by destruct (split sep t).
Qed.

Lemma split_cons_sep sep s : split sep (String sep s) = EmptyString :: split sep s.
Proof. simpl. by rewrite Ascii.eqb_refl. Qed.

(** A separator between two strings separates their pieces. *)
Lemma split_app sep p q :
  split sep (p +:+ String sep q) = split sep p ++ split sep q.
Proof.
  induction p as [|c p IH]; simpl.
  - by rewrite Ascii.eqb_refl.
  - destruct (Ascii.eqb c sep); [by rewrite IH|].
    rewrite IH. pose proof (split_nonempty sep p).
    by destruct (split sep p).
Qed.

Lemma split_no_sep sep s : has_char sep s = false → split sep s = [s].
Proof.
  induction s as [|c s IH]; simpl; [done|].
  intros [-> Hs]%orb_false_iff. by rewrite IH.
Qed.

(** ** Pointer resolution *)

Lemma deref_all_app cur parts1 parts2 :
  deref_all cur (parts1 ++ parts2) =
    match deref_all cur parts1 with
    | Ok mid => deref_all mid parts2
    | Raise e => Raise e
    end.
Proof.
  revert cur. induction parts1 as [|raw parts1 IH]; intros cur; simpl; [done|].
  destruct (deref cur raw); [apply IH|done].
Qed.

Lemma json_pointer_get_stripped doc pointer :
  json_pointer_get doc pointer =
    match strip_hash pointer with
    | EmptyString => Ok doc
    | String c rest =>
        if Ascii.eqb c "/" then deref_all doc (split "/" rest)
        else Raise (ValueError_non_local (String c rest))
    end.
Proof.
  unfold json_pointer_get, strip_hash.
  destruct (if startswith "#" pointer then _ else _) as [|c rest]; [done|].
  change (String.eqb (String c rest) "") with false. cbv iota.
  unfold startswith. destruct (Ascii.eqb c "/") eqn:E; simpl; [|done].
  by rewrite E.
Qed.

(** A pointer that resolves, extended by one more segment. *)
Lemma json_pointer_get_snoc doc pointer cur seg :
  json_pointer_get doc pointer = Ok cur →
  has_char "/" seg = false →
  json_pointer_get doc (pointer +:+ String "/" seg) = deref cur seg.
Proof.
  intros Hget Hseg. rewrite json_pointer_get_stripped in *.
  assert (strip_hash (pointer +:+ String "/" seg) = strip_hash pointer +:+ String "/" seg)
    as ->.
  { unfold strip_hash. destruct pointer as [|c p]; [done|].
    simpl. by destruct (Ascii.eqb c "#"). }
  destruct (strip_hash pointer) as [|c rest]; simpl.
  - injection Hget as ->. rewrite (split_no_sep _ _ Hseg). simpl.
    by destruct (deref cur seg).
  - destruct (Ascii.eqb c "/"); [|done].
    rewrite split_app, deref_all_app, Hget, (split_no_sep _ _ Hseg). simpl.
    by destruct (deref cur seg).
Qed.

(** ** Unescaping *)

Lemma replace2_other c1 c2 new a t :
  Ascii.eqb a c1 = false →
  replace2 c1 c2 new (String a t) = String a (replace2 c1 c2 new t).
Proof. intros H. destruct t; simpl; by rewrite ?H. Qed.

Lemma replace2_hit c1 c2 new u :
  replace2 c1 c2 new (String c1 (String c2 u)) = new +:+ replace2 c1 c2 new u.
Proof. simpl. by rewrite !Ascii.eqb_refl. Qed.

Lemma replace2_near c1 c2 new b u :
  Ascii.eqb b c2 = false →
  replace2 c1 c2 new (String c1 (String b u))
  = String c1 (replace2 c1 c2 new (String b u)).
Proof. intros H. simpl. by rewrite Ascii.eqb_refl, H. Qed.

Lemma unescape_escape_token s : unescape (escape_token s) = s.
Proof.
  unfold unescape.
  assert (∀ s, replace2 "~" "1" "/" (escape_token s)
               = (fix half s := match s with
                                | EmptyString => EmptyString
                                | String c t =>
                                    if Ascii.eqb c "~" then String "~" (String "0" (half t))
                                    else String c (half t)
                                end) s) as ->.
  { clear s. induction s as [|c s IH]; [done|].
    cbn [escape_token]. destruct (Ascii.eqb c "~") eqn:E1.
    - rewrite replace2_near, replace2_other, IH by done. done.
    - destruct (Ascii.eqb c "/") eqn:E2.
      + apply Ascii.eqb_eq in E2 as ->. by rewrite replace2_hit, IH.
      + by rewrite replace2_other, IH. }
  induction s as [|c s IH]; [done|].
  destruct (Ascii.eqb c "~") eqn:E1.
  - apply Ascii.eqb_eq in E1 as ->. by rewrite replace2_hit, IH.
  - by rewrite replace2_other, IH.
Qed.

(** ** Indexing a list *)

Lemma list_index_nonneg items idx :
  (0 ≤ idx < Z.of_nat (length items))%Z →
  list_index items idx = items !! Z.to_nat idx ∧ is_Some (items !! Z.to_nat idx).
Proof.
  intros H. unfold list_index.
  destruct (Z.ltb_spec idx 0); [lia|].
  destruct (Z.leb_spec 0 idx); [|lia].
  destruct (Z.ltb_spec idx (Z.of_nat (length items))); [|lia].
  split; [done|]. apply lookup_lt_is_Some. lia.
Qed.

Lemma list_index_negative items idx :
  (- Z.of_nat (length items) ≤ idx < 0)%Z →
  list_index items idx = items !! Z.to_nat (Z.of_nat (length items) + idx)
  ∧ is_Some (items !! Z.to_nat (Z.of_nat (length items) + idx)).
Proof.
  intros H. unfold list_index.
  destruct (Z.ltb_spec idx 0); [|lia].
  destruct (Z.leb_spec 0 (idx + Z.of_nat (length items))); [|lia].
  destruct (Z.ltb_spec (idx + Z.of_nat (length items)) (Z.of_nat (length items))); [|lia].
  rewrite (Z.add_comm idx). split; [done|]. apply lookup_lt_is_Some. lia.
Qed.

Lemma list_index_out_of_range items idx :
  (Z.of_nat (length items) ≤ idx ∨ idx < - Z.of_nat (length items))%Z →
  list_index items idx = None.
Proof.
  intros H. unfold list_index.
  destruct (Z.ltb_spec idx 0).
  - destruct (Z.leb_spec 0 (idx + Z.of_nat (length items))); [lia|done].
  - destruct (Z.leb_spec 0 idx); [|lia].
    destruct (Z.ltb_spec idx (Z.of_nat (length items))); [lia|done].
Qed.

(** C2. [json_pointer_get] removes one leading [#]; what is left resolves to
    the document itself when it is empty, is refused as a non-local reference
    when it does not start with a slash, and is otherwise resolved segment by
    segment. A segment is unescaped, which undoes the escaping of a key; on a
    list it must read as an integer, and the index must lie inside the list;
    on an object it must be a key of the object; on a scalar it fails. *)
Theorem json_pointer_get_spec :
  (∀ doc p, startswith "#" p = false →
            json_pointer_get doc (String "#" p) = json_pointer_get doc p)
  ∧ (∀ doc, json_pointer_get doc "" = Ok doc ∧ json_pointer_get doc "#" = Ok doc)
  ∧ (∀ doc c rest, c ≠ "/"%char → c ≠ "#"%char →
       json_pointer_get doc (String c rest) = Raise (ValueError_non_local (String c rest)))
  ∧ (∀ doc c rest, c ≠ "/"%char →
       json_pointer_get doc (String "#" (String c rest))
       = Raise (ValueError_non_local (String c rest)))
  ∧ (∀ doc rest, json_pointer_get doc (String "/" rest) = deref_all doc (split "/" rest))
  ∧ (∀ cur, deref_all cur [] = Ok cur)
  ∧ (∀ cur raw rest,
       deref_all cur (raw :: rest)
       = match deref cur raw with Ok next => deref_all next rest | Raise e => Raise e end)
  ∧ (∀ s, unescape (escape_token s) = s)
  ∧ unescape "a~1b~0c~01" = "a/b~c~1"
  ∧ (∀ oid items raw,
       py_int (unescape raw) = None →
       deref (VList oid items) raw = Raise (KeyError_index_not_integer raw))
  ∧ (∀ oid items raw idx,
       py_int (unescape raw) = Some idx → (0 ≤ idx < Z.of_nat (length items))%Z →
       ∃ v, items !! Z.to_nat idx = Some v ∧ deref (VList oid items) raw = Ok v)
  ∧ (∀ oid items raw idx,
       py_int (unescape raw) = Some idx →
       (Z.of_nat (length items) ≤ idx ∨ idx < - Z.of_nat (length items))%Z →
       deref (VList oid items) raw = Raise IndexError_out_of_range)
  ∧ (∀ oid entries raw v,
       get (unescape raw) entries = Some v → deref (VDict oid entries) raw = Ok v)
  ∧ (∀ oid entries raw,
       get (unescape raw) entries = None →
       deref (VDict oid entries) raw = Raise (KeyError_token_not_found (unescape raw)))
  ∧ (∀ cur raw,
       is_container cur = false → deref cur raw = Raise (KeyError_non_container raw))
  ∧ json_pointer_get doc_a_b "/a/b/1" = Ok (VInt 20)
  ∧ json_pointer_get doc_a_b "/a/b/9" = Raise IndexError_out_of_range
  ∧ json_pointer_get doc_a_b "#/a" = Ok (VDict 1 [("b", VList 2 [VInt 10; VInt 20])]).
Proof.
  repeat apply conj.
  - intros doc p Hp. rewrite !json_pointer_get_stripped.
    unfold strip_hash. simpl. by rewrite Hp.
  - done.
  - intros doc c rest H1 H2. rewrite json_pointer_get_stripped. unfold strip_hash. simpl.
    destruct (Ascii.eqb_spec c "#"); [done|]. by destruct (Ascii.eqb_spec c "/").
  - intros doc c rest H1. rewrite json_pointer_get_stripped. unfold strip_hash. simpl.
    by destruct (Ascii.eqb_spec c "/").
  - intros doc rest. by rewrite json_pointer_get_stripped.
  - done.
  - done.
  - apply unescape_escape_token.
  - by vm_compute.
  - intros oid items raw H. unfold deref. by rewrite H.
  - intros oid items raw idx H Hidx. unfold deref. rewrite H.
    destruct (list_index_nonneg items idx Hidx) as [-> [v Hv]].
    exists v. by rewrite Hv.
  - intros oid items raw idx H Hidx. unfold deref.
    by rewrite H, list_index_out_of_range.
  - intros oid entries raw v H. unfold deref. by rewrite H.
  - intros oid entries raw H. unfold deref. by rewrite H.
  - intros cur raw H. by destruct cur.
  - by vm_compute.
  - by vm_compute.
  - by vm_compute.
Qed.

(** C10. A negative integer segment is accepted on a list and counts from
    its end: when the pointer so far resolves to a list, a segment that reads
    as an index between minus the length and minus one yields the element
    that many places from the end, and the segment -1 yields the last element
    of a list that is not empty. *)
Theorem json_pointer_get_negative_index doc prefix oid items :
  json_pointer_get doc prefix = Ok (VList oid items) →
  (∀ seg idx,
     has_char "/" seg = false → py_int (unescape seg) = Some idx →
     (- Z.of_nat (length items) ≤ idx < 0)%Z →
     ∃ v, items !! Z.to_nat (Z.of_nat (length items) + idx) = Some v
          ∧ json_pointer_get doc (prefix +:+ String "/" seg) = Ok v)
  ∧ (items ≠ [] →
     ∃ v, last items = Some v ∧ json_pointer_get doc (prefix +:+ "/-1") = Ok v).
Proof.
  intros Hget.
  assert (∀ seg idx,
     has_char "/" seg = false → py_int (unescape seg) = Some idx →
     (- Z.of_nat (length items) ≤ idx < 0)%Z →
     ∃ v, items !! Z.to_nat (Z.of_nat (length items) + idx) = Some v
          ∧ json_pointer_get doc (prefix +:+ String "/" seg) = Ok v) as Hneg.
  { intros seg idx Hseg Hint Hidx.
    rewrite (json_pointer_get_snoc _ _ _ _ Hget Hseg). unfold deref. rewrite Hint.
    destruct (list_index_negative items idx Hidx) as [-> [v Hv]].
    exists v. by rewrite Hv. }
  split; [done|]. intros Hne.
  destruct (Hneg "-1" (-1)%Z) as (v & Hv & Hres); [done|done| |].
  { destruct items; [done|]. simpl length. lia. }
  exists v. split; [|done]. rewrite last_lookup. rewrite <- Hv. f_equal.
  destruct items; [done|]. simpl length. lia.
Qed.

Lemma json_pointer_get_negative_index_witness :
  json_pointer_get doc_a_b "/a/b" = Ok (VList 2 [VInt 10; VInt 20])
  ∧ ∃ v, last [VInt 10; VInt 20] = Some v ∧ json_pointer_get doc_a_b "/a/b/-1" = Ok v.
Proof.
  split; [reflexivity|].
  apply (json_pointer_get_negative_index doc_a_b "/a/b" 2 [VInt 10; VInt 20]);
    [reflexivity|discriminate].
Defined.

(** ** Induction on values *)

Section value_induction.
Variable P : value → Prop.
Hypothesis Hscalar : ∀ v, is_container v = false → P v.
Hypothesis Hlist : ∀ oid items, Forall P items → P (VList oid items).
Hypothesis Hdict : ∀ oid entries, Forall (fun kv => P kv.2) entries → P (VDict oid entries).

Fixpoint value_nested_ind (v : value) : P v :=
  match v with
  | VList oid items =>
      Hlist oid items
        ((fix go (l : list value) : Forall P l :=
            match l with
            | [] => List.Forall_nil P
            | x :: t => List.Forall_cons P x t (value_nested_ind x) (go t)
            end) items)
  | VDict oid entries =>
      Hdict oid entries
        ((fix go (l : list (string * value)) : Forall (fun kv => P kv.2) l :=
            match l with
            | [] => List.Forall_nil _
            | kv :: t => List.Forall_cons _ kv t (value_nested_ind kv.2) (go t)
            end) entries)
  | VNull => Hscalar VNull eq_refl
  | VBool b => Hscalar (VBool b) eq_refl
  | VInt z => Hscalar (VInt z) eq_refl
  | VFloat f => Hscalar (VFloat f) eq_refl
  | VStr s => Hscalar (VStr s) eq_refl
  end.
End value_induction.

(** ** The values inside a document *)

Lemma get_entry key kvs v : get key kvs = Some v → (key, v) ∈ kvs.
Proof.
  induction kvs as [|[k w] t IH]; simpl; [done|].
  destruct (String.eqb k key) eqn:E.
  - apply String.eqb_eq in E as ->. intros [= ->]. left.
  - intros H. right. auto.
Qed.

Lemma elem_of_flat_map {A B : Type} (f : A → list B) (l : list A) (y : B) :
  y ∈ flat_map f l ↔ ∃ x, x ∈ l ∧ y ∈ f x.
Proof.
  rewrite list_elem_of_In, in_flat_map.
  by setoid_rewrite list_elem_of_In.
Qed.

Lemma nodes_self v : v ∈ nodes v.
Proof. destruct v; left. Qed.

Lemma nodes_item oid items x : x ∈ items → x ∈ nodes (VList oid items).
Proof.
  intros H. simpl. right. apply elem_of_flat_map. exists x. split; [done|apply nodes_self].
Qed.

Lemma nodes_entry oid entries k v : (k, v) ∈ entries → v ∈ nodes (VDict oid entries).
Proof.
  intros H. simpl. right. apply elem_of_flat_map. exists (k, v).
  split; [done|apply nodes_self].
Qed.

Lemma nodes_trans doc n m : n ∈ nodes doc → m ∈ nodes n → m ∈ nodes doc.
Proof.
  revert n m. induction doc as [v Hv|oid items IH|oid entries IH] using value_nested_ind;
    intros n m Hn Hm.
  - destruct v; try discriminate Hv; apply list_elem_of_singleton in Hn as ->; done.
  - simpl in Hn. apply elem_of_cons in Hn as [->|Hn]; [done|].
    apply elem_of_flat_map in Hn as (x & Hx & Hn). simpl. right.
    apply elem_of_flat_map. exists x. split; [done|].
    rewrite Forall_forall in IH. by eapply IH.
  - simpl in Hn. apply elem_of_cons in Hn as [->|Hn]; [done|].
    apply elem_of_flat_map in Hn as (kv & Hkv & Hn). simpl. right.
    apply elem_of_flat_map. exists kv. split; [done|].
    rewrite Forall_forall in IH. by eapply (IH kv).
Qed.

Lemma oids_nodes v : oids v = omap oid_of (nodes v).
Proof.
  induction v as [v Hv|oid items IH|oid entries IH] using value_nested_ind.
  - by destruct v.
  - simpl. f_equal. induction IH as [|x l Hx _ IHl]; simpl; [done|].
    by rewrite omap_app, Hx, IHl.
  - simpl. f_equal. induction IH as [|kv l Hx _ IHl]; simpl; [done|].
    by rewrite omap_app, Hx, IHl.
Qed.

Lemma oid_in_oids doc n o : n ∈ nodes doc → oid_of n = Some o → o ∈ oids doc.
Proof.
  intros Hn Ho. rewrite oids_nodes. apply list_elem_of_omap. eauto.
Qed.

(** In a document whose containers all have identities of their own, a
    container is known by its identity. *)
Lemma omap_NoDup_inj {A B : Type} (f : A → option B) (l : list A) x y b :
  NoDup (omap f l) → x ∈ l → y ∈ l → f x = Some b → f y = Some b → x = y.
Proof.
  induction l as [|a l IH]; simpl; intros Hnd Hx Hy Hfx Hfy.
  - by apply elem_of_nil in Hx.
  - apply elem_of_cons in Hx as [->|Hx], Hy as [->|Hy]; [done| | |].
    + rewrite Hfx in Hnd. apply NoDup_cons in Hnd as [Hnot _].
      destruct Hnot. apply list_elem_of_omap. eauto.
    + rewrite Hfy in Hnd. apply NoDup_cons in Hnd as [Hnot _].
      destruct Hnot. apply list_elem_of_omap. eauto.
    + apply IH; try done. destruct (f a); [by apply NoDup_cons in Hnd as [_ ?]|done].
Qed.

Lemma node_by_oid doc m1 m2 o :
  NoDup (oids doc) → m1 ∈ nodes doc → m2 ∈ nodes doc →
  oid_of m1 = Some o → oid_of m2 = Some o → m1 = m2.
Proof.
  rewrite oids_nodes. apply omap_NoDup_inj.
Qed.

Lemma deref_in_nodes cur raw next : deref cur raw = Ok next → next ∈ nodes cur.
Proof.
  unfold deref. destruct cur as [| | | | |oid items|oid entries]; try done.
  - destruct (py_int _) as [idx|]; [|done]. unfold list_index.
    destruct (_ && _); [|done].
    destruct (items !! _) as [v|] eqn:E; [|done]. intros [= <-].
    eapply nodes_item, list_elem_of_lookup_2, E.
  - destruct (get _ entries) as [v|] eqn:E; [|done]. intros [= <-].
    eapply nodes_entry, get_entry, E.
Qed.

Lemma deref_all_in_nodes doc cur parts target :
  cur ∈ nodes doc → deref_all cur parts = Ok target → target ∈ nodes doc.
Proof.
  revert cur. induction parts as [|raw parts IH]; simpl; intros cur Hcur.
  - by intros [= <-].
  - destruct (deref cur raw) as [next|] eqn:E; [|done].
    apply IH. eapply nodes_trans; [done|]. by eapply deref_in_nodes.
Qed.

Lemma json_pointer_get_in_nodes doc pointer target :
  json_pointer_get doc pointer = Ok target → target ∈ nodes doc.
Proof.
  rewrite json_pointer_get_stripped.
  destruct (strip_hash pointer) as [|c rest].
  - intros [= <-]. apply nodes_self.
  - destruct (Ascii.eqb c "/"); [|done]. apply deref_all_in_nodes, nodes_self.
Qed.

Lemma properties_of_in_nodes oid entries k v :
  (k, v) ∈ properties_of entries → v ∈ nodes (VDict oid entries).
Proof.
  unfold properties_of. destruct (get "properties" entries) as [[]|] eqn:E;
    try (by intros ?%elem_of_nil).
  intros H. eapply nodes_trans; [eapply nodes_entry, get_entry, E|].
  by eapply nodes_entry.
Qed.

Lemma entry_succs_in_nodes oid entries kv k :
  kv ∈ entries → k ∈ entry_succs kv → k ∈ nodes (VDict oid entries).
Proof.
  intros Hkv. destruct kv as [key v]. unfold entry_succs. cbn [fst snd].
  assert (v ∈ nodes (VDict oid entries)) as Hv by by eapply nodes_entry.
  destruct (String.eqb key "properties"); [by intros ?%elem_of_nil|].
  destruct (String.eqb key "patternProperties").
  - destruct v; try (by intros ?%elem_of_nil).
    intros ([k' v'] & -> & Hin)%list_elem_of_fmap.
    eapply nodes_trans; [exact Hv|]. by eapply nodes_entry.
  - destruct (str_in key schema_keys); [by intros ->%list_elem_of_singleton|].
    destruct (is_container v); [by intros ->%list_elem_of_singleton|].
    by intros ?%elem_of_nil.
Qed.

Lemma succs_in_nodes doc n k : n ∈ nodes doc → k ∈ succs doc n → k ∈ nodes doc.
Proof.
  intros Hn. destruct n as [| | | | |oid items|oid entries]; simpl;
    try (by intros ?%elem_of_nil).
  - intros Hk. eapply nodes_trans; [done|]. by apply nodes_item.
  - rewrite !elem_of_app. intros [Hk|[Hk|Hk]].
    + unfold ref_targets in Hk.
      destruct (get "$ref" entries) as [[]|]; try (by apply elem_of_nil in Hk).
      destruct (_ || _); [|by apply elem_of_nil in Hk].
      destruct (json_pointer_get doc s) as [target|] eqn:E;
        [|by apply elem_of_nil in Hk].
      apply list_elem_of_singleton in Hk as ->. by eapply json_pointer_get_in_nodes.
    + apply list_elem_of_fmap in Hk as ([k' v] & -> & Hk).
      eapply nodes_trans; [done|]. by eapply properties_of_in_nodes.
    + apply elem_of_flat_map in Hk as (kv & Hkv & Hk).
      eapply nodes_trans; [done|]. by eapply entry_succs_in_nodes.
Qed.

(** ** Actions *)

Lemma for_each_cons {S X : Type} (x : X) (xs : list X) (body : X → action S) :
  for_each (x :: xs) body = seq (body x) (for_each xs body).
Proof. reflexivity. Qed.

Lemma occurrences_app name l1 l2 :
  occurrences name (l1 ++ l2) = occurrences name l1 + occurrences name l2.
Proof. induction l1 as [|s l1 IH]; simpl; [done|]. rewrite IH. lia. Qed.

Lemma prop_total_app name l1 l2 :
  prop_total name (l1 ++ l2) = prop_total name l1 + prop_total name l2.
Proof.
  unfold prop_total. induction l1 as [|m l1 IH]; simpl; [done|]. rewrite IH. lia.
Qed.

Lemma incr_lookup name name' (c : gmap string nat) :
  incr name c !!! name' = c !!! name' + (if String.eqb name name' then 1 else 0).
Proof.
  unfold incr. destruct (String.eqb_spec name name') as [->|Hne].
  - rewrite lookup_total_insert_eq. lia.
  - rewrite lookup_total_insert_ne by done. lia.
Qed.

(** ** What a walk adds to the state *)

Lemma unvisited_mono doc st st' :
  (∀ o, o ∈ visited st → o ∈ visited st') → unvisited doc st' ≤ unvisited doc st.
Proof.
  intros H. apply subseteq_size. intros o.
  rewrite !elem_of_difference, !elem_of_list_to_set. naive_solver.
Qed.

Lemma unvisited_mark doc st o c :
  o ∈ oids doc → o ∉ visited st →
  unvisited doc {| visited := o :: visited st; counts := c |} < unvisited doc st.
Proof.
  intros Ho Hnew. apply subset_size. split.
  - intros o'. rewrite !elem_of_difference, !elem_of_list_to_set. simpl.
    rewrite elem_of_cons. naive_solver.
  - intros H. specialize (H o). revert H.
    rewrite !elem_of_difference, !elem_of_list_to_set. simpl.
    rewrite elem_of_cons. naive_solver.
Qed.

Lemma extends_refl doc st : extends doc [] [] st st [].
Proof.
  repeat split; simpl; try done; try (by intros; exfalso; eapply elem_of_nil).
  - constructor.
  - intros name. lia.
Qed.

Lemma extends_visited doc starts extra st st' entered :
  extends doc starts extra st st' entered → ∀ o, o ∈ visited st → o ∈ visited st'.
Proof. intros (-> & _) o Ho. apply elem_of_app. by right. Qed.

Lemma extends_comp doc starts1 extra1 starts2 extra2 st st1 st2 e1 e2 :
  extends doc starts1 extra1 st st1 e1 →
  extends doc starts2 extra2 st1 st2 e2 →
  extends doc (starts1 ++ starts2) (extra1 ++ extra2) st st2 (e2 ++ e1).
Proof.
  intros H1 H2.
  pose proof (extends_visited _ _ _ _ _ _ H1) as Hmono1.
  pose proof (extends_visited _ _ _ _ _ _ H2) as Hmono2.
  destruct H1 as (Hv1 & Hin1 & Hnd1 & Hnew1 & Hs1 & Hcl1 & Hc1).
  destruct H2 as (Hv2 & Hin2 & Hnd2 & Hnew2 & Hs2 & Hcl2 & Hc2).
  repeat split.
  - by rewrite Hv2, Hv1, omap_app, app_assoc.
  - apply Forall_app. split; (eapply Forall_impl; [done|]); simpl;
      intros m (? & ? & s & ? & ?); repeat split; try done;
      exists s; (split; [|done]); apply elem_of_app; auto.
  - rewrite omap_app. apply NoDup_app. repeat split; [done| |done].
    intros o Ho2 Ho1. apply (Hnew2 o Ho2). rewrite Hv1. apply elem_of_app. by left.
  - intros o. rewrite omap_app. intros [Ho|Ho]%elem_of_app; [|by apply Hnew1].
    intros Hst. by apply (Hnew2 o Ho), Hmono1.
  - intros s o [Hs|Hs]%elem_of_app Ho; [|by eapply Hs2]. by eapply Hmono2, Hs1.
  - intros m k o [Hm|Hm]%elem_of_app Hk Ho; [by eapply Hcl2|by eapply Hmono2, Hcl1].
  - intros name. rewrite Hc2, Hc1, occurrences_app, prop_total_app. lia.
Qed.

Lemma extends_count doc st name :
  extends doc [] [name] st {| visited := visited st; counts := incr name (counts st) |} [].
Proof.
  repeat split; simpl; try done; try (by intros; exfalso; eapply elem_of_nil).
  - constructor.
  - intros name'. rewrite incr_lookup. lia.
Qed.

Lemma extends_enter doc n o st st' entered :
  oid_of n = Some o → n ∈ nodes doc → o ∉ visited st →
  extends doc (succs doc n) (prop_names n)
          {| visited := o :: visited st; counts := counts st |} st' entered →
  extends doc [n] [] st st' (entered ++ [n]).
Proof.
  intros Ho Hn Hnew H.
  pose proof (extends_visited _ _ _ _ _ _ H) as Hmono. simpl in Hmono.
  destruct H as (Hv & Hin & Hnd & Hnew' & Hs & Hcl & Hc). simpl in *.
  assert (omap oid_of (entered ++ [n]) = omap oid_of entered ++ [o]) as Hids.
  { rewrite omap_app. simpl. by rewrite Ho. }
  repeat split.
  - rewrite Hids, Hv, <- app_assoc. done.
  - apply Forall_app. split.
    + eapply Forall_impl; [done|]. simpl. intros m (? & ? & s & Hsn & Hr).
      repeat split; try done. exists n. split; [left|]. by eapply rtc_l.
    + apply Forall_singleton. repeat split; try done.
      * by destruct n.
      * exists n. split; [left|done].
  - rewrite Hids. apply NoDup_app. repeat split; [done| |apply NoDup_singleton].
    intros o' Ho' ->%list_elem_of_singleton. apply (Hnew' o Ho'). left.
  - intros o'. rewrite Hids. intros [Ho'| ->%list_elem_of_singleton]%elem_of_app; [|done].
    intros Hst. apply (Hnew' o' Ho'). by right.
  - intros s o' ->%list_elem_of_singleton Ho'. rewrite Ho in Ho'. injection Ho' as <-.
    apply Hmono. left.
  - intros m k o' [Hm| ->%list_elem_of_singleton]%elem_of_app Hk Ho';
      [by eapply Hcl|by eapply Hs].
  - intros name. rewrite Hc, prop_total_app. simpl. lia.
Qed.

Lemma extends_same doc n st o :
  oid_of n = None ∨ (oid_of n = Some o ∧ o ∈ visited st) →
  extends doc [n] [] st st [].
Proof.
  intros Hn.
  repeat split; simpl; try done; try (by intros; exfalso; eapply elem_of_nil).
  - constructor.
  - intros s o' ->%list_elem_of_singleton Ho'.
    destruct Hn as [Hn|[Hn ?]]; rewrite Hn in Ho'; [done|]. by injection Ho' as <-.
  - intros name. lia.
Qed.

(** ** The walk, step by step *)

Lemma walk_dict fuel doc oid entries st :
  walk (S fuel) doc (VDict oid entries) st =
    if bool_decide (oid ∈ visited st) then Done st
    else seq (mark oid) (dict_body (walk fuel doc) doc entries) st.
Proof. reflexivity. Qed.

Lemma walk_list fuel doc oid items st :
  walk (S fuel) doc (VList oid items) st =
    if bool_decide (oid ∈ visited st) then Done st
    else seq (mark oid) (for_each items (walk fuel doc)) st.
Proof. reflexivity. Qed.

Lemma walk_scalar fuel doc n st :
  is_container n = false → walk (S fuel) doc n st = Done st.
Proof. by destruct n. Qed.

Lemma flat_map_singleton {A B : Type} (g : A → B) (l : list A) :
  flat_map (fun x => [g x]) l = map g l.
Proof. induction l as [|x l IH]; simpl; [done|]. by rewrite IH. Qed.

Lemma flat_map_nil {A B : Type} (l : list A) :
  flat_map (fun _ => @nil B) l = [].
Proof. by induction l. Qed.

Section good.
Variable doc : value.
Variable bound : nat.

Lemma good_skip : good doc bound skip [] [].
Proof. intros st _. exists st, []. split; [done|apply extends_refl]. Qed.

Lemma good_count name : good doc bound (count name) [] [name].
Proof.
  intros st _. eexists _, []. split; [done|apply extends_count].
Qed.

Lemma good_seq a b starts1 extra1 starts2 extra2 :
  good doc bound a starts1 extra1 → good doc bound b starts2 extra2 →
  good doc bound (seq a b) (starts1 ++ starts2) (extra1 ++ extra2).
Proof.
  intros Ha Hb st Hst.
  destruct (Ha st Hst) as (st1 & e1 & Ea & H1).
  destruct (Hb st1) as (st2 & e2 & Eb & H2).
  { eapply Nat.le_lt_trans; [|done]. eapply unvisited_mono, extends_visited, H1. }
  exists st2, (e2 ++ e1). split; [|by eapply extends_comp].
  unfold seq. by rewrite Ea.
Qed.

Lemma good_try_pass a starts extra :
  good doc bound a starts extra → good doc bound (try_pass a) starts extra.
Proof.
  intros Ha st Hst. destruct (Ha st Hst) as (st' & e & Ea & H).
  exists st', e. split; [|done]. unfold try_pass. by rewrite Ea.
Qed.

Lemma good_for_each {X : Type} (xs : list X) (body : X → action state)
    (starts : X → list value) (extra : X → list string) :
  (∀ x, x ∈ xs → good doc bound (body x) (starts x) (extra x)) →
  good doc bound (for_each xs body) (flat_map starts xs) (flat_map extra xs).
Proof.
  induction xs as [|x xs IH]; intros H.
  - apply good_skip.
  - rewrite for_each_cons. simpl. apply good_seq.
    + apply H. left.
    + apply IH. intros y Hy. apply H. by right.
Qed.

Variable rec : value → action state.
Hypothesis rec_good : ∀ n, n ∈ nodes doc → good doc bound (rec n) [n] [].

Lemma good_ref entries : good doc bound (ref_action rec doc entries) (ref_targets doc entries) [].
Proof.
  unfold ref_action, ref_targets.
  destruct (get "$ref" entries) as [[]|]; try apply good_skip.
  destruct (_ || _); [|apply good_skip].
  destruct (json_pointer_get doc s) as [target|e] eqn:E.
  - apply good_try_pass, rec_good. by eapply json_pointer_get_in_nodes.
  - intros st _. exists st, []. split; [done|apply extends_refl].
Qed.

Lemma good_props oid entries :
  VDict oid entries ∈ nodes doc →
  good doc bound (props_action rec entries)
       (map snd (properties_of entries)) (map fst (properties_of entries)).
Proof.
  intros Hn.
  assert (∀ kv, kv ∈ properties_of entries → kv.2 ∈ nodes doc) as Hin.
  { intros [k v] Hkv. eapply nodes_trans; [done|]. by eapply properties_of_in_nodes. }
  unfold props_action, properties_of in *.
  destruct (get "properties" entries) as [[]|]; try apply good_skip.
  rewrite <- (flat_map_singleton snd), <- (flat_map_singleton fst).
  apply good_for_each. intros kv Hkv.
  apply (good_seq _ _ [] [kv.1] [kv.2] []); [apply good_count|].
  by apply rec_good, Hin.
Qed.

Lemma good_entry oid entries kv :
  VDict oid entries ∈ nodes doc → kv ∈ entries →
  good doc bound (entry_action rec kv) (entry_succs kv) [].
Proof.
  intros Hn Hkv.
  assert (∀ k, k ∈ entry_succs kv → k ∈ nodes doc) as Hin.
  { intros k Hk. eapply nodes_trans; [done|]. by eapply entry_succs_in_nodes. }
  unfold entry_action, entry_succs in *.
  destruct (String.eqb kv.1 "properties"); [apply good_skip|].
  destruct (String.eqb kv.1 "patternProperties").
  - destruct kv.2 as [| | | | | |oid' subs]; try apply good_skip.
    rewrite <- (flat_map_singleton snd).
    rewrite <- (flat_map_nil (B:=string) subs).
    apply good_for_each. intros kv' Hkv'. apply rec_good, Hin.
    apply list_elem_of_fmap. eauto.
  - destruct (str_in kv.1 schema_keys); [apply rec_good, Hin; left|].
    destruct (is_container kv.2); [apply rec_good, Hin; left|apply good_skip].
Qed.

Lemma good_dict_body oid entries :
  VDict oid entries ∈ nodes doc →
  good doc bound (dict_body rec doc entries)
       (succs doc (VDict oid entries)) (prop_names (VDict oid entries)).
Proof.
  intros Hn. unfold dict_body. simpl.
  replace (map fst (properties_of entries))
    with ([] ++ map fst (properties_of entries) ++ flat_map (fun _ => []) entries)
    by (by rewrite flat_map_nil, app_nil_r).
  apply good_seq; [apply good_ref|].
  apply good_seq; [by eapply good_props|].
  apply good_for_each. intros kv Hkv. by eapply good_entry.
Qed.

Lemma good_items oid items :
  VList oid items ∈ nodes doc →
  good doc bound (for_each items rec) (succs doc (VList oid items)) (prop_names (VList oid items)).
Proof.
  intros Hn. simpl.
  rewrite <- (map_id items) at 2. rewrite <- (flat_map_singleton id).
  rewrite <- (flat_map_nil (B:=string) items).
  apply good_for_each. intros x Hx. apply rec_good.
  eapply nodes_trans; [done|]. by apply nodes_item.
Qed.

End good.

(** With more fuel than identities left to visit, a walk from a value of the
    document ends normally, and extends the state from that value. *)
Lemma walk_good doc fuel n : n ∈ nodes doc → good doc fuel (walk fuel doc n) [n] [].
Proof.
  revert n. induction fuel as [|fuel IH]; intros n Hn st Hst; [lia|].
  destruct (oid_of n) as [o|] eqn:Ho.
  - assert (o ∈ oids doc) as Hoid by by eapply oid_in_oids.
    assert (walk (S fuel) doc n st =
              if bool_decide (o ∈ visited st) then Done st
              else seq (mark o)
                       (match n with
                        | VDict _ entries => dict_body (walk fuel doc) doc entries
                        | VList _ items => for_each items (walk fuel doc)
                        | _ => skip
                        end) st) as ->.
    { destruct n; try discriminate Ho; injection Ho as ->;
        [apply walk_list|apply walk_dict]. }
    case_bool_decide as Hvis.
    + exists st, []. split; [done|]. eapply extends_same. right. eauto.
    + set (st_m := {| visited := o :: visited st; counts := counts st |}).
      assert (unvisited doc st_m < fuel) as Hm.
      { pose proof (unvisited_mark doc st o (counts st) Hoid Hvis). unfold st_m. lia. }
      assert (good doc fuel
                (match n with
                 | VDict _ entries => dict_body (walk fuel doc) doc entries
                 | VList _ items => for_each items (walk fuel doc)
                 | _ => skip
                 end) (succs doc n) (prop_names n)) as Hbody.
      { destruct n; try discriminate Ho.
        - by eapply good_items.
        - by eapply good_dict_body. }
      destruct (Hbody st_m Hm) as (st' & entered & Ebody & Hext).
      exists st', (entered ++ [n]). split.
      * unfold seq, mark. fold st_m. done.
      * by eapply extends_enter.
  - rewrite walk_scalar by by destruct n.
    exists st, []. split; [done|]. eapply (extends_same _ _ _ 0). by left.
Qed.

(** ** No exception leaves the walk *)

Lemma never_raises_skip {S : Type} : never_raises (@skip S).
Proof. by intros st e st'. Qed.

Lemma never_raises_seq {S : Type} (a b : action S) :
  never_raises a → never_raises b → never_raises (seq a b).
Proof.
  intros Ha Hb st e st'. unfold seq.
  destruct (a st) as [st1|e1 st1|] eqn:E; [apply Hb| |done].
  by destruct (Ha st e1 st1).
Qed.

Lemma never_raises_try_pass {S : Type} (a : action S) : never_raises (try_pass a).
Proof. intros st e st'. unfold try_pass. by destruct (a st). Qed.

Lemma never_raises_for_each {S X : Type} (xs : list X) (body : X → action S) :
  (∀ x, never_raises (body x)) → never_raises (for_each xs body).
Proof.
  intros H. induction xs as [|x xs IH]; [apply never_raises_skip|].
  rewrite for_each_cons. by apply never_raises_seq.
Qed.

Lemma never_raises_dict_body rec doc entries :
  (∀ n, never_raises (rec n)) → never_raises (dict_body rec doc entries).
Proof.
  intros Hrec. unfold dict_body. repeat apply never_raises_seq.
  - unfold ref_action. destruct (get "$ref" entries) as [[]|];
      try apply never_raises_skip.
    destruct (_ || _); [apply never_raises_try_pass|apply never_raises_skip].
  - unfold props_action. destruct (get "properties" entries) as [[]|];
      try apply never_raises_skip.
    apply never_raises_for_each. intros kv. by apply never_raises_seq.
  - apply never_raises_for_each. intros kv. unfold entry_action.
    destruct (String.eqb kv.1 "properties"); [apply never_raises_skip|].
    destruct (String.eqb kv.1 "patternProperties").
    + destruct kv.2; try apply never_raises_skip. by apply never_raises_for_each.
    + destruct (str_in kv.1 schema_keys); [done|].
      destruct (is_container kv.2); [done|apply never_raises_skip].
Qed.

Lemma walk_never_raises fuel doc n : never_raises (walk fuel doc n).
Proof.
  revert n. induction fuel as [|fuel IH]; intros n st e st'; [done|].
  destruct n as [| | | | |oid items|oid entries]; try done.
  - rewrite walk_list. case_bool_decide; [done|].
    apply never_raises_seq; [done|by apply never_raises_for_each].
  - rewrite walk_dict. case_bool_decide; [done|].
    apply never_raises_seq; [done|by apply never_raises_dict_body].
Qed.

(** ** More fuel changes nothing *)

Lemma refines_refl {S : Type} (a : action S) : refines a a.
Proof. by intros st _. Qed.

Lemma refines_seq {S : Type} (a a' b b' : action S) :
  refines a a' → refines b b' → refines (seq a b) (seq a' b').
Proof.
  intros Ha Hb st. unfold seq. intros H.
  rewrite Ha by (intros E; by rewrite E in H).
  destruct (a st) as [st1| |]; [by apply Hb|done|done].
Qed.

Lemma refines_try_pass {S : Type} (a a' : action S) :
  refines a a' → refines (try_pass a) (try_pass a').
Proof.
  intros Ha st. unfold try_pass. intros H.
  by rewrite Ha by (intros E; by rewrite E in H).
Qed.

Lemma refines_for_each {S X : Type} (xs : list X) (body body' : X → action S) :
  (∀ x, refines (body x) (body' x)) → refines (for_each xs body) (for_each xs body').
Proof.
  intros H. induction xs as [|x xs IH]; [apply refines_refl|].
  rewrite !for_each_cons. by apply refines_seq.
Qed.

Lemma refines_dict_body rec rec' doc entries :
  (∀ n, refines (rec n) (rec' n)) →
  refines (dict_body rec doc entries) (dict_body rec' doc entries).
Proof.
  intros Hrec. unfold dict_body. repeat apply refines_seq.
  - unfold ref_action. destruct (get "$ref" entries) as [[]|]; try apply refines_refl.
    destruct (_ || _); [|apply refines_refl]. apply refines_try_pass.
    destruct (json_pointer_get doc s); [done|apply refines_refl].
  - unfold props_action. destruct (get "properties" entries) as [[]|];
      try apply refines_refl.
    apply refines_for_each. intros kv. apply refines_seq; [apply refines_refl|done].
  - apply refines_for_each. intros kv. unfold entry_action.
    destruct (String.eqb kv.1 "properties"); [apply refines_refl|].
    destruct (String.eqb kv.1 "patternProperties").
    + destruct kv.2; try apply refines_refl. by apply refines_for_each.
    + destruct (str_in kv.1 schema_keys); [done|].
      destruct (is_container kv.2); [done|apply refines_refl].
Qed.

Lemma walk_fuel_succ fuel doc n : refines (walk fuel doc n) (walk (S fuel) doc n).
Proof.
  revert n. induction fuel as [|fuel IH]; intros n st H; [done|].
  destruct n as [| | | | |oid items|oid entries]; try done.
  - rewrite walk_list in H. rewrite (walk_list (S fuel)), walk_list.
    case_bool_decide; [done|].
    apply refines_seq; [apply refines_refl|by apply refines_for_each|done].
  - rewrite walk_dict in H. rewrite (walk_dict (S fuel)), walk_dict.
    case_bool_decide; [done|].
    apply refines_seq; [apply refines_refl|by apply refines_dict_body|done].
Qed.

Lemma walk_fuel_le fuel fuel' doc n st st' :
  fuel ≤ fuel' → walk fuel doc n st = Done st' → walk fuel' doc n st = Done st'.
Proof.
  induction 1 as [|fuel' _ IH]; [done|]. intros H.
  rewrite walk_fuel_succ; rewrite IH; done.
Qed.

(** ** Termination *)

Lemma size_list_to_set_le (l : list nat) : size (list_to_set l : gset nat) ≤ length l.
Proof.
  induction l as [|x l IH].
  - change (size (∅ : gset nat) ≤ 0). by rewrite size_empty.
  - rewrite list_to_set_cons, size_union_alt, size_singleton. simpl.
    assert (size ((list_to_set l : gset nat) ∖ {[x]}) ≤ size (list_to_set l : gset nat))
      by (apply subseteq_size; set_solver).
    lia.
Qed.

Lemma unvisited_le_length doc st : unvisited doc st ≤ length (oids doc).
Proof.
  unfold unvisited. etrans; [|apply size_list_to_set_le].
  apply subseteq_size. set_solver.
Qed.

Lemma walk_ends doc n st :
  n ∈ nodes doc →
  ∃ st' entered,
    (∀ fuel, unvisited doc st < fuel → walk fuel doc n st = Done st')
    ∧ extends doc [n] [] st st' entered.
Proof.
  intros Hn.
  destruct (walk_good doc (S (unvisited doc st)) n Hn st) as (st' & e & Hw & He); [lia|].
  exists st', e. split; [|done]. intros fuel Hfuel.
  eapply walk_fuel_le; [|done]. lia.
Qed.

Lemma extends_NoDup doc starts extra st st' entered :
  extends doc starts extra st st' entered → NoDup (visited st) → NoDup (visited st').
Proof.
  intros (-> & _ & Hnd & Hnew & _) H. apply NoDup_app. auto.
Qed.

Lemma link_payload_spec link p :
  p ∈ link_payload link ↔
  ∃ oid l, link = VDict oid l ∧ get "targetSchema" l = Some p ∧ is_container p = true.
Proof.
  unfold link_payload. split.
  - destruct link as [| | | | | |oid l]; try (by intros ?%elem_of_nil).
    destruct (get "targetSchema" l) as [ts|] eqn:Ets; [|by intros ?%elem_of_nil].
    destruct (is_container ts) eqn:E; [|by intros ?%elem_of_nil].
    intros ->%list_elem_of_singleton. eauto 10.
  - intros (oid & l & -> & -> & ->). left.
Qed.

Lemma def_payloads_spec _def p :
  p ∈ def_payloads _def ↔
  ∃ oid d oid' links link,
    _def = VDict oid d ∧ get "links" d = Some (VList oid' links)
    ∧ link ∈ links ∧ p ∈ link_payload link.
Proof.
  unfold def_payloads. split.
  - destruct _def as [| | | | | |oid d]; try (by intros ?%elem_of_nil).
    destruct (get "links" d) as [[]|] eqn:El; try (by intros ?%elem_of_nil).
    intros (link & ? & ?)%elem_of_flat_map. eauto 10.
  - intros (oid & d & oid' & links & link & -> & -> & ? & ?).
    apply elem_of_flat_map. eauto.
Qed.

Lemma payload_schemas_spec top p :
  p ∈ payload_schemas top ↔
  ∃ oid definitions name _def,
    get "definitions" top = Some (VDict oid definitions)
    ∧ (name, _def) ∈ definitions ∧ p ∈ def_payloads _def.
Proof.
  unfold payload_schemas. split.
  - destruct (get "definitions" top) as [[]|] eqn:Ed; try (by intros ?%elem_of_nil).
    intros ([name _def] & ? & ?)%elem_of_flat_map. eauto 10.
  - intros (oid & definitions & name & _def & -> & ? & ?).
    apply elem_of_flat_map. by exists (name, _def).
Qed.

Lemma payload_schemas_in_nodes oid top p :
  p ∈ payload_schemas top → p ∈ nodes (VDict oid top).
Proof.
  intros (oid1 & definitions & name & _def & Hd & Hdef & Hp)%payload_schemas_spec.
  apply def_payloads_spec in Hp as (oid2 & d & oid3 & links & link & -> & Hl & Hlink & Hp).
  apply link_payload_spec in Hp as (oid4 & l & -> & Hts & _).
  eapply nodes_trans; [eapply nodes_entry, get_entry, Hd|].
  eapply nodes_trans; [eapply nodes_entry, Hdef|].
  eapply nodes_trans; [eapply nodes_entry, get_entry, Hl|].
  eapply nodes_trans; [eapply nodes_item, Hlink|].
  eapply nodes_entry, get_entry, Hts.
Qed.

Lemma walk_payload_ends doc payload c :
  payload ∈ nodes doc →
  ∃ st' entered,
    (∀ fuel, enough_fuel doc ≤ fuel →
             walk fuel doc payload {| visited := []; counts := c |} = Done st'
             ∧ walk_payload fuel doc payload c = Done (counts st'))
    ∧ extends doc [payload] [] {| visited := []; counts := c |} st' entered.
Proof.
  intros Hp.
  destruct (walk_ends doc payload {| visited := []; counts := c |} Hp)
    as (st' & e & Hw & He).
  exists st', e. split; [|done]. intros fuel Hfuel.
  assert (walk fuel doc payload {| visited := []; counts := c |} = Done st') as E.
  { apply Hw. pose proof (unvisited_le_length doc {| visited := []; counts := c |}).
    unfold enough_fuel in Hfuel. lia. }
  split; [done|]. unfold walk_payload. by rewrite E.
Qed.

Lemma count_properties_ends doc oid top :
  doc = VDict oid top →
  ∀ payloads c, (∀ p, p ∈ payloads → p ∈ nodes doc) →
    ∃ c', ∀ fuel, enough_fuel doc ≤ fuel →
                  for_each payloads (walk_payload fuel doc) c = Done c'.
Proof.
  intros ->. induction payloads as [|p payloads IH]; intros c Hin.
  - by exists c.
  - destruct (walk_payload_ends (VDict oid top) p c) as (st' & e & Hw & _);
      [apply Hin; left|].
    destruct (IH (counts st')) as (c' & Hc'); [intros; apply Hin; by right|].
    exists c'. intros fuel Hfuel. rewrite for_each_cons. unfold seq.
    destruct (Hw fuel Hfuel) as [_ ->]. by apply Hc'.
Qed.

(** C4. The counting walk ends for every document. From any value of the
    document and any visited set it ends normally once the fuel exceeds the
    number of identities left to visit, and its result does not depend on the
    fuel; it adds identities to the visited set and never adds one twice. So
    the walk of each payload, from the empty visited set, ends having entered
    each container at most once, and so does the count over all payloads,
    also when a [$ref] leads back to a node on the way, as in the example. *)
Theorem counting_walk_terminates :
  (∀ doc n st,
     n ∈ nodes doc →
     ∃ st', (∀ fuel, unvisited doc st < fuel → walk fuel doc n st = Done st')
            ∧ (NoDup (visited st) → NoDup (visited st'))
            ∧ (∀ o, o ∈ visited st → o ∈ visited st'))
  ∧ (∀ oid top payload c,
       payload ∈ payload_schemas top →
       ∃ st', (∀ fuel, enough_fuel (VDict oid top) ≤ fuel →
                       walk fuel (VDict oid top) payload {| visited := []; counts := c |}
                       = Done st')
              ∧ NoDup (visited st'))
  ∧ (∀ oid top,
       ∃ c, ∀ fuel, enough_fuel (VDict oid top) ≤ fuel →
                    count_properties_in_target_payloads fuel (VDict oid top) = Done c)
  ∧ count_properties_in_target_payloads (enough_fuel self_ref_doc) self_ref_doc
    = Done {[ "id" := 1 ]}.
Proof.
  repeat apply conj.
  - intros doc n st Hn. destruct (walk_ends doc n st Hn) as (st' & e & Hw & He).
    exists st'. repeat split; [done|by eapply extends_NoDup|by eapply extends_visited].
  - intros oid top payload c Hp.
    destruct (walk_payload_ends (VDict oid top) payload c) as (st' & e & Hw & He);
      [by apply payload_schemas_in_nodes|].
    exists st'. split; [intros fuel Hfuel; by apply Hw|].
    eapply extends_NoDup; [done|]. simpl. constructor.
  - intros oid top.
    destruct (count_properties_ends (VDict oid top) oid top eq_refl
                (payload_schemas top) ∅) as (c & Hc).
    { intros p. apply payload_schemas_in_nodes. }
    by exists c.
  - by vm_compute.
Qed.

(** ** Unresolved references *)

Lemma get_without_key_eq key kvs : get key (without_key key kvs) = None.
Proof.
  induction kvs as [|[k v] t IH]; simpl; [done|].
  destruct (String.eqb k key) eqn:E; [done|]. simpl. by rewrite E.
Qed.

Lemma get_without_key_ne key key' kvs :
  key ≠ key' → get key' (without_key key kvs) = get key' kvs.
Proof.
  intros Hne. induction kvs as [|[k v] t IH]; simpl; [done|].
  destruct (String.eqb_spec k key) as [->|Hk]; simpl.
  - destruct (String.eqb_spec key key'); [done|apply IH].
  - by rewrite IH.
Qed.

Lemma get_unique key kvs v v' :
  NoDup kvs.*1 → get key kvs = Some v → (key, v') ∈ kvs → v' = v.
Proof.
  induction kvs as [|[k w] t IH]; simpl; intros Hnd Hget Hin.
  - by apply elem_of_nil in Hin.
  - apply NoDup_cons in Hnd as [Hk Hnd].
    destruct (String.eqb_spec k key) as [->|Hne].
    + injection Hget as <-. apply elem_of_cons in Hin as [[= ->]|Hin]; [done|].
      destruct Hk. apply list_elem_of_fmap. by exists (key, v').
    + apply elem_of_cons in Hin as [[= -> ->]|Hin]; [done|]. by apply IH.
Qed.

Lemma for_each_without_key {S : Type} key kvs (body : string * value → action S) st :
  (∀ v, (key, v) ∈ kvs → body (key, v) = skip) →
  for_each (without_key key kvs) body st = for_each kvs body st.
Proof.
  revert st. induction kvs as [|[k v] t IH]; intros st H; [done|].
  assert (∀ st, for_each (without_key key t) body st = for_each t body st) as IH'.
  { intros st'. apply IH. intros v' Hv'. apply H. by right. }
  cbn [without_key]. destruct (String.eqb_spec k key) as [->|Hne].
  - rewrite for_each_cons, IH'. unfold seq. rewrite H by left. done.
  - rewrite !for_each_cons. unfold seq. destruct (body (k, v) st); [apply IH'|done..].
Qed.

(** C5. When the [$ref] of an object starts with [#] or [/] and does not
    resolve, whatever the reason, the walk goes on as if the object had no
    [$ref]: the state is left as it was by the failed attempt, and the
    [properties] object and the other entries are processed as usual. No
    exception ever leaves a walk, and none raised by the resolution of a
    pointer leaves [count_properties_in_target_payloads]. *)
Theorem unresolved_ref_is_skipped fuel doc oid entries ref e st :
  get "$ref" entries = Some (VStr ref) →
  startswith "#" ref || startswith "/" ref = true →
  json_pointer_get doc ref = Raise e →
  NoDup entries.*1 →
  walk fuel doc (VDict oid entries) st
  = walk fuel doc (VDict oid (without_key "$ref" entries)) st
  ∧ (∀ rec st', ref_action rec doc entries st' = Done st')
  ∧ (∀ fuel' doc' n st' e' st'', walk fuel' doc' n st' ≠ Raised e' st'')
  ∧ (∀ fuel' doc' e' c,
       count_properties_in_target_payloads fuel' doc' = Raised e' c →
       e' = AttributeError_get ∧ ∀ oid' top, doc' ≠ VDict oid' top)
  ∧ count_properties_in_target_payloads (enough_fuel dangling_ref_doc) dangling_ref_doc
    = Done {[ "id" := 1 ]}.
Proof.
  intros Href Hlocal Hfail Hnd.
  assert (∀ rec st', ref_action rec doc entries st' = Done st') as Hskip.
  { intros rec st'. unfold ref_action. by rewrite Href, Hlocal, Hfail. }
  repeat apply conj; [|done|apply walk_never_raises| |by vm_compute].
  - destruct fuel as [|fuel]; [done|]. rewrite !walk_dict.
    case_bool_decide; [done|]. unfold seq, mark, dict_body, seq.
    rewrite Hskip.
    assert (ref_action (walk fuel doc) doc (without_key "$ref" entries)
              {| visited := oid :: visited st; counts := counts st |}
            = Done {| visited := oid :: visited st; counts := counts st |}) as ->.
    { unfold ref_action. by rewrite get_without_key_eq. }
    assert (props_action (walk fuel doc) (without_key "$ref" entries)
            = props_action (walk fuel doc) entries) as ->.
    { unfold props_action. by rewrite get_without_key_ne. }
    destruct (props_action (walk fuel doc) entries _) as [st1| |]; [|done..].
    symmetry. apply for_each_without_key. intros v Hv.
    rewrite (get_unique _ _ _ _ Hnd Href Hv). done.
  - intros fuel' doc' e' c.
    destruct doc' as [| | | | |oid' items|oid' top]; simpl;
      try (by intros [= <- _]).
    intros H. exfalso. revert H. generalize (∅ : gmap string nat).
    induction (payload_schemas top) as [|p ps IH]; intros c0; [done|].
    rewrite for_each_cons. unfold seq, walk_payload at 1.
    destruct (walk fuel' (VDict oid' top) p _) as [st1|e1 st1|] eqn:E; [apply IH| |done].
    by destruct (walk_never_raises _ _ _ _ _ _ E).
Qed.

Lemma unresolved_ref_is_skipped_witness :
  walk 5 dangling_ref_doc (VDict 1 dangling_ref_entries) {| visited := []; counts := ∅ |}
  = walk 5 dangling_ref_doc (VDict 1 (without_key "$ref" dangling_ref_entries))
      {| visited := []; counts := ∅ |}.
Proof.
  apply (unresolved_ref_is_skipped 5 dangling_ref_doc 1 dangling_ref_entries
           "#/definitions/missing" (KeyError_token_not_found "missing")
           {| visited := []; counts := ∅ |});
    [reflexivity|reflexivity|reflexivity|].
  refine (bool_decide_unpack _ _). vm_compute. exact I.
Defined.

(** ** Loaded documents *)

Section json_induction.
Variable P : ExtractDateFields.json → Prop.
Hypothesis Hscalar :
  ∀ j, (∀ xs, j ≠ ExtractDateFields.JList xs) →
       (∀ kvs, j ≠ ExtractDateFields.JDict kvs) → P j.
Hypothesis Hlist : ∀ xs, Forall P xs → P (ExtractDateFields.JList xs).
Hypothesis Hdict :
  ∀ kvs, Forall (fun kv => P kv.2) kvs → P (ExtractDateFields.JDict kvs).

Fixpoint json_nested_ind (j : ExtractDateFields.json) : P j :=
  match j with
  | ExtractDateFields.JList xs =>
      Hlist xs
        ((fix go (l : list ExtractDateFields.json) : Forall P l :=
            match l with
            | [] => List.Forall_nil P
            | x :: t => List.Forall_cons P x t (json_nested_ind x) (go t)
            end) xs)
  | ExtractDateFields.JDict kvs =>
      Hdict kvs
        ((fix go (l : list (string * ExtractDateFields.json))
            : Forall (fun kv => P kv.2) l :=
            match l with
            | [] => List.Forall_nil _
            | kv :: t => List.Forall_cons _ kv t (json_nested_ind kv.2) (go t)
            end) kvs)
  | ExtractDateFields.JNull =>
      Hscalar ExtractDateFields.JNull ltac:(done) ltac:(done)
  | ExtractDateFields.JBool b =>
      Hscalar (ExtractDateFields.JBool b) ltac:(done) ltac:(done)
  | ExtractDateFields.JInt z =>
      Hscalar (ExtractDateFields.JInt z) ltac:(done) ltac:(done)
  | ExtractDateFields.JFloat f =>
      Hscalar (ExtractDateFields.JFloat f) ltac:(done) ltac:(done)
  | ExtractDateFields.JStr s =>
      Hscalar (ExtractDateFields.JStr s) ltac:(done) ltac:(done)
  end.
End json_induction.

(** The identities of a loaded document are the numbers from [next] on, in
    order. *)
Lemma load_from_oids j next :
  next ≤ (load_from next j).2
  ∧ oids (load_from next j).1 = List.seq next ((load_from next j).2 - next).
Proof.
  revert next.
  induction j as [j Hl Hd|xs IH|kvs IH] using json_nested_ind; intros next.
  - destruct j; simpl; rewrite ?Nat.sub_diag; try done;
      [by destruct (Hl xs)|by destruct (Hd kvs)].
  - cbn [load_from fst snd oids].
    set (go := fix go (next : nat) (xs : list ExtractDateFields.json)
                 : list value * nat :=
           match xs with
           | [] => ([], next)
           | x :: t =>
               let r1 := load_from next x in
               let r2 := go r1.2 t in
               (r1.1 :: r2.1, r2.2)
           end).
    assert (∀ n, n ≤ (go n xs).2
                 ∧ flat_map oids (go n xs).1 = List.seq n ((go n xs).2 - n)) as Hgo.
    { induction IH as [|x t Hx _ IHt]; intros n; simpl.
      - by rewrite Nat.sub_diag.
      - destruct (Hx n) as [Hle1 Ho1].
        destruct (IHt (load_from n x).2) as [Hle2 Ho2].
        split; [lia|]. rewrite Ho1, Ho2.
        set (m := (load_from n x).2) in *. set (e := (go m t).2) in *.
        replace (e - n) with ((m - n) + (e - m)) by lia.
        rewrite List.seq_app. do 2 f_equal. lia. }
    destruct (Hgo (S next)) as [Hle Ho]. split; [lia|]. rewrite Ho.
    by replace ((go (S next) xs).2 - next)
      with (S ((go (S next) xs).2 - S next)) by lia.
  - cbn [load_from fst snd oids].
    set (go := fix go (next : nat) (kvs : list (string * ExtractDateFields.json))
                 : list (string * value) * nat :=
           match kvs with
           | [] => ([], next)
           | kv :: t =>
               let r1 := load_from next kv.2 in
               let r2 := go r1.2 t in
               ((kv.1, r1.1) :: r2.1, r2.2)
           end).
    assert (∀ n, n ≤ (go n kvs).2
                 ∧ flat_map (fun kv => oids kv.2) (go n kvs).1
                   = List.seq n ((go n kvs).2 - n)) as Hgo.
    { induction IH as [|x t Hx _ IHt]; intros n; simpl.
      - by rewrite Nat.sub_diag.
      - destruct (Hx n) as [Hle1 Ho1].
        destruct (IHt (load_from n x.2).2) as [Hle2 Ho2].
        split; [lia|]. rewrite Ho1, Ho2.
        set (m := (load_from n x.2).2) in *. set (e := (go m t).2) in *.
        replace (e - n) with ((m - n) + (e - m)) by lia.
        rewrite List.seq_app. do 2 f_equal. lia. }
    destruct (Hgo (S next)) as [Hle Ho]. split; [lia|]. rewrite Ho.
    by replace ((go (S next) kvs).2 - next)
      with (S ((go (S next) kvs).2 - S next)) by lia.
Qed.

(** The containers of a loaded document all have identities of their own. *)
Lemma load_NoDup j : NoDup (oids (load j)).
Proof.
  unfold load. destruct (load_from_oids j 0) as [_ ->]. apply NoDup_seq.
Qed.

(** ** What is counted *)

Lemma NoDup_omap_inv {A B : Type} (f : A → option B) (l : list A) :
  Forall (fun x => is_Some (f x)) l → NoDup (omap f l) → NoDup l.
Proof.
  induction 1 as [|x l [b Hb] _ IH]; simpl; [constructor|].
  rewrite Hb. intros [Hx Hl]%NoDup_cons. apply NoDup_cons. split; [|by apply IH].
  intros Hin. apply Hx. apply list_elem_of_omap. eauto.
Qed.

Lemma succs_container doc m k : k ∈ succs doc m → is_container m = true.
Proof. destruct m; simpl; try (by intros ?%elem_of_nil); done. Qed.

Section one_payload.
Variables (doc payload : value) (c : gmap string nat) (st' : state) (entered : list value).
Hypothesis ids_unique : NoDup (oids doc).
Hypothesis payload_in : payload ∈ nodes doc.
Hypothesis walked :
  extends doc [payload] [] {| visited := []; counts := c |} st' entered.

Lemma entered_sound m : m ∈ entered → is_container m = true ∧ reach doc payload m.
Proof.
  destruct walked as (_ & Hin & _). rewrite Forall_forall in Hin.
  intros (Hc & _ & s & ->%list_elem_of_singleton & Hr)%Hin. done.
Qed.

Lemma entered_by_oid m o :
  m ∈ nodes doc → oid_of m = Some o → o ∈ visited st' → m ∈ entered.
Proof.
  destruct walked as (Hv & Hin & _). rewrite Forall_forall in Hin.
  intros Hm Ho. rewrite Hv, app_nil_r. simpl.
  intros (m' & Hm' & Ho')%list_elem_of_omap.
  destruct (Hin m' Hm') as (_ & Hm'n & _).
  by rewrite (node_by_oid doc m m' o).
Qed.

Lemma entered_complete m : reach doc payload m → is_container m = true → m ∈ entered.
Proof.
  destruct walked as (_ & Hin & _ & _ & Hs & Hcl & _). rewrite Forall_forall in Hin.
  unfold reach. revert m.
  apply (rtc_ind_r (fun m => is_container m = true → m ∈ entered));
    [intros Hc|intros m' m Hr Hedge IH Hc].
  - destruct (oid_of payload) as [o|] eqn:Ho; [|by destruct payload].
    apply (entered_by_oid _ o); [done..|]. apply (Hs payload); [left|done].
  - assert (m' ∈ entered) as Hm' by (by eapply IH, succs_container).
    destruct (Hin m' Hm') as (_ & Hm'n & _).
    destruct (oid_of m) as [o|] eqn:Ho; [|by destruct m].
    apply (entered_by_oid _ o); [by eapply succs_in_nodes|done|by eapply Hcl].
Qed.

Lemma entered_NoDup : NoDup entered.
Proof.
  destruct walked as (_ & Hin & Hnd & _).
  apply (NoDup_omap_inv oid_of); [|done].
  eapply Forall_impl; [done|]. simpl. intros m (Hc & _). by destruct m.
Qed.

Lemma entered_counts name : counts st' !!! name = c !!! name + prop_total name entered.
Proof.
  destruct walked as (_ & _ & _ & _ & _ & _ & Hc). rewrite Hc. simpl. lia.
Qed.

End one_payload.

Lemma payloads_counted doc payloads c :
  NoDup (oids doc) → (∀ p, p ∈ payloads → p ∈ nodes doc) →
  ∃ c' entered,
    (∀ fuel, enough_fuel doc ≤ fuel →
             for_each payloads (walk_payload fuel doc) c = Done c')
    ∧ Forall2 (entered_from doc) payloads entered
    ∧ ∀ name, c' !!! name = c !!! name + sum_list (map (prop_total name) entered).
Proof.
  intros Hids. revert c. induction payloads as [|p payloads IH]; intros c Hin.
  - exists c, []. repeat split; [constructor|]. intros name. simpl. lia.
  - assert (p ∈ nodes doc) as Hp by (apply Hin; left).
    destruct (walk_payload_ends doc p c Hp) as (st' & e & Hw & Hext).
    destruct (IH (counts st')) as (c' & es & Hc' & Hes & Hcount);
      [intros; apply Hin; by right|].
    exists c', (e :: es). repeat split.
    + intros fuel Hfuel. rewrite for_each_cons. unfold seq.
      destruct (Hw fuel Hfuel) as [_ ->]. by apply Hc'.
    + constructor; [|done]. split; [by eapply entered_NoDup|].
      intros m. split; [by eapply entered_sound|].
      intros [? ?]. by eapply entered_complete.
    + intros name. rewrite Hcount, (entered_counts doc p c st' e Hext). simpl. lia.
Qed.

(** C3. The payloads are the [targetSchema] values, objects or arrays, of the
    objects in the [links] list of the objects under [definitions]. In a
    document whose containers have identities of their own, as they have in
    every loaded document, each payload is walked from an empty visited set,
    so its walk enters exactly the containers reached from it, each once, and
    counts the keys of the [properties] object of each of them once; the
    count of a name is the sum of these counts over all payloads. On two
    links with target schemas of their own that both declare [id], [id] is
    counted twice; so it is when two payloads refer to one definition that
    declares [id], one of them twice. *)
Theorem count_properties_spec :
  (∀ j, NoDup (oids (load j)))
  ∧ (∀ top p,
       p ∈ payload_schemas top ↔
       ∃ oid_d definitions name oid_a _def oid_l links oid_k link,
         get "definitions" top = Some (VDict oid_d definitions)
         ∧ (name, VDict oid_a _def) ∈ definitions
         ∧ get "links" _def = Some (VList oid_l links)
         ∧ VDict oid_k link ∈ links
         ∧ get "targetSchema" link = Some p ∧ is_container p = true)
  ∧ (∀ oid top,
       NoDup (oids (VDict oid top)) →
       ∃ c entered,
         (∀ fuel, enough_fuel (VDict oid top) ≤ fuel →
                  count_properties_in_target_payloads fuel (VDict oid top) = Done c)
         ∧ Forall2 (entered_from (VDict oid top)) (payload_schemas top) entered
         ∧ ∀ name, c !!! name = sum_list (map (prop_total name) entered))
  ∧ load two_links_json = two_links_doc
  ∧ count_properties_in_target_payloads (enough_fuel two_links_doc) two_links_doc
    = Done {[ "id" := 2 ]}
  ∧ count_properties_in_target_payloads (enough_fuel shared_ref_doc) shared_ref_doc
    = Done {[ "id" := 2 ]}.
Proof.
  repeat apply conj; [apply load_NoDup| | |reflexivity|by vm_compute|by vm_compute].
  - intros top p. rewrite payload_schemas_spec. split.
    + intros (oid_d & definitions & name & _def & Hd & Hdef & Hp).
      apply def_payloads_spec in Hp
        as (oid_a & d & oid_l & links & link & -> & Hl & Hlink & Hp).
      apply link_payload_spec in Hp as (oid_k & l & -> & Hts & Hc).
      by exists oid_d, definitions, name, oid_a, d, oid_l, links, oid_k, l.
    + intros (oid_d & definitions & name & oid_a & d & oid_l & links & oid_k & l
              & Hd & Hdef & Hl & Hlink & Hts & Hc).
      exists oid_d, definitions, name, (VDict oid_a d). repeat split; [done..|].
      apply def_payloads_spec. exists oid_a, d, oid_l, links, (VDict oid_k l).
      repeat split; [done..|]. apply link_payload_spec. eauto.
  - intros oid top Hids.
    destruct (payloads_counted (VDict oid top) (payload_schemas top) ∅ Hids)
      as (c & es & Hc & Hes & Hcount).
    { intros p. apply payload_schemas_in_nodes. }
    exists c, es. repeat split; [done..|].
    intros name. rewrite Hcount, lookup_total_empty. done.
Qed.

Lemma pretty_N_char_digit (d : N) :
  (d < 10)%N →
  is_digit (pretty_N_char d) = true ∧ digit_val (pretty_N_char d) = Z.of_N d.
Proof.
  intros H.
  destruct d as [|p]; [done|].
  do 4 (destruct p as [p|p|]; try done); lia.
Qed.

Lemma pretty_N_go_digits (x : N) :
  ∀ s, ∃ m,
    String.length (pretty_N_go x s) = m + String.length s
    ∧ (all_digits s = true → all_digits (pretty_N_go x s) = true)
    ∧ (x ≠ 0%N → m ≠ 0 ∧ (10 ^ Z.of_nat (m - 1) ≤ Z.of_N x)%Z)
    ∧ ∀ acc k, digits_from (pretty_N_go x s) acc k
               = digits_from s (acc * 10 ^ Z.of_nat m + Z.of_N x)%Z (k + m).
Proof.
  induction (N.lt_wf_0 x) as [x _ IH]. intros s.
  destruct (decide (0 < x)%N) as [Hx|Hx].
  - rewrite pretty_N_go_step by done.
    destruct (IH (x `div` 10)%N) with (s := String (pretty_N_char (x `mod` 10)) s)
      as (m & Hlen & Hall & Hlow & Hd).
    { apply N.div_lt; lia. }
    destruct (pretty_N_char_digit (x `mod` 10)%N) as [Hdig Hval].
    { apply N.mod_lt. lia. }
    exists (S m). split; [|split; [|split]].
    + rewrite Hlen. simpl. lia.
    + intros Hs. apply Hall. simpl. by rewrite Hdig, Hs.
    + intros _. split; [done|]. replace (S m - 1) with m by lia.
      pose proof (N.div_mod x 10 ltac:(lia)) as Hdm.
      pose proof (N.mod_lt x 10 ltac:(lia)) as Hmod.
      revert Hdm Hmod Hlow Hlen. generalize (x `div` 10)%N (x `mod` 10)%N.
      intros q r Hdm Hmod Hlow Hlen.
      destruct (decide (q = 0)%N) as [E0|E0].
      * destruct m as [|m']; [simpl; lia|].
        exfalso. rewrite E0, pretty_N_go_0 in Hlen.
        simpl in Hlen. lia.
      * destruct (Hlow E0) as [Hm Hle]. destruct m as [|m']; [done|].
        replace (S m' - 1) with m' in Hle by lia.
        rewrite Nat2Z.inj_succ, Z.pow_succ_r by lia. lia.
    + intros acc k. rewrite Hd. simpl. rewrite Hdig, Hval. f_equal; [|lia].
      rewrite Nat2Z.inj_succ, Z.pow_succ_r by lia.
      rewrite (N.div_mod x 10) at 3 by lia. lia.
  - assert (x = 0%N) as -> by lia. rewrite pretty_N_go_0. exists 0.
    split; [done|]. split; [done|]. split; [done|].
    intros acc k. f_equal; lia.
Qed.

Lemma pretty_nat_digits (n : nat) :
  all_digits (pretty n) = true ∧ pretty n ≠ ""
  ∧ ∀ acc k, digits_from (pretty n) acc k
             = Some ((acc * 10 ^ Z.of_nat (String.length (pretty n)) + Z.of_nat n)%Z,
                     k + String.length (pretty n)).
Proof.
  unfold pretty, pretty_nat, pretty, pretty_N.
  case_decide as E.
  - assert (n = 0) as -> by lia. repeat split; [done|]. intros acc k.
    change (digits_from "0" acc k) with (Some (10 * acc + 0, S k)%Z).
    change (String.length "0") with 1. f_equal. f_equal; lia.
  - destruct (pretty_N_go_digits (N.of_nat n) "") as (m & Hlen & Hall & Hm & Hd).
    repeat split.
    + by apply Hall.
    + intros H. rewrite H in Hlen. simpl in Hlen. destruct (Hm E). lia.
    + intros acc k. rewrite Hd, Hlen. simpl. f_equal. f_equal; [|lia].
      replace (m + 0) with m by lia. lia.
Qed.

Lemma is_digit_not_space c : is_digit c = true → is_int_space c = false.
Proof.
  unfold is_digit, is_int_space. intros H.
  apply andb_true_iff in H as [H1 H2].
  apply Nat.leb_le in H1, H2.
  repeat match goal with
         | |- context [(?a <=? ?b)] => destruct (Nat.leb_spec a b)
         | |- context [(?a =? ?b)] => destruct (Nat.eqb_spec a b)
         end; simpl; try done; lia.
Qed.

Lemma rstrip_digits s : all_digits s = true → rstrip s = s.
Proof.
  induction s as [|c t IH]; simpl; [done|].
  intros [Hc Ht]%andb_true_iff. rewrite IH by done.
  destruct t; [|done]. by rewrite is_digit_not_space.
Qed.

Lemma lstrip_digit c t : is_digit c = true → lstrip (String c t) = String c t.
Proof. intros H. simpl. by rewrite is_digit_not_space. Qed.

(** [int(str(n)) == n], as long as the digits are within the limit. *)
Lemma py_int_pretty (n : nat) :
  String.length (pretty n) ≤ int_max_str_digits →
  py_int (pretty n) = Some (Z.of_nat n).
Proof.
  intros Hlen. destruct (pretty_nat_digits n) as (Hall & Hne & Hd).
  unfold py_int. destruct (pretty n) as [|c t] eqn:E; [done|].
  simpl in Hall. apply andb_true_iff in Hall as [Hc Ht].
  rewrite lstrip_digit by done.
  rewrite rstrip_digits by (simpl; by rewrite Hc, Ht).
  assert (unsigned_int (String c t) = Some (Z.of_nat n)) as Hu.
  { unfold unsigned_int. rewrite Hc, Hd. cbn [Nat.add Z.mul].
    destruct (Nat.leb_spec (String.length (String c t)) int_max_str_digits); [done|lia]. }
  destruct c as [[] [] [] [] [] [] [] []]; try done.
Qed.

(** A number below ten to the [k] is written with at most [k] digits. *)
Lemma pretty_nat_length (n k : nat) :
  0 < k → (Z.of_nat n < 10 ^ Z.of_nat k)%Z → String.length (pretty n) ≤ k.
Proof.
  intros Hk Hn. unfold pretty, pretty_nat, pretty, pretty_N.
  case_decide as E; [simpl; lia|].
  destruct (pretty_N_go_digits (N.of_nat n) "") as (m & Hlen & _ & Hm & _).
  destruct (Hm E) as [Hm0 Hle]. rewrite Hlen. simpl.
  destruct (decide (m ≤ k)) as [|Hgt]; [lia|]. exfalso.
  assert (10 ^ Z.of_nat k ≤ 10 ^ Z.of_nat (m - 1))%Z; [|lia].
  apply Z.pow_le_mono_r; lia.
Qed.

(** ** Pointers and paths *)

Lemma strip_hash_app p q :
  q = "" ∨ startswith "/" q = true →
  strip_hash (p +:+ q) = strip_hash p +:+ q.
Proof.
  intros Hq. unfold strip_hash. destruct p as [|c p]; simpl.
  - destruct Hq as [->|Hq]; [done|]. destruct q as [|c q]; [done|]. simpl in *.
    apply Ascii.eqb_eq in Hq as ->. done.
  - by destruct (Ascii.eqb c "#").
Qed.

Lemma json_pointer_get_app doc p q v :
  json_pointer_get doc p = Ok v →
  q = "" ∨ startswith "/" q = true →
  json_pointer_get doc (p +:+ q) = json_pointer_get v q.
Proof.
  intros Hp Hq. destruct q as [|c q].
  { by rewrite DateFieldsProofs.append_empty_r. }
  destruct Hq as [|Hq]; [done|]. simpl in Hq. apply Ascii.eqb_eq in Hq as ->.
  rewrite (json_pointer_get_stripped doc (p +:+ _)), strip_hash_app by (by right).
  rewrite (json_pointer_get_stripped v). change (strip_hash (String "/" q)) with (String "/" q).
  rewrite json_pointer_get_stripped in Hp.
  destruct (strip_hash p) as [|c rest]; simpl.
  - by injection Hp as ->.
  - destruct (Ascii.eqb c "/"); [|done].
    by rewrite split_app, deref_all_app, Hp.
Qed.

Lemma has_char_escape_token k : has_char "/" (escape_token k) = false.
Proof.
  induction k as [|c k IH]; simpl; [done|].
  destruct (Ascii.eqb_spec c "~"); [subst; simpl; done|].
  destruct (Ascii.eqb_spec c "/") as [->|Hne]; [simpl; done|].
  simpl. rewrite IH. by destruct (Ascii.eqb_spec c "/").
Qed.

Lemma has_char_digits c s :
  is_digit c = false → all_digits s = true → has_char c s = false.
Proof.
  intros Hc. induction s as [|d s IH]; cbn [all_digits has_char]; [done|].
  intros [Hd Hs]%andb_true_iff. rewrite IH by done.
  destruct (Ascii.eqb_spec d c); [congruence|done].
Qed.

Lemma unescape_digits s : all_digits s = true → unescape s = s.
Proof.
  intros H. unfold unescape.
  assert (∀ c2 new, replace2 "~" c2 new s = s) as Hrep.
  { intros c2 new. induction s as [|c s IH]; [done|].
    simpl in H. apply andb_true_iff in H as [Hc Hs].
    destruct s as [|d s]; [done|].
    rewrite replace2_other; [by rewrite IH|].
    destruct (Ascii.eqb_spec c "~"); [by subst|done]. }
  by rewrite !Hrep.
Qed.

Lemma deref_segment v s v' :
  follow v [s] = Some v' →
  (match s with
   | Index i => String.length (pretty i) ≤ int_max_str_digits
   | Key _ => True
   end) →
  has_char "/" (segment s) = false ∧ deref v (segment s) = Ok v'.
Proof.
  destruct s as [k|i]; simpl.
  - destruct v as [| | | | | |oid entries]; try done.
    destruct (get k entries) as [w|] eqn:E; [|done]. intros [= <-] _.
    split; [apply has_char_escape_token|].
    unfold deref. by rewrite unescape_escape_token, E.
  - destruct v as [| | | | |oid items|]; try done.
    destruct (items !! i) as [w|] eqn:E; [|done]. intros [= <-] Hlen.
    destruct (pretty_nat_digits i) as (Hall & _ & _).
    split; [by apply has_char_digits|].
    unfold deref. rewrite unescape_digits, py_int_pretty by done.
    apply lookup_lt_Some in E as Hlt.
    destruct (list_index_nonneg items (Z.of_nat i)) as [-> _]; [lia|].
    by rewrite Nat2Z.id, E.
Qed.

Lemma follow_cons v s rest :
  follow v (s :: rest) =
    match follow v [s] with Some v' => follow v' rest | None => None end.
Proof.
  destruct s as [k|i]; simpl.
  - destruct v; try done. by destruct (get k entries).
  - destruct v; try done. by destruct (items !! i).
Qed.

Lemma pointer_of_resolves doc path v :
  follow doc path = Some v → convertible path →
  json_pointer_get doc (pointer_of path) = Ok v.
Proof.
  revert doc. induction path as [|s rest IH]; intros doc.
  - by intros [= <-] _.
  - rewrite follow_cons. destruct (follow doc [s]) as [v'|] eqn:E; [|done].
    intros Hrest [Hs Hconv]%Forall_cons.
    destruct (deref_segment doc s v' E Hs) as [Hseg Hd].
    change (pointer_of (s :: rest)) with (String "/" (segment s) +:+ pointer_of rest).
    assert (json_pointer_get doc (String "/" (segment s)) = Ok v') as H1.
    { rewrite <- Hd. by apply (json_pointer_get_snoc doc "" doc). }
    erewrite json_pointer_get_app; [by apply IH|done|].
    destruct rest; [by left|by right].
Qed.

Lemma get_of_entry key kvs v :
  NoDup kvs.*1 → (key, v) ∈ kvs → get key kvs = Some v.
Proof.
  intros Hnd Hin. destruct (get key kvs) as [w|] eqn:E.
  - f_equal. symmetry. by eapply get_unique.
  - exfalso. induction kvs as [|[k w] t IH]; [by apply elem_of_nil in Hin|].
    simpl in E. destruct (String.eqb_spec k key) as [->|Hne]; [done|].
    apply elem_of_cons in Hin as [[= -> ->]|Hin]; [done|].
    apply IH; [by apply NoDup_cons in Hnd as [_ ?]|done..].
Qed.

Lemma node_has_path doc v :
  keys_unique doc → lists_indexable doc → v ∈ nodes doc →
  ∃ path, follow doc path = Some v ∧ convertible path.
Proof.
  revert v. induction doc as [d Hd|oid items IH|oid entries IH] using value_nested_ind;
    intros v Hkeys Hlists Hv.
  - exists []. split; [|constructor].
    destruct d; try discriminate Hd; apply list_elem_of_singleton in Hv as ->; done.
  - simpl in Hv. apply elem_of_cons in Hv as [->|Hv].
    { exists []. split; [done|constructor]. }
    apply elem_of_flat_map in Hv as (x & Hx & Hv).
    rewrite Forall_forall in IH.
    destruct (IH x Hx v) as (path & Hpath & Hconv); [| |done|].
    { intros o e He. apply (Hkeys o e). eapply nodes_trans; [by apply nodes_item|done]. }
    { intros o e He. apply (Hlists o e). eapply nodes_trans; [by apply nodes_item|done]. }
    apply list_elem_of_lookup_1 in Hx as [i Hi].
    exists (Index i :: path). split.
    + simpl. by rewrite Hi.
    + constructor; [|done]. apply lookup_lt_Some in Hi.
      apply pretty_nat_length; [unfold int_max_str_digits; lia|].
      pose proof (Hlists oid items (nodes_self _)). lia.
  - simpl in Hv. apply elem_of_cons in Hv as [->|Hv].
    { exists []. split; [done|constructor]. }
    apply elem_of_flat_map in Hv as ([k x] & Hx & Hv).
    rewrite Forall_forall in IH.
    destruct (IH (k, x) Hx v) as (path & Hpath & Hconv); [| |done|].
    { intros o e He. apply (Hkeys o e). eapply nodes_trans; [by eapply nodes_entry|done]. }
    { intros o e He. apply (Hlists o e). eapply nodes_trans; [by eapply nodes_entry|done]. }
    exists (Key k :: path). split.
    + simpl. rewrite (get_of_entry k entries x); [done| |done].
      apply (Hkeys oid entries), nodes_self.
    + by constructor.
Qed.

Lemma json_pointer_get_app_fails doc p q e :
  json_pointer_get doc p = Raise e → startswith "/" q = true →
  json_pointer_get doc (p +:+ q)
  = Raise (match e with
           | ValueError_non_local rest => ValueError_non_local (rest +:+ q)
           | _ => e
           end).
Proof.
  intros Hp Hq. destruct q as [|c q]; [done|].
  simpl in Hq. apply Ascii.eqb_eq in Hq as ->.
  rewrite json_pointer_get_stripped, strip_hash_app by (by right).
  rewrite json_pointer_get_stripped in Hp.
  destruct (strip_hash p) as [|c rest]; [done|].
  change (String c rest +:+ String "/" q) with (String c (rest +:+ String "/" q)).
  cbv beta iota. destruct (Ascii.eqb c "/").
  - rewrite split_app, deref_all_app, Hp.
    destruct e; try done.
    exfalso. clear -Hp. revert Hp. generalize (split "/" rest). intros parts.
    revert doc. induction parts as [|raw parts IH]; intros doc; [done|].
    simpl. destruct (deref doc raw) as [next|e'] eqn:E; [apply IH|].
    intros [= ->]. unfold deref in E.
    destruct doc; try done.
    + destruct (py_int _); [|done]. by destruct (list_index _ _).
    + by destruct (get _ _).
  - by injection Hp as <-.
Qed.

(** X5. What a pointer resolves to is a value of the document it is resolved
    against: [json_pointer_get] hands out what it finds, not a copy, so a
    container it returns has the identity of a container of the document. *)
Theorem json_pointer_get_stays_in_the_document doc pointer target :
  json_pointer_get doc pointer = Ok target →
  target ∈ nodes doc ∧ ∀ o, oid_of target = Some o → o ∈ oids doc.
Proof.
  intros H. apply json_pointer_get_in_nodes in H.
  split; [done|]. intros o Ho. by eapply oid_in_oids.
Qed.

Lemma json_pointer_get_stays_in_the_document_witness :
  VList 2 [VInt 10; VInt 20] ∈ nodes doc_a_b
  ∧ ∀ o, oid_of (VList 2 [VInt 10; VInt 20]) = Some o → o ∈ oids doc_a_b.
Proof.
  apply (json_pointer_get_stays_in_the_document doc_a_b "/a/b"). reflexivity.
Defined.

(** X6. Resolving a pointer followed by a second one, which is empty or
    starts with a slash, is resolving the first and then the second against
    what the first has found. When the first fails, the joined pointer fails
    with the same error; the error for a reference that is not local then
    carries the joined text. *)
Theorem json_pointer_get_of_joined_pointers :
  (∀ doc p q v,
     json_pointer_get doc p = Ok v → q = "" ∨ startswith "/" q = true →
     json_pointer_get doc (p +:+ q) = json_pointer_get v q)
  ∧ (∀ doc p q e,
       json_pointer_get doc p = Raise e → startswith "/" q = true →
       json_pointer_get doc (p +:+ q)
       = Raise (match e with
                | ValueError_non_local rest => ValueError_non_local (rest +:+ q)
                | _ => e
                end)).
Proof. split; [apply json_pointer_get_app|apply json_pointer_get_app_fails]. Qed.

(** X7. A path of object keys and list positions, written as a pointer with
    each key escaped as RFC 6901 has it and each position in decimal,
    resolves to the value the path leads to, whatever characters the keys
    hold. *)
Theorem pointer_of_a_path_resolves doc path v :
  follow doc path = Some v → convertible path →
  json_pointer_get doc (pointer_of path) = Ok v.
Proof. apply pointer_of_resolves. Qed.

Lemma pointer_of_a_path_resolves_witness :
  pointer_of [Key "a/b"; Key "m~n"; Index 1] = "/a~1b/m~0n/1"
  ∧ json_pointer_get doc_escaped_keys "/a~1b/m~0n/1" = Ok (VStr "y").
Proof.
  split; [reflexivity|].
  apply (pointer_of_a_path_resolves doc_escaped_keys [Key "a/b"; Key "m~n"; Index 1]);
    [reflexivity|].
  repeat (apply List.Forall_cons; [first [exact I|apply Nat.leb_le; reflexivity]|]).
  apply List.Forall_nil.
Defined.

(** X8. In a document whose objects hold each key once and whose lists are
    no longer than [int] converts, every value has a pointer that resolves
    to it. *)
Theorem every_value_has_a_pointer doc v :
  keys_unique doc → lists_indexable doc → v ∈ nodes doc →
  ∃ pointer, json_pointer_get doc pointer = Ok v.
Proof.
  intros Hkeys Hlists Hv.
  destruct (node_has_path doc v Hkeys Hlists Hv) as (path & Hpath & Hconv).
  exists (pointer_of path). by apply pointer_of_resolves.
Qed.

Lemma every_value_has_a_pointer_witness :
  ∃ pointer, json_pointer_get doc_escaped_keys pointer = Ok (VStr "y").
Proof.
  apply every_value_has_a_pointer.
  - intros oid entries H. vm_compute in H.
    repeat (apply elem_of_cons in H as [H|H]; [try discriminate H|]).
    + injection H as -> ->. apply NoDup_singleton.
    + injection H as -> ->. apply NoDup_singleton.
    + by apply elem_of_nil in H.
  - intros oid items H. vm_compute in H.
    repeat (apply elem_of_cons in H as [H|H]; [try discriminate H|]).
    + injection H as -> ->. by vm_compute.
    + by apply elem_of_nil in H.
  - vm_compute. do 4 right. left.
Defined.

(** ** How a position may be spelled *)

Lemma unescape_plain s : has_char "~" s = false → unescape s = s.
Proof.
  intros H. unfold unescape.
  assert (∀ c2 new, replace2 "~" c2 new s = s) as Hrep.
  { intros c2 new. induction s as [|c s IH]; [done|].
    cbn [has_char] in H. apply orb_false_iff in H as [Hc Hs].
    destruct s as [|d s]; [done|].
    rewrite replace2_other by done. by rewrite IH. }
  by rewrite !Hrep.
Qed.

Lemma rstrip_digits_space s :
  s ≠ "" → all_digits s = true → rstrip (s +:+ " ") = s.
Proof.
  induction s as [|c s IH]; [done|]. intros _.
  cbn [all_digits]. intros [Hc Hs]%andb_true_iff.
  change (String c s +:+ " ") with (String c (s +:+ " ")). cbn [rstrip].
  destruct s as [|d s].
  - change (rstrip ("" +:+ " ")) with "". cbv iota.
    by rewrite is_digit_not_space.
  - by rewrite IH.
Qed.

Lemma py_int_spellings (n : nat) :
  String.length (pretty n) < int_max_str_digits →
  py_int (String "+" (pretty n)) = Some (Z.of_nat n)
  ∧ py_int (String "0" (pretty n)) = Some (Z.of_nat n)
  ∧ py_int (String " " (pretty n +:+ " ")) = Some (Z.of_nat n).
Proof.
  intros Hlen. destruct (pretty_nat_digits n) as (Hall & Hne & Hd).
  assert (unsigned_int (pretty n) = Some (Z.of_nat n)) as Hu.
  { unfold unsigned_int. destruct (pretty n) as [|c t] eqn:E; [by destruct Hne|].
    cbn [all_digits] in Hall. apply andb_true_iff in Hall as [Hc Ht].
    rewrite Hc, Hd. cbn [Nat.add Z.mul].
    destruct (Nat.leb_spec (String.length (String c t)) int_max_str_digits); [done|lia]. }
  split; [|split].
  - unfold py_int.
    change (lstrip (String "+" (pretty n))) with (String "+" (pretty n)).
    cbn [rstrip]. rewrite rstrip_digits by done.
    destruct (pretty n) as [|c t] eqn:E; [by destruct Hne|]. done.
  - unfold py_int.
    change (lstrip (String "0" (pretty n))) with (String "0" (pretty n)).
    cbn [rstrip]. rewrite rstrip_digits by done.
    destruct (pretty n) as [|c t] eqn:E; [by destruct Hne|].
    unfold unsigned_int. change (is_digit "0") with true. cbv iota.
    change (digits_from (String "0" (String c t)) 0 0)
      with (digits_from (String c t) (10 * 0 + digit_val "0") 1).
    rewrite Hd.
    destruct (Nat.leb_spec (1 + String.length (String c t)) int_max_str_digits);
      [|lia].
    f_equal; change (digit_val "0") with 0%Z; lia.
  - unfold py_int.
    change (lstrip (String " " (pretty n +:+ " "))) with (lstrip (pretty n +:+ " ")).
    destruct (pretty n) as [|c t] eqn:E; [by destruct Hne|].
    cbn [all_digits] in Hall. apply andb_true_iff in Hall as [Hc Ht].
    change (String c t +:+ " ") with (String c (t +:+ " ")).
    rewrite lstrip_digit by done.
    change (String c (t +:+ " ")) with (String c t +:+ " ").
    rewrite rstrip_digits_space; [|done|by cbn [all_digits]; rewrite Hc, Ht].
    destruct c as [[] [] [] [] [] [] [] []]; try done.
Qed.

(** X9. A segment met on a list is read by [int]: besides the plain decimal
    spelling of a position, the spelling with a plus sign in front, with a
    zero in front, and with a blank on either side are accepted and resolve
    to the same item. *)
Theorem list_position_is_read_by_int doc prefix oid items i v :
  json_pointer_get doc prefix = Ok (VList oid items) →
  items !! i = Some v →
  String.length (pretty i) < int_max_str_digits →
  json_pointer_get doc (prefix +:+ String "/" (pretty i)) = Ok v
  ∧ json_pointer_get doc (prefix +:+ String "/" (String "+" (pretty i))) = Ok v
  ∧ json_pointer_get doc (prefix +:+ String "/" (String "0" (pretty i))) = Ok v
  ∧ json_pointer_get doc (prefix +:+ String "/" (String " " (pretty i +:+ " "))) = Ok v.
Proof.
  intros Hget Hi Hlen.
  destruct (pretty_nat_digits i) as (Hall & _ & _).
  destruct (py_int_spellings i Hlen) as (Hplus & Hzero & Hspace).
  assert (∀ c, Ascii.eqb c "/" = false → Ascii.eqb c "~" = false →
               has_char "/" (String c (pretty i)) = false
               ∧ has_char "~" (String c (pretty i)) = false) as Hfront.
  { intros c H1 H2. cbn [has_char]. by rewrite H1, H2, !has_char_digits. }
  assert (has_char "/" (pretty i +:+ " ") = false
          ∧ has_char "~" (pretty i +:+ " ") = false) as [Hs1 Hs2].
  { clear -Hall. induction (pretty i) as [|c s IH]; [done|].
    cbn [all_digits] in Hall. apply andb_true_iff in Hall as [Hc Hs].
    change (String c s +:+ " ") with (String c (s +:+ " ")). cbn [has_char].
    destruct (IH Hs) as [-> ->].
    destruct c as [[] [] [] [] [] [] [] []]; try done. }
  assert (∀ seg, has_char "/" seg = false → has_char "~" seg = false →
                 py_int seg = Some (Z.of_nat i) →
                 json_pointer_get doc (prefix +:+ String "/" seg) = Ok v) as Hseg.
  { intros seg H1 H2 Hint.
    rewrite (json_pointer_get_snoc _ _ _ _ Hget H1). unfold deref.
    rewrite unescape_plain, Hint by done.
    apply lookup_lt_Some in Hi as Hlt.
    destruct (list_index_nonneg items (Z.of_nat i)) as [-> _]; [lia|].
    by rewrite Nat2Z.id, Hi. }
  repeat split.
  - apply Hseg; [by apply has_char_digits..|]. apply py_int_pretty. lia.
  - by apply Hseg; [apply Hfront..|].
  - by apply Hseg; [apply Hfront..|].
  - apply Hseg; [| |done].
    + cbn [has_char]. by rewrite Hs1.
    + cbn [has_char]. by rewrite Hs2.
Qed.

Lemma list_position_is_read_by_int_witness :
  json_pointer_get doc_a_b "/a/b/1" = Ok (VInt 20)
  ∧ json_pointer_get doc_a_b "/a/b/+1" = Ok (VInt 20)
  ∧ json_pointer_get doc_a_b "/a/b/01" = Ok (VInt 20)
  ∧ json_pointer_get doc_a_b "/a/b/ 1 " = Ok (VInt 20).
Proof.
  apply (list_position_is_read_by_int doc_a_b "/a/b" 2 [VInt 10; VInt 20] 1);
    [reflexivity|reflexivity|].
  apply Nat.ltb_lt. reflexivity.
Defined.

(** ** A walk only adds *)

Lemma grown_refl st : grown st st.
Proof. by split; [|split]. Qed.

Lemma grown_trans st1 st2 st3 : grown st1 st2 → grown st2 st3 → grown st1 st3.
Proof.
  intros (Hv1 & Hc1 & Hp1) (Hv2 & Hc2 & Hp2). split; [|split]; [by auto| |by auto].
  intros name. specialize (Hc1 name). specialize (Hc2 name). lia.
Qed.

Lemma only_adds_skip : only_adds skip.
Proof. intros st st' [= <-]. apply grown_refl. Qed.

Lemma only_adds_raise e : only_adds (raise e).
Proof. intros st st' [= <-]. apply grown_refl. Qed.

Lemma only_adds_mark o : only_adds (mark o).
Proof.
  intros st st' [= <-]. split; [|split]; simpl; [|done..].
  intros o' H. by right.
Qed.

Lemma positive_incr name c : positive c → positive (incr name c).
Proof.
  intros Hc name'. unfold incr. destruct (decide (name = name')) as [->|Hne].
  - by rewrite lookup_insert_eq.
  - rewrite lookup_insert_ne by done. apply Hc.
Qed.

Lemma only_adds_count name : only_adds (count name).
Proof.
  intros st st' [= <-]. split; [|split]; simpl; [done| |apply positive_incr].
  intros name'. rewrite incr_lookup. lia.
Qed.

Lemma only_adds_seq a b : only_adds a → only_adds b → only_adds (seq a b).
Proof.
  intros Ha Hb st st'. unfold seq.
  destruct (a st) as [st1|e st1|] eqn:E; [|by intros; apply Ha; rewrite E|done].
  intros H. eapply grown_trans; [apply Ha; by rewrite E|by apply Hb].
Qed.

Lemma only_adds_try_pass a : only_adds a → only_adds (try_pass a).
Proof.
  intros Ha st st'. unfold try_pass. intros H. apply Ha.
  by destruct (a st).
Qed.

Lemma only_adds_for_each {X : Type} (xs : list X) (body : X → action state) :
  (∀ x, only_adds (body x)) → only_adds (for_each xs body).
Proof.
  intros H. induction xs as [|x xs IH]; [apply only_adds_skip|].
  rewrite for_each_cons. by apply only_adds_seq.
Qed.

Lemma only_adds_dict_body rec doc entries :
  (∀ n, only_adds (rec n)) → only_adds (dict_body rec doc entries).
Proof.
  intros Hrec. unfold dict_body. repeat apply only_adds_seq.
  - unfold ref_action. destruct (get "$ref" entries) as [[]|];
      try apply only_adds_skip.
    destruct (_ || _); [|apply only_adds_skip]. apply only_adds_try_pass.
    destruct (json_pointer_get doc s); [done|apply only_adds_raise].
  - unfold props_action. destruct (get "properties" entries) as [[]|];
      try apply only_adds_skip.
    apply only_adds_for_each. intros kv.
    apply only_adds_seq; [apply only_adds_count|done].
  - apply only_adds_for_each. intros kv. unfold entry_action.
    destruct (String.eqb kv.1 "properties"); [apply only_adds_skip|].
    destruct (String.eqb kv.1 "patternProperties").
    + destruct kv.2; try apply only_adds_skip. by apply only_adds_for_each.
    + destruct (str_in kv.1 schema_keys); [done|].
      destruct (is_container kv.2); [done|apply only_adds_skip].
Qed.

Lemma walk_grows fuel doc n : only_adds (walk fuel doc n).
Proof.
  revert n. induction fuel as [|fuel IH]; intros n st st'; [done|].
  destruct n as [| | | | |oid items|oid entries];
    try (intros [= <-]; apply grown_refl).
  - rewrite walk_list. case_bool_decide; [intros [= <-]; apply grown_refl|].
    apply only_adds_seq; [apply only_adds_mark|by apply only_adds_for_each].
  - rewrite walk_dict. case_bool_decide; [intros [= <-]; apply grown_refl|].
    apply only_adds_seq; [apply only_adds_mark|by apply only_adds_dict_body].
Qed.

(** After its walk a container is in the visited set. *)
Lemma walk_marks_root fuel doc n st st' o :
  walk fuel doc n st = Done st' → oid_of n = Some o → o ∈ visited st'.
Proof.
  destruct fuel as [|fuel]; [done|]. intros Hw Ho.
  assert (walk (S fuel) doc n st =
            if bool_decide (o ∈ visited st) then Done st
            else seq (mark o)
                     (match n with
                      | VDict _ entries => dict_body (walk fuel doc) doc entries
                      | VList _ items => for_each items (walk fuel doc)
                      | _ => skip
                      end) st) as E.
  { destruct n; try discriminate Ho; injection Ho as ->;
      [apply walk_list|apply walk_dict]. }
  rewrite E in Hw. case_bool_decide as Hvis; [by injection Hw as <-|].
  unfold seq, mark in Hw.
  assert (only_adds (match n with
                     | VDict _ entries => dict_body (walk fuel doc) doc entries
                     | VList _ items => for_each items (walk fuel doc)
                     | _ => skip
                     end)) as Hbody.
  { destruct n; try apply only_adds_skip.
    - apply only_adds_for_each, walk_grows.
    - apply only_adds_dict_body, walk_grows. }
  destruct (Hbody {| visited := o :: visited st; counts := counts st |} st')
    as (Hv & _); [by rewrite Hw|].
  apply Hv. left.
Qed.

(** X10. Whatever the fuel, the document and the state, a walk that ends has
    taken nothing out of the visited set and has lowered no count, and the
    container it started from is in the visited set it leaves. So a second
    walk from the same value, in the state the first has left, changes
    nothing. *)
Theorem walk_only_adds_and_repeats_as_nothing fuel doc n st st' :
  walk fuel doc n st = Done st' →
  (∀ o, o ∈ visited st → o ∈ visited st')
  ∧ (∀ name, counts st !!! name ≤ counts st' !!! name)
  ∧ (∀ o, oid_of n = Some o → o ∈ visited st')
  ∧ (∀ fuel', 0 < fuel' → walk fuel' doc n st' = Done st').
Proof.
  intros Hw. destruct (walk_grows fuel doc n st st') as (Hv & Hc & _); [by rewrite Hw|].
  split; [done|]. split; [done|]. split; [intros o Ho; by eapply walk_marks_root|].
  intros [|fuel'] Hf; [lia|].
  destruct n as [| | | | |oid items|oid entries]; try done.
  - rewrite walk_list, bool_decide_eq_true_2; [done|]. by eapply walk_marks_root.
  - rewrite walk_dict, bool_decide_eq_true_2; [done|]. by eapply walk_marks_root.
Qed.

Lemma walk_only_adds_and_repeats_as_nothing_witness :
  ∃ st',
    walk 5 dangling_ref_doc (VDict 1 dangling_ref_entries) {| visited := []; counts := ∅ |}
    = Done st'
    ∧ walk 1 dangling_ref_doc (VDict 1 dangling_ref_entries) st' = Done st'.
Proof.
  eexists. split; [reflexivity|].
  apply (walk_only_adds_and_repeats_as_nothing 5 dangling_ref_doc
           (VDict 1 dangling_ref_entries) {| visited := []; counts := ∅ |});
    [reflexivity|lia].
Defined.

(** ** References that are not local *)

(** X11. A [$ref] that is neither a container nor a string starting with
    [#] or [/], such as the address of another document, is never resolved:
    the walk of the object is the walk of the object without its [$ref]. *)
Theorem ref_that_is_not_local_is_not_followed fuel doc oid entries r st :
  get "$ref" entries = Some r →
  is_container r = false →
  (∀ ref, r = VStr ref → is_local ref = false) →
  NoDup entries.*1 →
  walk fuel doc (VDict oid entries) st
  = walk fuel doc (VDict oid (without_key "$ref" entries)) st.
Proof.
  intros Href Hr Hlocal Hnd.
  destruct fuel as [|fuel]; [done|]. rewrite !walk_dict.
  case_bool_decide; [done|]. unfold seq, mark, dict_body, seq.
  assert (∀ rec st', ref_action rec doc entries st' = Done st') as Hskip.
  { intros rec st'. unfold ref_action. rewrite Href.
    destruct r as [| | | |ref| |]; try done.
    specialize (Hlocal ref eq_refl). unfold is_local in Hlocal. by rewrite Hlocal. }
  rewrite Hskip.
  assert (ref_action (walk fuel doc) doc (without_key "$ref" entries)
            {| visited := oid :: visited st; counts := counts st |}
          = Done {| visited := oid :: visited st; counts := counts st |}) as ->.
  { unfold ref_action. by rewrite get_without_key_eq. }
  assert (props_action (walk fuel doc) (without_key "$ref" entries)
          = props_action (walk fuel doc) entries) as ->.
  { unfold props_action. by rewrite get_without_key_ne. }
  destruct (props_action (walk fuel doc) entries _) as [st1| |]; [|done..].
  symmetry. apply for_each_without_key. intros v Hv.
  rewrite (get_unique _ _ _ _ Hnd Href Hv).
  unfold entry_action. simpl. by rewrite Hr.
Qed.

(** ** The names of the table *)

Lemma occurrences_pos name l : 0 < occurrences name l ↔ name ∈ l.
Proof.
  induction l as [|s l IH]; simpl.
  - split; [lia|by intros ?%elem_of_nil].
  - rewrite elem_of_cons, <- IH. destruct (String.eqb_spec s name) as [->|Hne].
    + split; [by left|lia].
    + split; [intros; right; lia|intros [->|]; [done|lia]].
Qed.

Lemma prop_total_pos name entered :
  0 < prop_total name entered ↔ ∃ m, m ∈ entered ∧ name ∈ prop_names m.
Proof.
  induction entered as [|m entered IH].
  - simpl. split; [lia|]. by intros (m & ?%elem_of_nil & _).
  - change (prop_total name (m :: entered))
      with (occurrences name (prop_names m) + prop_total name entered).
    rewrite DateFieldsProofs.exists_elem_of_cons, <- IH, <- occurrences_pos. lia.
Qed.

Lemma walk_payload_positive fuel doc payload c c' :
  walk_payload fuel doc payload c = Done c' → positive c → positive c'.
Proof.
  unfold walk_payload.
  destruct (walk fuel doc payload _) as [st'| |] eqn:E; [|done..].
  intros [= <-] Hc.
  destruct (walk_grows fuel doc payload {| visited := []; counts := c |} st')
    as (_ & _ & Hp); [by rewrite E|]. by apply Hp.
Qed.

Lemma payloads_positive fuel doc payloads c c' :
  for_each payloads (walk_payload fuel doc) c = Done c' → positive c → positive c'.
Proof.
  revert c. induction payloads as [|p payloads IH]; intros c.
  - by intros [= <-].
  - rewrite for_each_cons. unfold seq.
    destruct (walk_payload fuel doc p c) as [c1| |] eqn:E; [|done..].
    intros H Hc. eapply IH; [done|]. by eapply walk_payload_positive.
Qed.

(** X12. In a document whose containers have identities of their own, the
    names in the table are exactly the keys of the [properties] objects of
    the nodes that the walks reach from the payloads, and no name is in the
    table with the count zero. *)
Theorem counted_names_are_the_properties_reached oid top :
  NoDup (oids (VDict oid top)) →
  ∃ c,
    (∀ fuel, enough_fuel (VDict oid top) ≤ fuel →
             count_properties_in_target_payloads fuel (VDict oid top) = Done c)
    ∧ (∀ name,
         is_Some (c !! name) ↔
         ∃ payload m, payload ∈ payload_schemas top
                      ∧ reach (VDict oid top) payload m ∧ name ∈ prop_names m)
    ∧ (∀ name k, c !! name = Some k → 0 < k).
Proof.
  intros Hids.
  destruct (payloads_counted (VDict oid top) (payload_schemas top) ∅ Hids)
    as (c & es & Hc & Hes & Hcount).
  { intros p. apply payload_schemas_in_nodes. }
  assert (positive c) as Hpos.
  { eapply payloads_positive; [apply (Hc _ (le_n _))|]. intros name.
    by rewrite lookup_empty. }
  assert (∀ name, is_Some (c !! name) ↔ 0 < c !!! name) as Hsome.
  { intros name. specialize (Hpos name). rewrite lookup_total_alt.
    destruct (c !! name) as [[|k]|]; simpl.
    - done.
    - split; [lia|by eexists].
    - split; [by intros [? ?]|lia]. }
  exists c. split; [done|]. split.
  - intros name. rewrite Hsome, Hcount, lookup_total_empty. simpl.
    clear Hc Hcount Hpos Hsome.
    induction Hes as [|p e ps es [Hnd He] _ IH]; simpl.
    + split; [lia|]. by intros (p & m & ?%elem_of_nil & _).
    + split.
      * intros H.
        destruct (decide (0 < prop_total name e)) as [Hpos|Hzero].
        -- apply prop_total_pos in Hpos as (m & Hm & Hname).
           apply He in Hm as [_ Hr]. exists p, m. split; [left|done].
        -- destruct IH as [IH _]. destruct IH as (p' & m & Hp' & Hr & Hname); [lia|].
           exists p', m. split; [by right|done].
      * intros (p' & m & Hp' & Hr & Hname).
        apply elem_of_cons in Hp' as [->|Hp'].
        -- assert (0 < prop_total name e); [|lia].
           apply prop_total_pos. exists m. split; [|done].
           apply He. split; [|done]. destruct m; try (by apply elem_of_nil in Hname); done.
        -- destruct IH as [_ IH]. assert (0 < sum_list (map (prop_total name) es)); [|lia].
           apply IH. eauto.
  - intros name k Hk. specialize (Hpos name). destruct k; [done|lia].
Qed.

Lemma counted_names_are_the_properties_reached_witness :
  ∃ c,
    (∀ fuel, enough_fuel two_links_doc ≤ fuel →
             count_properties_in_target_payloads fuel two_links_doc = Done c)
    ∧ (∀ name,
         is_Some (c !! name) ↔
         ∃ payload m, payload ∈ payload_schemas two_links_top
                      ∧ reach two_links_doc payload m ∧ name ∈ prop_names m)
    ∧ (∀ name k, c !! name = Some k → 0 < k).
Proof.
  apply (counted_names_are_the_properties_reached 0 two_links_top).
  refine (bool_decide_unpack _ _). vm_compute. exact I.
Defined.

Lemma ref_that_is_not_local_is_not_followed_witness :
  walk 5 (VDict 1 remote_ref_entries) (VDict 1 remote_ref_entries)
    {| visited := []; counts := ∅ |}
  = walk 5 (VDict 1 remote_ref_entries) (VDict 1 (without_key "$ref" remote_ref_entries))
      {| visited := []; counts := ∅ |}.
Proof.
  apply (ref_that_is_not_local_is_not_followed 5 (VDict 1 remote_ref_entries) 1
           remote_ref_entries (VStr "https://example.com/schema.json"));
    [reflexivity|reflexivity|by intros ref [= <-]|].
  refine (bool_decide_unpack _ _). vm_compute. exact I.
Defined.

Example most_common_example :
  most_common 3 [("a", 2); ("b", 5); ("c", 2); ("d", 5); ("e", 1); ("f", 2)]
  = [("b", 5); ("d", 5); ("a", 2)].
Proof. reflexivity. Qed.

Example main_example :
  main 100 shared_ref_doc = Done ("id" +:+ String TAB ("2" +:+ String LF "")).
Proof. vm_compute. reflexivity. Qed.

(** ** The ordered walk does what the walk does *)

Lemma table_incr name c : table (Ordered.incr name c) = incr name (table c).
Proof.
  unfold table, incr. induction c as [|[k n] t IH]; simpl.
  - by rewrite lookup_total_empty.
  - destruct (String.eqb_spec k name) as [->|Hne]; simpl.
    + by rewrite lookup_total_insert_eq, insert_insert_eq.
    + rewrite IH, lookup_total_insert_ne by done. by apply insert_insert_ne.
Qed.

Lemma incr_keys name c :
  (Ordered.incr name c).*1 = if bool_decide (name ∈ c.*1) then c.*1 else c.*1 ++ [name].
Proof.
  induction c as [|[k n] t IH]; [done|]. cbn [Ordered.incr].
  destruct (String.eqb_spec k name) as [->|Hne]; rewrite !fmap_cons; cbn [fst].
  - rewrite bool_decide_eq_true_2; [done|left].
  - rewrite IH. case_bool_decide as E.
    + rewrite bool_decide_eq_true_2; [done|by right].
    + rewrite bool_decide_eq_false_2; [done|].
      intros [?|?]%elem_of_cons; congruence.
Qed.

Lemma incr_NoDup name c : NoDup c.*1 → NoDup (Ordered.incr name c).*1.
Proof.
  intros H. rewrite incr_keys. case_bool_decide as E; [done|].
  apply NoDup_app. split; [done|]. split; [|apply NoDup_singleton].
  intros x Hx ->%list_elem_of_singleton. done.
Qed.

Section simulation.
Context {S T : Type} (R : S → T → Prop).

Lemma simulates_skip : simulates R skip skip.
Proof. by intros st st' H. Qed.

Lemma simulates_raise e : simulates R (raise e) (raise e).
Proof. by intros st st' H. Qed.

Lemma simulates_seq a a' b b' :
  simulates R a b → simulates R a' b' → simulates R (seq a a') (seq b b').
Proof.
  intros Ha Ha' st st' H. unfold seq. specialize (Ha st st' H).
  destruct (a st), (b st'); try done. by apply Ha'.
Qed.

Lemma simulates_try_pass a b : simulates R a b → simulates R (try_pass a) (try_pass b).
Proof.
  intros Ha st st' H. unfold try_pass. specialize (Ha st st' H).
  destruct (a st), (b st'); try done. by destruct Ha.
Qed.

Lemma simulates_for_each {X : Type} (xs : list X) body body' :
  (∀ x, simulates R (body x) (body' x)) →
  simulates R (for_each xs body) (for_each xs body').
Proof.
  intros H. induction xs as [|x xs IH]; [apply simulates_skip|].
  rewrite !for_each_cons. by apply simulates_seq.
Qed.

End simulation.

Lemma simulates_mark oid : simulates same_state (mark oid) (Ordered.mark oid).
Proof.
  intros st ost (Hv & Hc & Hnd). split; [|split]; simpl; [by rewrite Hv|done..].
Qed.

Lemma simulates_count name : simulates same_state (count name) (Ordered.count name).
Proof.
  intros st ost (Hv & Hc & Hnd). split; [|split]; simpl; [done| |by apply incr_NoDup].
  by rewrite table_incr, Hc.
Qed.

Lemma walk_simulated fuel doc n :
  simulates same_state (walk fuel doc n) (Ordered.walk fuel doc n).
Proof.
  revert n. induction fuel as [|fuel IH]; intros n; [done|].
  destruct n as [| | | | |oid items|oid entries]; try apply simulates_skip.
  - intros st ost H. cbn [walk Ordered.walk].
    assert (visited st = Ordered.visited ost) as -> by apply H.
    case_bool_decide; [done|].
    apply (simulates_seq same_state (mark oid) _ (Ordered.mark oid) _); [| |done].
    { apply simulates_mark. }
    by apply simulates_for_each.
  - intros st ost H. cbn [walk Ordered.walk].
    assert (visited st = Ordered.visited ost) as -> by apply H.
    case_bool_decide; [done|].
    apply (simulates_seq same_state (mark oid) _ (Ordered.mark oid) _); [| |done].
    { apply simulates_mark. }
    repeat apply simulates_seq.
    + destruct (get "$ref" entries) as [[]|]; try apply simulates_skip.
      destruct (_ || _); [|apply simulates_skip]. apply simulates_try_pass.
      destruct (json_pointer_get doc s); [done|apply simulates_raise].
    + destruct (get "properties" entries) as [[]|]; try apply simulates_skip.
      apply simulates_for_each. intros kv.
      apply simulates_seq; [apply simulates_count|done].
    + apply simulates_for_each. intros kv. cbv zeta.
      destruct (String.eqb kv.1 "properties"); [apply simulates_skip|].
      destruct (String.eqb kv.1 "patternProperties").
      * destruct kv.2; try apply simulates_skip. by apply simulates_for_each.
      * destruct (str_in kv.1 schema_keys); [done|].
        destruct (is_container kv.2); [done|apply simulates_skip].
Qed.

Lemma walk_payload_simulated fuel doc payload :
  simulates same_counts (walk_payload fuel doc payload)
    (Ordered.walk_payload fuel doc payload).
Proof.
  intros c oc [Hc Hnd]. unfold walk_payload, Ordered.walk_payload.
  pose proof (walk_simulated fuel doc payload {| visited := []; counts := c |}
                {| Ordered.visited := []; Ordered.counts := oc |}) as H.
  specialize (H (conj eq_refl (conj Hc Hnd))).
  destruct (walk fuel doc payload _), (Ordered.walk fuel doc payload _); try done.
  - destruct H as (_ & ? & ?); done.
  - destruct H as [-> (_ & ? & ?)]; done.
Qed.

Lemma count_properties_simulated fuel doc :
  same_outcome same_counts (count_properties_in_target_payloads fuel doc)
    (Ordered.count_properties_in_target_payloads fuel doc).
Proof.
  assert (same_counts ∅ []) as H0 by (split; [done|constructor]).
  destruct doc; try done.
  apply simulates_for_each; [|done]. intros p. apply walk_payload_simulated.
Qed.

(** ** The most common names *)

Lemma insert_by_count_perm kv l : insert_by_count kv l ≡ₚ kv :: l.
Proof.
  induction l as [|kv' t IH]; simpl; [done|].
  destruct (kv.2 <? kv'.2); [|done]. rewrite IH. apply Permutation_swap.
Qed.

Lemma sorted_by_count_perm c : sorted_by_count c ≡ₚ c.
Proof.
  induction c as [|kv c IH]; simpl; [done|].
  by rewrite insert_by_count_perm, IH.
Qed.

Lemma insert_by_count_sorted kv l :
  StronglySorted by_count l → StronglySorted by_count (insert_by_count kv l).
Proof.
  induction 1 as [|kv' t Hs IH Hall]; simpl; [repeat constructor|].
  destruct (Nat.ltb_spec kv.2 kv'.2) as [Hlt|Hge].
  - constructor; [done|]. rewrite insert_by_count_perm. constructor; [|done].
    unfold by_count. lia.
  - constructor; [by constructor|]. constructor; [done|].
    eapply Forall_impl; [done|]. unfold by_count. simpl. lia.
Qed.

Lemma sorted_by_count_sorted c : StronglySorted by_count (sorted_by_count c).
Proof.
  induction c as [|kv c IH]; simpl; [constructor|by apply insert_by_count_sorted].
Qed.

Lemma with_count_insert k kv l :
  with_count k (insert_by_count kv l) = with_count k (kv :: l).
Proof.
  unfold with_count. induction l as [|kv' t IH]; [done|]. cbn [insert_by_count].
  destruct (Nat.ltb_spec kv.2 kv'.2) as [Hlt|Hge]; [|done].
  cbn [List.filter] in *. rewrite IH.
  destruct (Nat.eqb_spec kv.2 k), (Nat.eqb_spec kv'.2 k); try done; lia.
Qed.

(** Sorting leaves the items of one count in the order they had. *)
Lemma with_count_sorted k c : with_count k (sorted_by_count c) = with_count k c.
Proof.
  induction c as [|kv c IH]; [done|]. cbn [sorted_by_count foldr].
  rewrite with_count_insert. unfold with_count in *.
  fold (sorted_by_count c). cbn [List.filter]. by rewrite IH.
Qed.

Lemma most_common_prefix n c : most_common n c `prefix_of` sorted_by_count c.
Proof. apply prefix_take. Qed.

Lemma filter_prefix {A : Type} (p : A → bool) (l1 l2 : list A) :
  l1 `prefix_of` l2 → List.filter p l1 `prefix_of` List.filter p l2.
Proof. intros [k ->]. rewrite List.filter_app. by eexists. Qed.

Section most_common.
Variables (n : nat) (c : Ordered.counter).
Hypothesis keys_once : NoDup c.*1.

Lemma most_common_length : length (most_common n c) = n `min` size (table c).
Proof.
  unfold most_common, table. rewrite length_take, map_size_list_to_map by done.
  by rewrite (Permutation_length (sorted_by_count_perm c)).
Qed.

Lemma most_common_NoDup : NoDup (most_common n c).*1.
Proof.
  unfold most_common. rewrite fmap_take.
  eapply sublist_NoDup; [|apply sublist_take].
  by rewrite (sorted_by_count_perm c).
Qed.

Lemma most_common_elem name k :
  (name, k) ∈ most_common n c → table c !! name = Some k.
Proof.
  intros H. apply elem_of_list_to_map_1; [done|].
  rewrite <- (sorted_by_count_perm c).
  eapply elem_of_prefix; [done|apply most_common_prefix].
Qed.

Lemma most_common_sorted : StronglySorted by_count (most_common n c).
Proof.
  pose proof (sorted_by_count_sorted c) as H.
  rewrite <- (take_drop n (sorted_by_count c)) in H.
  by apply StronglySorted_app in H as (_ & ? & _).
Qed.

Lemma most_common_largest name k item :
  table c !! name = Some k → name ∉ (most_common n c).*1 →
  item ∈ most_common n c → k ≤ item.2.
Proof.
  intros Hk Hout Hitem.
  apply elem_of_list_to_map_2 in Hk. rewrite <- (sorted_by_count_perm c) in Hk.
  rewrite <- (take_drop n (sorted_by_count c)) in Hk.
  apply elem_of_app in Hk as [Hk|Hk].
  - destruct Hout. apply list_elem_of_fmap. by exists (name, k).
  - pose proof (sorted_by_count_sorted c) as H.
    rewrite <- (take_drop n (sorted_by_count c)) in H.
    by apply (StronglySorted_app_1_elem_of _ _ _ item (name, k)) in H.
Qed.

End most_common.

Lemma count_properties_in_order oid top fuel :
  enough_fuel (VDict oid top) ≤ fuel →
  ∃ c oc,
    count_properties_in_target_payloads fuel (VDict oid top) = Done c
    ∧ Ordered.count_properties_in_target_payloads fuel (VDict oid top) = Done oc
    ∧ c = table oc ∧ NoDup oc.*1 ∧ positive c.
Proof.
  intros Hfuel.
  destruct (count_properties_ends (VDict oid top) oid top eq_refl
              (payload_schemas top) ∅) as (c & Hc).
  { intros p. apply payload_schemas_in_nodes. }
  specialize (Hc fuel Hfuel).
  pose proof (count_properties_simulated fuel (VDict oid top)) as Hsim.
  change (count_properties_in_target_payloads fuel (VDict oid top))
    with (for_each (payload_schemas top) (walk_payload fuel (VDict oid top)) ∅) in Hsim.
  rewrite Hc in Hsim.
  destruct (Ordered.count_properties_in_target_payloads fuel (VDict oid top))
    as [oc| |] eqn:E; try done.
  destruct Hsim as [-> Hnd]. exists (table oc), oc. repeat split; [done..|].
  eapply payloads_positive; [exact Hc|]. intros name. by rewrite lookup_empty.
Qed.

(** X13. [main] prints the items of [most_common(50)], one line each: fifty
    names at most, and all of them when there are no more than fifty; each
    name once, with the count that [count_properties_in_target_payloads]
    gives it, which is at least one. The counts go down the lines, and no
    name left out has a count above a count that is printed. *)
Theorem main_prints_the_most_common oid top fuel :
  enough_fuel (VDict oid top) ≤ fuel →
  ∃ c oc,
    count_properties_in_target_payloads fuel (VDict oid top) = Done c
    ∧ Ordered.count_properties_in_target_payloads fuel (VDict oid top) = Done oc
    ∧ main fuel (VDict oid top) = Done (print_all (most_common 50 oc))
    ∧ length (most_common 50 oc) = 50 `min` size c
    ∧ NoDup (most_common 50 oc).*1
    ∧ (∀ name k, (name, k) ∈ most_common 50 oc → c !! name = Some k ∧ 0 < k)
    ∧ StronglySorted by_count (most_common 50 oc)
    ∧ (∀ name k item,
         c !! name = Some k → name ∉ (most_common 50 oc).*1 →
         item ∈ most_common 50 oc → k ≤ item.2).
Proof.
  intros Hfuel.
  destruct (count_properties_in_order oid top fuel Hfuel)
    as (c & oc & Hc & Hoc & -> & Hnd & Hpos).
  exists (table oc), oc.
  split; [done|]. split; [done|]. split; [unfold main; by rewrite Hoc|].
  split; [by apply most_common_length|].
  split; [by apply most_common_NoDup|].
  split; [|split; [apply most_common_sorted|by apply most_common_largest]].
  intros name k Hin. apply most_common_elem in Hin; [|done].
  split; [done|]. specialize (Hpos name). destruct k; [done|lia].
Qed.

Lemma main_prints_the_most_common_witness :
  ∃ c oc,
    count_properties_in_target_payloads 13 two_links_doc = Done c
    ∧ Ordered.count_properties_in_target_payloads 13 two_links_doc = Done oc
    ∧ main 13 two_links_doc = Done (print_all (most_common 50 oc))
    ∧ length (most_common 50 oc) = 50 `min` size c
    ∧ NoDup (most_common 50 oc).*1
    ∧ (∀ name k, (name, k) ∈ most_common 50 oc → c !! name = Some k ∧ 0 < k)
    ∧ StronglySorted by_count (most_common 50 oc)
    ∧ (∀ name k item,
         c !! name = Some k → name ∉ (most_common 50 oc).*1 →
         item ∈ most_common 50 oc → k ≤ item.2).
Proof.
  apply (main_prints_the_most_common 0 two_links_top 13).
  vm_compute. repeat constructor.
Defined.

(** X14. A count leaves the names of the [Counter] where they are and puts a
    new name last, so the [Counter] holds the names in the order in which
    they were first counted; and the names of one count are printed in the
    order in which the [Counter] holds them. *)
Theorem equal_counts_print_in_the_order_of_first_count :
  (∀ name c,
     (Ordered.incr name c).*1 = if bool_decide (name ∈ c.*1) then c.*1 else c.*1 ++ [name])
  ∧ (∀ fuel doc oc,
       Ordered.count_properties_in_target_payloads fuel doc = Done oc →
       main fuel doc = Done (print_all (most_common 50 oc))
       ∧ ∀ k, with_count k (most_common 50 oc) `prefix_of` with_count k oc).
Proof.
  split; [apply incr_keys|].
  intros fuel doc oc Hoc. split; [unfold main; by rewrite Hoc|].
  intros k. rewrite <- (with_count_sorted k oc).
  apply filter_prefix, most_common_prefix.
Qed.

End TopPropertiesProofs.
